(** * FX Rates Dashboard: watchlist store and series aggregator

    A shallow embedding of the logic of
    - [src/utils/storage.ts]   (isPair, loadWatchlist, saveWatchlist),
    - [src/pages/Watchlist.tsx] (onAdd, onRemove, the persist effect, the
      rate queries),
    - [src/pages/History.tsx]   (isoDateUTC, daysAgoUTC, the window, chartData,
      stats, the series query),
    - [src/api/frankfurter.ts]  (the three requests),
    - the currency options of the pages,
    followed by the properties the specification states about them and by
    further properties of the code.

    The code runs on a JavaScript host.  What the host supplies and the
    repository does not define (String.prototype.toUpperCase, JSON.parse,
    JSON.stringify, String.prototype.localeCompare, Intl date formatting) is
    the interface [Host]; every definition and theorem is parametric in it.
    [RefHost] is one executable host, used to run the code on concrete inputs.
    Numbers are IEEE-754 binary64 values ([float]), strings are sequences of
    code units ([string]; of 16-bit code units, [JsString], where
    [encodeURIComponent] reads them), Date objects are their time value. *)

From Stdlib Require Import String Ascii List ZArith Bool Lia Floats.
From Stdlib Require Import Sorted Permutation.
Import ListNotations.
Local Open Scope string_scope.
Local Open Scope list_scope.

Set Implicit Arguments.

(* ================================================================== *)
(** * Part I.  The model *)
(* ================================================================== *)

(** ** Exceptions

    A JavaScript expression either returns a value or throws.  The code only
    ever catches with a bare [catch], so the thrown value is not recorded. *)

Inductive Exc (A : Type) : Type :=
| Returns (a : A)
| Throws.
Arguments Returns {A} a.
Arguments Throws {A}.

Definition bind {A B : Type} (c : Exc A) (k : A -> Exc B) : Exc B :=
  match c with
  | Returns a => k a
  | Throws => Throws
  end.

Notation "x <- c ;; k" := (bind c (fun x => k))
  (at level 61, c at next level, right associativity).

(** [try { return body } catch { return handler }] *)
Definition try_catch {A : Type} (body : Exc A) (handler : A) : A :=
  match body with
  | Returns a => a
  | Throws => handler
  end.

(** [Array.prototype.filter] and [Array.prototype.map] with a callback that
    may throw: elements are visited left to right and the first throw aborts. *)
Fixpoint filterE {A : Type} (f : A -> Exc bool) (l : list A) : Exc (list A) :=
  match l with
  | [] => Returns []
  | x :: l' =>
      keep <- f x ;;
      rest <- filterE f l' ;;
      Returns (if keep then x :: rest else rest)
  end.

Fixpoint mapE {A B : Type} (f : A -> Exc B) (l : list A) : Exc (list B) :=
  match l with
  | [] => Returns []
  | x :: l' =>
      y <- f x ;;
      rest <- mapE f l' ;;
      Returns (y :: rest)
  end.

(** ** Values

    The values [JSON.parse] can produce.  An object is the list of its own
    properties in creation order; where a key is listed twice the first
    binding is the property (objects built by the host have each key once). *)

#[warnings="-register-all"]
Inductive Json : Type :=
| JNull
| JBool (b : bool)
| JNum (n : float)
| JStr (s : string)
| JArr (items : list Json)
| JObj (props : list (string * Json)).

(** The result of reading a property: a value or [undefined]. *)
Definition JsValue : Type := option Json.
Definition undefined : JsValue := None.

Inductive JsType : Type :=
| TUndefined | TObject | TBoolean | TNumber | TString.

Definition typeof (v : JsValue) : JsType :=
  match v with
  | None => TUndefined
  | Some JNull => TObject
  | Some (JBool _) => TBoolean
  | Some (JNum _) => TNumber
  | Some (JStr _) => TString
  | Some (JArr _) => TObject
  | Some (JObj _) => TObject
  end.

Definition JsType_eqb (a b : JsType) : bool :=
  match a, b with
  | TUndefined, TUndefined | TObject, TObject | TBoolean, TBoolean
  | TNumber, TNumber | TString, TString => true
  | _, _ => false
  end.

(** ToBoolean *)
Definition truthy (x : Json) : bool :=
  match x with
  | JNull => false
  | JBool b => b
  | JNum n => negb (PrimFloat.is_zero n || PrimFloat.is_nan n)
  | JStr s => negb (s =? "")
  | JArr _ => true
  | JObj _ => true
  end.

Fixpoint lookup {V : Type} (k : string) (m : list (string * V)) : option V :=
  match m with
  | [] => None
  | (k', v) :: m' => if k' =? k then Some v else lookup k m'
  end.

(** A canonical array index: a decimal numeral without leading zero. *)
Definition is_digit (c : ascii) : bool :=
  (48 <=? nat_of_ascii c)%nat && (nat_of_ascii c <=? 57)%nat.

Fixpoint digits_value (s : string) (acc : nat) : option nat :=
  match s with
  | EmptyString => Some acc
  | String c s' =>
      if is_digit c then digits_value s' (10 * acc + (nat_of_ascii c - 48))
      else None
  end.

Definition array_index (k : string) : option nat :=
  match k with
  | EmptyString => None
  | String c rest =>
      if (c =? "0")%char && negb (rest =? "") then None else digits_value k 0
  end.

Definition number_of_nat (n : nat) : float :=
  PrimFloat.of_uint63 (Uint63.of_Z (Z.of_nat n)).

(** [x[k]] on a value made by [JSON.parse]: the own data properties.  Reading
    a property of [null] throws a TypeError.  Inherited members (methods,
    [constructor], [__proto__]) are functions or objects; the code only ever
    tests a property for [typeof] ["string"] or ["number"], which is false
    for them as it is for [undefined], so they are read as [undefined]. *)
Definition get_prop (x : Json) (k : string) : Exc JsValue :=
  match x with
  | JNull => Throws
  | JBool _ | JNum _ => Returns undefined
  | JStr s =>
      if k =? "length" then Returns (Some (JNum (number_of_nat (String.length s))))
      else match array_index k with
           | Some i => match String.get i s with
                       | Some c => Returns (Some (JStr (String c EmptyString)))
                       | None => Returns undefined
                       end
           | None => Returns undefined
           end
  | JArr items =>
      if k =? "length" then Returns (Some (JNum (number_of_nat (List.length items))))
      else match array_index k with
           | Some i => Returns (nth_error items i)
           | None => Returns undefined
           end
  | JObj props => Returns (lookup k props)
  end.

(** ** The host interface *)

Class Host : Type := {
  (** [String.prototype.toUpperCase] *)
  toUpperCase : string -> string;
  (** [JSON.parse]; [Throws] is its SyntaxError *)
  JSON_parse : string -> Exc Json;
  (** [JSON.stringify] on a JSON value *)
  JSON_stringify : Json -> string;
  (** [a.localeCompare(b)]: negative, zero or positive *)
  localeCompare : string -> string -> Z;
  (** [new Intl.DateTimeFormat("en-US", {month: "short", day: "2-digit"}).format]
      applied to [new Date(Date.UTC(y, m - 1, d))] for the three numbers read
      from the text; [Throws] is the RangeError for an invalid date *)
  Intl_format_month_day : string -> Exc string
}.

(** [localStorage]: each access may fail (storage disabled, quota exceeded). *)
Record LocalStorage : Type := {
  readable : bool;
  writable : bool;
  items : list (string * string)
}.

Definition getItem (ls : LocalStorage) (k : string) : Exc (option string) :=
  if readable ls then Returns (lookup k (items ls)) else Throws.

Fixpoint store {V : Type} (k : string) (v : V) (m : list (string * V))
  : list (string * V) :=
  match m with
  | [] => [(k, v)]
  | (k', v') :: m' => if k' =? k then (k', v) :: m' else (k', v') :: store k v m'
  end.

Definition setItem (ls : LocalStorage) (k v : string) : Exc LocalStorage :=
  if writable ls
  then Returns {| readable := readable ls; writable := writable ls;
                  items := store k v (items ls) |}
  else Throws.

(** [Map]: entries in insertion order; [set] on a present key replaces the
    value and keeps the position, on a new key appends. *)
Definition JsMap (V : Type) : Type := list (string * V).
Definition Map_new {V : Type} : JsMap V := [].
Definition Map_set {V : Type} (k : string) (v : V) (m : JsMap V) : JsMap V :=
  store k v m.
Definition Map_values {V : Type} (m : JsMap V) : list V := map snd m.

(** ** storage.ts *)

Module Storage.

Record WatchPair : Type := { base : string; target : string }.

Definition KEY : string := "fx_watchlist_v1".

Definition DEFAULT_WATCHLIST : list WatchPair :=
  [ {| base := "USD"; target := "MXN" |} ].

(** [x && typeof x.base === "string" && typeof x.target === "string"] *)
Definition isPair (x : Json) : Exc bool :=
  if truthy x then
    b <- get_prop x "base" ;;
    if JsType_eqb (typeof b) TString then
      t <- get_prop x "target" ;;
      Returns (JsType_eqb (typeof t) TString)
    else Returns false
  else Returns false.

(** [v.toUpperCase()]: a TypeError unless [v] is a string. *)
Definition call_toUpperCase `{Host} (v : JsValue) : Exc string :=
  match v with
  | Some (JStr s) => Returns (toUpperCase s)
  | _ => Throws
  end.

(** [(p) => ({ base: p.base.toUpperCase(), target: p.target.toUpperCase() })] *)
Definition upper_pair `{Host} (p : Json) : Exc WatchPair :=
  b <- get_prop p "base" ;;
  b' <- call_toUpperCase b ;;
  t <- get_prop p "target" ;;
  t' <- call_toUpperCase t ;;
  Returns {| base := b'; target := t' |}.

(** [`${p.base}-${p.target}`] *)
Definition pair_key (p : WatchPair) : string := base p ++ "-" ++ target p.

(** One iteration of the [for (const p of pairs)] loop. *)
Definition uniq_step (uniq : JsMap WatchPair) (p : WatchPair) : JsMap WatchPair :=
  if (base p =? "") || (target p =? "") || (base p =? target p)
  then uniq
  else Map_set (pair_key p) p uniq.

Definition uniq_of (pairs : list WatchPair) : JsMap WatchPair :=
  fold_left uniq_step pairs Map_new.

(** The statements of [loadWatchlist] after [Array.isArray(parsed)] held. *)
Definition load_array `{Host} (parsed : list Json) : Exc (list WatchPair) :=
  valid <- filterE isPair parsed ;;
  pairs <- mapE upper_pair valid ;;
  let list := Map_values (uniq_of pairs) in
  Returns (match list with [] => DEFAULT_WATCHLIST | _ => list end).

Definition loadWatchlist_try `{Host} (ls : LocalStorage) : Exc (list WatchPair) :=
  raw <- getItem ls KEY ;;
  match raw with
  | None => Returns DEFAULT_WATCHLIST
  | Some text =>
      if text =? "" then Returns DEFAULT_WATCHLIST
      else
        parsed <- JSON_parse text ;;
        match parsed with
        | JArr entries => load_array entries
        | _ => Returns DEFAULT_WATCHLIST
        end
  end.

Definition loadWatchlist `{Host} (ls : LocalStorage) : list WatchPair :=
  try_catch (loadWatchlist_try ls) DEFAULT_WATCHLIST.

(** The value [JSON.stringify] is handed for a [WatchPair[]]: objects with the
    two properties in the order the object literals create them. *)
Definition json_of_pair (p : WatchPair) : Json :=
  JObj [("base", JStr (base p)); ("target", JStr (target p))].

Definition json_of_pairs (pairs : list WatchPair) : Json :=
  JArr (map json_of_pair pairs).

Definition saveWatchlist `{Host} (pairs : list WatchPair) (ls : LocalStorage)
  : LocalStorage :=
  try_catch (setItem ls KEY (JSON_stringify (json_of_pairs pairs))) ls.

End Storage.

(** ** Watchlist.tsx *)

Module Watchlist.

Import Storage.

(** The component state the two handlers read and write: the [useState]
    cells [pairs], [base], [target] and [msg].  A handler is created by a
    render and reads the cells of that render; the updates it queues are
    applied to the state as it is when they run, which is the state of its
    render unless another handler of the same render has run before it. *)
Record State : Type := {
  pairs : list WatchPair;
  base : string;
  target : string;
  msg : option string
}.

Definition setMsg (m : option string) (s : State) : State :=
  {| pairs := pairs s; base := base s; target := target s; msg := m |}.

Definition setPairs (f : list WatchPair -> list WatchPair) (s : State) : State :=
  {| pairs := f (pairs s); base := base s; target := target s; msg := msg s |}.

(** [onAdd] of the render [render], run on the state [s0].  The [base] and
    [target] it uppercases and the [pairs] it searches for the key are those
    of its render; [setMsg] and the updater of [setPairs], whose [prev] is the
    list of [s0], act on [s0].  [return setMsg(...)] ends the handler with
    that message set. *)
Definition onAdd `{Host} (render s0 : State) : State :=
  let s := setMsg None s0 in
  let b := toUpperCase (base render) in
  let t := toUpperCase (target render) in
  if (b =? "") || (t =? "") then setMsg (Some "Please select both currencies.") s
  else if b =? t then setMsg (Some "Choose two different currencies.") s
  else
    let key := (b ++ "-" ++ t)%string in
    let exists_ :=
      existsb (fun p => (Storage.base p ++ "-" ++ Storage.target p)%string =? key)
              (pairs render) in
    if exists_ then setMsg (Some "That pair is already in your watchlist.") s
    else setPairs (fun prev => {| Storage.base := b; Storage.target := t |} :: prev) s.

(** [onRemove(p)]: it reads nothing of its render, the updater works on the
    [prev] it is given. *)
Definition onRemove (p : WatchPair) (s : State) : State :=
  setPairs
    (fun prev =>
       filter (fun x => negb ((Storage.base x =? Storage.base p)
                              && (Storage.target x =? Storage.target p))) prev)
    s.

End Watchlist.

(** ** Date objects

    A Date is its time value: milliseconds since the epoch, or NaN for an
    invalid date.  The functions are those of ECMA-262, section Date Objects;
    the numbers they exchange are integers or NaN, written [option Z]. *)

Module JsDate.

Local Open Scope Z_scope.

Definition Date : Type := option Z.

Definition msPerDay : Z := 86400000.
Definition Day (t : Z) : Z := t / msPerDay.
Definition TimeWithinDay (t : Z) : Z := t mod msPerDay.

Definition DayFromYear (y : Z) : Z :=
  365 * (y - 1970) + (y - 1969) / 4 - (y - 1901) / 100 + (y - 1601) / 400.

(** The largest [y] with [DayFromYear y <= d]: an estimate from the mean year
    length, corrected by at most one year ([YearFromDay_spec]). *)
Definition YearFromDay (d : Z) : Z :=
  let y := 1970 + (400 * d) / 146097 in
  if d <? DayFromYear y then y - 1
  else if DayFromYear (y + 1) <=? d then y + 1
  else y.

Definition YearFromTime (t : Z) : Z := YearFromDay (Day t).

(** 1 in a leap year, else 0 *)
Definition InLeapYear_of (y : Z) : Z :=
  if (y mod 4 =? 0) && (negb (y mod 100 =? 0) || (y mod 400 =? 0)) then 1 else 0.

Definition InLeapYear (t : Z) : Z := InLeapYear_of (YearFromTime t).

Definition DayWithinYear (t : Z) : Z := Day t - DayFromYear (YearFromTime t).

(** Day number within the year at which month [m] (0 to 11) starts. *)
Definition month_start (m leap : Z) : Z :=
  match m with
  | 0 => 0
  | 1 => 31
  | 2 => 59 + leap
  | 3 => 90 + leap
  | 4 => 120 + leap
  | 5 => 151 + leap
  | 6 => 181 + leap
  | 7 => 212 + leap
  | 8 => 243 + leap
  | 9 => 273 + leap
  | 10 => 304 + leap
  | _ => 334 + leap
  end.

Definition MonthFromTime (t : Z) : Z :=
  let d := DayWithinYear t in
  let leap := InLeapYear t in
  if d <? 31 then 0
  else if d <? 59 + leap then 1
  else if d <? 90 + leap then 2
  else if d <? 120 + leap then 3
  else if d <? 151 + leap then 4
  else if d <? 181 + leap then 5
  else if d <? 212 + leap then 6
  else if d <? 243 + leap then 7
  else if d <? 273 + leap then 8
  else if d <? 304 + leap then 9
  else if d <? 334 + leap then 10
  else 11.

Definition DateFromTime (t : Z) : Z :=
  let d := DayWithinYear t in
  let leap := InLeapYear t in
  match MonthFromTime t with
  | 0 => d + 1
  | 1 => d - 30
  | 2 => d - 58 - leap
  | 3 => d - 89 - leap
  | 4 => d - 119 - leap
  | 5 => d - 150 - leap
  | 6 => d - 180 - leap
  | 7 => d - 211 - leap
  | 8 => d - 242 - leap
  | 9 => d - 272 - leap
  | 10 => d - 303 - leap
  | _ => d - 333 - leap
  end.

(** MakeDay: the day number of the first day of month [month] of [year]
    (months beyond 0..11 carry into the year), plus [date - 1].  A result
    outside the range of time values is cut off by [TimeClip] afterwards. *)
Definition MakeDay (year month date : Z) : Z :=
  let ym := year + month / 12 in
  let mn := month mod 12 in
  DayFromYear ym + month_start mn (InLeapYear_of ym) + date - 1.

Definition MakeDate (day time : Z) : Z := day * msPerDay + time.

Definition TimeClip (t : Z) : Date :=
  if Z.abs t <=? 8640000000000000 then Some t else None.

(** [new Date()] when the clock reads [now] *)
Definition new_Date (now : Z) : Date := TimeClip now.

Definition getUTCFullYear (d : Date) : option Z := option_map YearFromTime d.
Definition getUTCMonth (d : Date) : option Z := option_map MonthFromTime d.
Definition getUTCDate (d : Date) : option Z := option_map DateFromTime d.

(** [d.setUTCDate(dt)]: the Date after the call. *)
Definition setUTCDate (d : Date) (dt : option Z) : Date :=
  match d, dt with
  | Some t, Some n =>
      TimeClip (MakeDate (MakeDay (YearFromTime t) (MonthFromTime t) n) (TimeWithinDay t))
  | _, _ => None
  end.

(** [a + b] and [a - b] on integers or NaN *)
Definition num_add (a b : option Z) : option Z :=
  match a, b with Some x, Some y => Some (x + y) | _, _ => None end.
Definition num_sub (a b : option Z) : option Z :=
  match a, b with Some x, Some y => Some (x - y) | _, _ => None end.

(** Decimal digits of a non-negative integer, most significant first. *)
Fixpoint digits_fuel (fuel : nat) (n : Z) (acc : string) : string :=
  let acc' := String (ascii_of_nat (48 + Z.to_nat (n mod 10))) acc in
  match fuel with
  | O => acc'
  | S fuel' => if n <? 10 then acc' else digits_fuel fuel' (n / 10) acc'
  end.

Definition digits (n : Z) : string := digits_fuel (Z.to_nat (Z.log2 n)) n EmptyString.

(** [String(n)] and [`${n}`] for an integer below 10^21 or NaN *)
Definition ToString (n : option Z) : string :=
  match n with
  | None => "NaN"%string
  | Some z => if z <? 0 then String "-"%char (digits (- z)) else digits z
  end.

Fixpoint repeat_fill (n : nat) (fill cur : string) : string :=
  match n with
  | O => EmptyString
  | S n' =>
      match cur with
      | EmptyString =>
          match fill with
          | EmptyString => EmptyString
          | String c rest => String c (repeat_fill n' fill rest)
          end
      | String c rest => String c (repeat_fill n' fill rest)
      end
  end.

(** [s.padStart(maxLength, fill)] *)
Definition padStart (maxLength : nat) (fill s : string) : string :=
  (repeat_fill (maxLength - String.length s) fill fill ++ s)%string.

End JsDate.

(** ** [Math.min], [Math.max], [Array.prototype.sort], [Array.prototype.slice] *)



(** [l.sort(cmp)] for a consistent comparator: the stable sort.  Elements are
    inserted in input order, each one behind those it does not precede. *)
Fixpoint insert_sorted {A : Type} (cmp : A -> A -> Z) (x : A) (l : list A) : list A :=
  match l with
  | [] => [x]
  | y :: l' => if (cmp x y <? 0)%Z then x :: y :: l' else y :: insert_sorted cmp x l'
  end.

Definition sort {A : Type} (cmp : A -> A -> Z) (l : list A) : list A :=
  fold_left (fun acc x => insert_sorted cmp x acc) l [].

(** [l.slice(start)]: a negative [start] counts from the end. *)
Definition slice {A : Type} (start : Z) (l : list A) : list A :=
  let len := Z.of_nat (length l) in
  let k := if (start <? 0)%Z then Z.max (len + start) 0 else Z.min start len in
  skipn (Z.to_nat k) l.

(** ** History.tsx *)

Module History.

Import JsDate.

(** [type Period = 7 | 30 | 90] *)
Inductive Period : Type := P7 | P30 | P90.

Definition period_value (p : Period) : Z :=
  match p with P7 => 7 | P30 => 30 | P90 => 90 end%Z.

(** [isoDateUTC(d)]: the year as [`${y}`], month and day padded to two. *)
Definition isoDateUTC (d : Date) : string :=
  let y := getUTCFullYear d in
  let m := padStart 2 "0" (ToString (num_add (getUTCMonth d) (Some 1%Z))) in
  let day := padStart 2 "0" (ToString (getUTCDate d)) in
  ToString y ++ "-" ++ m ++ "-" ++ day.

(** [daysAgoUTC(days)], its [new Date()] reading the clock at [now]. *)
Definition daysAgoUTC (now : Z) (days : Z) : Date :=
  let d := new_Date now in
  setUTCDate d (num_sub (getUTCDate d) (Some days)).

Record Window : Type := { startISO : string; endISO : string }.

(** The memo that computes [{ startISO, endISO }].  It reads the clock twice:
    [now_end] is the reading of [const end = new Date()], [now_start] the
    later reading inside [daysAgoUTC]. *)
Definition window (now_end now_start : Z) (period : Period) : Window :=
  let end_ := new_Date now_end in
  let start := daysAgoUTC now_start (period_value period + 2) in
  {| startISO := isoDateUTC start; endISO := isoDateUTC end_ |}.

(** [shortDateLabel(iso)]: the body is host calls only (split, Number,
    Date.UTC, Intl.DateTimeFormat); it throws when the text is no date. *)
Definition shortDateLabel `{Host} (iso : string) : Exc string :=
  Intl_format_month_day iso.

Record Point : Type := { date : string; label : string; rate : JsValue }.

(** [obj?.[target]] *)
Definition get_prop_optional (obj : Json) (k : string) : Exc JsValue :=
  match obj with
  | JNull => Returns undefined
  | _ => get_prop obj k
  end.

(** [([date, obj]) => ({ date, label: shortDateLabel(date), rate: obj?.[target] })] *)
Definition make_point `{Host} (target : string) (entry : string * Json) : Exc Point :=
  let '(d, obj) := entry in
  l <- shortDateLabel d ;;
  r <- get_prop_optional obj target ;;
  Returns {| date := d; label := l; rate := r |}.

Definition is_number_point (p : Point) : bool :=
  JsType_eqb (typeof (rate p)) TNumber.

(** The [chartData] memo; [rates] is [Object.entries(rates)]. *)
Definition chartData `{Host} (rates : list (string * Json)) (target : string)
  (period : Period) : Exc (list Point) :=
  mapped <- mapE (make_point target) rates ;;
  let points :=
    sort (fun a b => localeCompare (date a) (date b))
         (filter is_number_point mapped) in
  Returns (slice (- period_value period) points).





End History.

(** ** A reference host

    An executable instance of [Host], for running the code on concrete
    inputs.  Its strings hold code units below 256.  It agrees with ECMAScript
    on what this development runs it on: ASCII text, JSON texts whose objects
    have no array-index keys, whose escapes stay below 256 and whose numbers
    are integers below 2^53 or too large for binary64 (read as Infinity),
    date keys of the form [YYYY-MM-DD] read in the UTC time zone, and
    [localeCompare] on such keys.  Outside that it is an
    approximation: other letters are not mapped by [toUpperCase], other
    numerals are rounded step by step, numbers are printed as exact decimals
    (the code never prints one), and [Number] reads digit strings only. *)

Module RefHost.

Import JsDate.
Local Open Scope string_scope.

Definition dquote : ascii := "034"%char.
Definition backslash : ascii := "092"%char.

Definition upper_char (c : ascii) : ascii :=
  let n := nat_of_ascii c in
  if (97 <=? n)%nat && (n <=? 122)%nat then ascii_of_nat (n - 32) else c.

Fixpoint upper (s : string) : string :=
  match s with
  | EmptyString => EmptyString
  | String c s' => String (upper_char c) (upper s')
  end.

(** *** Printing *)

Definition hex_char (n : nat) : ascii :=
  if (n <? 10)%nat then ascii_of_nat (48 + n) else ascii_of_nat (87 + n).

Definition escape_char (c : ascii) : string :=
  let n := nat_of_ascii c in
  if (c =? dquote)%char then String backslash (String dquote EmptyString)
  else if (c =? backslash)%char then String backslash (String backslash EmptyString)
  else if (n =? 8)%nat then String backslash "b"
  else if (n =? 12)%nat then String backslash "f"
  else if (n =? 10)%nat then String backslash "n"
  else if (n =? 13)%nat then String backslash "r"
  else if (n =? 9)%nat then String backslash "t"
  else if (n <? 32)%nat then
    String backslash ("u00" ++ String (hex_char (n / 16)) (String (hex_char (n mod 16)) EmptyString))
  else String c EmptyString.

Fixpoint escape (s : string) : string :=
  match s with
  | EmptyString => EmptyString
  | String c s' => escape_char c ++ escape s'
  end.

Definition quote (s : string) : string :=
  String dquote (escape s ++ String dquote EmptyString).

Fixpoint frac_digits (fuel : nat) (r den : Z) : string :=
  match fuel with
  | O => EmptyString
  | S fuel' =>
      if (r =? 0)%Z then EmptyString
      else String (ascii_of_nat (48 + Z.to_nat (10 * r / den)))
                  (frac_digits fuel' ((10 * r) mod den) den)
  end.

Definition print_number (f : float) : string :=
  match Prim2SF f with
  | S754_nan | S754_infinity _ => "null"
  | S754_zero _ => "0"
  | S754_finite s m e =>
      let sign := if s then "-" else "" in
      if (0 <=? e)%Z then sign ++ digits (Zpos m * 2 ^ e)
      else
        let den := (2 ^ (- e))%Z in
        let r := (Zpos m mod den)%Z in
        sign ++ digits (Zpos m / den)
             ++ (if (r =? 0)%Z then "" else "." ++ frac_digits (Z.to_nat (- e)) r den)
  end.

Fixpoint print (j : Json) : string :=
  match j with
  | JNull => "null"
  | JBool true => "true"
  | JBool false => "false"
  | JNum n => print_number n
  | JStr s => quote s
  | JArr l => "[" ++ String.concat "," (map print l) ++ "]"
  | JObj ps =>
      "{" ++ String.concat "," (map (fun kv => quote (fst kv) ++ ":" ++ print (snd kv)) ps)
          ++ "}"
  end.

(** *** Parsing *)

Definition is_ws (c : ascii) : bool :=
  let n := nat_of_ascii c in
  (n =? 32)%nat || (n =? 9)%nat || (n =? 10)%nat || (n =? 13)%nat.

Fixpoint skip_ws (s : string) : string :=
  match s with
  | String c s' => if is_ws c then skip_ws s' else s
  | EmptyString => s
  end.

Definition hex_value (c : ascii) : option nat :=
  let n := nat_of_ascii c in
  if is_digit c then Some (n - 48)
  else if (97 <=? n)%nat && (n <=? 102)%nat then Some (n - 87)
  else if (65 <=? n)%nat && (n <=? 70)%nat then Some (n - 55)
  else None.

Definition simple_escape (e : ascii) : option ascii :=
  if (e =? dquote)%char then Some dquote
  else if (e =? backslash)%char then Some backslash
  else if (e =? "/")%char then Some "/"%char
  else if (e =? "b")%char then Some (ascii_of_nat 8)
  else if (e =? "f")%char then Some (ascii_of_nat 12)
  else if (e =? "n")%char then Some (ascii_of_nat 10)
  else if (e =? "r")%char then Some (ascii_of_nat 13)
  else if (e =? "t")%char then Some (ascii_of_nat 9)
  else None.

(** The characters after an opening quote, up to the closing one. *)
Fixpoint parse_chars (s : string) (acc : list ascii) : option (string * string) :=
  match s with
  | EmptyString => None
  | String c rest =>
      if (c =? dquote)%char then Some (string_of_list_ascii (rev acc), rest)
      else if (c =? backslash)%char then
        match rest with
        | String "u" (String a (String b (String x (String y rest')))) =>
            match hex_value a, hex_value b, hex_value x, hex_value y with
            | Some 0%nat, Some 0%nat, Some h, Some l =>
                parse_chars rest' (ascii_of_nat (16 * h + l) :: acc)
            | _, _, _, _ => None
            end
        | String e rest' =>
            match simple_escape e with
            | Some c' => parse_chars rest' (c' :: acc)
            | None => None
            end
        | EmptyString => None
        end
      else if (nat_of_ascii c <? 32)%nat then None
      else parse_chars rest (c :: acc)
  end.

Fixpoint take_digits (s : string) (acc : list ascii) : list ascii * string :=
  match s with
  | String c rest => if is_digit c then take_digits rest (c :: acc) else (rev acc, s)
  | EmptyString => (rev acc, s)
  end.

Definition float_of_digits (ds : list ascii) : float :=
  fold_left (fun acc c =>
               PrimFloat.add (PrimFloat.mul acc (number_of_nat 10))
                             (number_of_nat (nat_of_ascii c - 48)))
            ds PrimFloat.zero.

Definition nat_of_digit_list (ds : list ascii) : nat :=
  fold_left (fun acc c => (10 * acc + (nat_of_ascii c - 48))%nat) ds 0%nat.

Fixpoint scale10 (n : nat) (up : bool) (f : float) : float :=
  match n with
  | O => f
  | S n' =>
      scale10 n' up (if up then PrimFloat.mul f (number_of_nat 10)
                     else PrimFloat.div f (number_of_nat 10))
  end.

(** [-? int frac? exp?] *)
Definition parse_number (s : string) : option (float * string) :=
  let '(neg, s1) :=
    match s with String "-" r => (true, r) | _ => (false, s) end in
  let '(ip, s2) := take_digits s1 [] in
  match ip with
  | [] => None
  | c :: more =>
      if (c =? "0")%char && negb (match more with [] => true | _ => false end)
      then None
      else
        let frac :=
          match s2 with
          | String "." r =>
              let '(fp, s3) := take_digits r [] in
              match fp with [] => None | _ => Some (fp, s3) end
          | _ => Some ([], s2)
          end in
        match frac with
        | None => None
        | Some (fp, s3) =>
            let expo :=
              match s3 with
              | String e r =>
                  if (e =? "e")%char || (e =? "E")%char then
                    let '(eneg, r1) :=
                      match r with
                      | String "-" r' => (true, r')
                      | String "+" r' => (false, r')
                      | _ => (false, r)
                      end in
                    let '(ep, s4) := take_digits r1 [] in
                    match ep with
                    | [] => None
                    | _ => Some (eneg, nat_of_digit_list ep, s4)
                    end
                  else Some (false, 0%nat, s3)
              | EmptyString => Some (false, 0%nat, s3)
              end in
            match expo with
            | None => None
            | Some (eneg, e, s4) =>
                let mant := float_of_digits (ip ++ fp)%list in
                let e10 := ((if eneg then - Z.of_nat e else Z.of_nat e)
                            - Z.of_nat (length fp))%Z in
                let v := scale10 (Z.to_nat (Z.abs e10)) (0 <=? e10)%Z mant in
                Some (if neg then PrimFloat.opp v else v, s4)
            end
        end
  end.

Fixpoint parse_value (fuel : nat) (s : string) : option (Json * string) :=
  match fuel with
  | O => None
  | S fuel' =>
      match skip_ws s with
      | EmptyString => None
      | String c rest =>
          if (c =? "[")%char then
            match skip_ws rest with
            | String "]" rest' => Some (JArr [], rest')
            | _ => parse_elements fuel' rest []
            end
          else if (c =? "{")%char then
            match skip_ws rest with
            | String "}" rest' => Some (JObj [], rest')
            | _ => parse_members fuel' rest []
            end
          else if (c =? dquote)%char then
            match parse_chars rest [] with
            | Some (str, rest') => Some (JStr str, rest')
            | None => None
            end
          else if String.prefix "true" (String c rest) then
            Some (JBool true, String.substring 4 (String.length rest) (String c rest))
          else if String.prefix "false" (String c rest) then
            Some (JBool false, String.substring 5 (String.length rest) (String c rest))
          else if String.prefix "null" (String c rest) then
            Some (JNull, String.substring 4 (String.length rest) (String c rest))
          else
            match parse_number (String c rest) with
            | Some (n, rest') => Some (JNum n, rest')
            | None => None
            end
      end
  end

with parse_elements (fuel : nat) (s : string) (acc : list Json)
  : option (Json * string) :=
  match fuel with
  | O => None
  | S fuel' =>
      match parse_value fuel' s with
      | Some (v, rest) =>
          match skip_ws rest with
          | String "," rest' => parse_elements fuel' rest' (v :: acc)
          | String "]" rest' => Some (JArr (rev (v :: acc)), rest')
          | _ => None
          end
      | None => None
      end
  end

with parse_members (fuel : nat) (s : string) (acc : list (string * Json))
  : option (Json * string) :=
  match fuel with
  | O => None
  | S fuel' =>
      match skip_ws s with
      | String q rest =>
          if (q =? dquote)%char then
            match parse_chars rest [] with
            | Some (k, rest1) =>
                match skip_ws rest1 with
                | String ":" rest2 =>
                    match parse_value fuel' rest2 with
                    | Some (v, rest3) =>
                        match skip_ws rest3 with
                        | String "," rest4 => parse_members fuel' rest4 (store k v acc)
                        | String "}" rest4 => Some (JObj (store k v acc), rest4)
                        | _ => None
                        end
                    | None => None
                    end
                | _ => None
                end
            | None => None
            end
          else None
      | EmptyString => None
      end
  end.

Definition parse (text : string) : Exc Json :=
  match parse_value (2 * String.length text + 2) text with
  | Some (v, rest) =>
      match skip_ws rest with
      | EmptyString => Returns v
      | _ => Throws
      end
  | None => Throws
  end.

(** *** Comparison and date labels *)

Definition compare_strings (a b : string) : Z :=
  match String.compare a b with
  | Lt => (-1)%Z
  | Eq => 0%Z
  | Gt => 1%Z
  end.

Fixpoint split_on (sep : ascii) (s : string) (cur : list ascii) : list string :=
  match s with
  | EmptyString => [string_of_list_ascii (rev cur)]
  | String c rest =>
      if (c =? sep)%char then string_of_list_ascii (rev cur) :: split_on sep rest []
      else split_on sep rest (c :: cur)
  end.

(** [Number(s)] on digit strings; the empty string is 0, anything else NaN. *)
Definition Number (s : string) : option Z :=
  option_map Z.of_nat (digits_value s 0).

Definition month_name (m : Z) : string :=
  match m with
  | 0 => "Jan" | 1 => "Feb" | 2 => "Mar" | 3 => "Apr" | 4 => "May" | 5 => "Jun"
  | 6 => "Jul" | 7 => "Aug" | 8 => "Sep" | 9 => "Oct" | 10 => "Nov" | _ => "Dec"
  end%Z.

Definition Date_UTC (y m d : option Z) : Date :=
  match y, m, d with
  | Some y, Some m, Some d =>
      let yr := if (0 <=? y)%Z && (y <=? 99)%Z then (1900 + y)%Z else y in
      TimeClip (MakeDate (MakeDay yr m d) 0)
  | _, _, _ => None
  end.

Definition format_month_day (iso : string) : Exc string :=
  let parts := map Number (split_on "-" iso []) in
  let y := nth 0 parts None in
  let m := nth 1 parts None in
  let d := nth 2 parts None in
  match Date_UTC y (num_sub m (Some 1%Z)) d with
  | Some t =>
      Returns (month_name (MonthFromTime t) ++ " "
               ++ padStart 2 "0" (ToString (Some (DateFromTime t))))
  | None => Throws
  end.

#[export] Instance host : Host := {
  toUpperCase := upper;
  JSON_parse := parse;
  JSON_stringify := print;
  localeCompare := compare_strings;
  Intl_format_month_day := format_month_day
}.

End RefHost.

(** ** The specification's vocabulary

    Definitions that follow the wording of the specification; the theorems
    of Part II compare them with the code above. *)

Module Spec.

Import Storage.

(** An entry is a structurally valid pair: an object with a [base] field and
    a [target] field, both strings. *)
Definition entry_fields (x : Json) : option (string * string) :=
  match x with
  | JObj props =>
      match lookup "base" props, lookup "target" props with
      | Some (JStr b), Some (JStr t) => Some (b, t)
      | _, _ => None
      end
  | _ => None
  end.

Definition has_fields (x : Json) : bool :=
  match entry_fields x with Some _ => true | None => false end.

(** Normalising an entry uppercases both codes. *)
Definition normalize_entry `{Host} (x : Json) : list WatchPair :=
  match entry_fields x with
  | Some (b, t) => [ {| base := toUpperCase b; target := toUpperCase t |} ]
  | None => []
  end.

(** Post-normalisation, an entry is kept unless [base] is empty, [target] is
    empty, or [base] equals [target]. *)
Definition well_formed (p : WatchPair) : bool :=
  negb (base p =? "") && negb (target p =? "") && negb (base p =? target p).

Definition normalized `{Host} (entries : list Json) : list WatchPair :=
  filter well_formed (flat_map normalize_entry entries).

(** The keys of a list in first-seen order. *)
Fixpoint first_seen (keys : list string) : list string :=
  match keys with
  | [] => []
  | k :: rest => k :: filter (fun k' => negb (k' =? k)) (first_seen rest)
  end.

(** The last / the first entry of [l] with key [k]. *)
Definition last_with_key (k : string) (l : list WatchPair) : list WatchPair :=
  match find (fun p => pair_key p =? k) (rev l) with
  | Some p => [p]
  | None => []
  end.

Definition first_with_key (k : string) (l : list WatchPair) : list WatchPair :=
  match find (fun p => pair_key p =? k) l with
  | Some p => [p]
  | None => []
  end.

(** Deduplication by key where the last occurrence of a key gives the value
    and the first occurrence gives the position. *)
Definition dedup_last_wins (l : list WatchPair) : list WatchPair :=
  flat_map (fun k => last_with_key k l) (first_seen (map pair_key l)).

(** Deduplication by key that keeps the first occurrence of every key. *)
Definition dedup_first_wins (l : list WatchPair) : list WatchPair :=
  flat_map (fun k => first_with_key k l) (first_seen (map pair_key l)).

(** "Never return an empty list": the default stands in for an empty result. *)
Definition or_default (l : list WatchPair) : list WatchPair :=
  match l with
  | [] => DEFAULT_WATCHLIST
  | _ => l
  end.

(** The loop of [loadWatchlist] without its guard. *)
Definition set_step (m : JsMap WatchPair) (p : WatchPair) : JsMap WatchPair :=
  Map_set (pair_key p) p m.

(** The watchlist invariant of the data model: codes non-empty and
    uppercase, [base] and [target] different, keys pairwise different.
    A code is uppercase when uppercasing leaves it as it is. *)
Definition is_uppercase `{Host} (s : string) : Prop := toUpperCase s = s.

Definition valid_pair `{Host} (p : WatchPair) : Prop :=
  base p <> "" /\ target p <> "" /\
  is_uppercase (base p) /\ is_uppercase (target p) /\
  base p <> target p.

Definition invariant `{Host} (l : list WatchPair) : Prop :=
  Forall valid_pair l /\ NoDup (map pair_key l).

Definition WatchPair_eq_dec (p q : WatchPair) : {p = q} + {p <> q}.
Proof. decide equality; apply string_dec. Defined.

(** The validation errors of [add], and the message that signals each. *)
Inductive ValidationError : Type := EmptyField | SamePair | DuplicatePair.

Definition message (e : ValidationError) : string :=
  match e with
  | EmptyField => "Please select both currencies."
  | SamePair => "Choose two different currencies."
  | DuplicatePair => "That pair is already in your watchlist."
  end.

(** The state [onAdd] leaves when it rejects with error [e]. *)
Definition rejected (e : ValidationError) (s : Watchlist.State) : Watchlist.State :=
  {| Watchlist.pairs := Watchlist.pairs s;
     Watchlist.base := Watchlist.base s;
     Watchlist.target := Watchlist.target s;
     Watchlist.msg := Some (message e) |}.

(** The state [onAdd] leaves when it accepts and the watchlist becomes [l]. *)
Definition accepted (l : list WatchPair) (s : Watchlist.State) : Watchlist.State :=
  {| Watchlist.pairs := l;
     Watchlist.base := Watchlist.base s;
     Watchlist.target := Watchlist.target s;
     Watchlist.msg := None |}.



(** The claim C7 makes about a storage state and a watchlist. *)
Definition round_trip_is_identity (H : Host) (ls : LocalStorage)
  (x : list WatchPair) : Prop :=
  invariant x -> loadWatchlist (saveWatchlist x ls) = x.

(** The claim C10 makes about an input array: loading it gives what
    first-occurrence deduplication gives. *)
Definition dedup_semantics_coincide (H : Host) (entries : list Json) : Prop :=
  load_array entries
  = Returns (or_default (dedup_first_wins (normalized entries))).

(** The text holds the key separator. *)
Fixpoint has_hyphen (s : string) : bool :=
  match s with
  | EmptyString => false
  | String c s' => (c =? "-")%char || has_hyphen s'
  end.

End Spec.

(** *** The series *)

(** [obj?.[target]] never throws ([get_prop_optional_returns]); [read_value]
    is what it returns. *)
Definition read_value (obj : Json) (k : string) : JsValue :=
  try_catch (History.get_prop_optional obj k) undefined.

(** The value stored for [target] in [obj] is the number [n]. *)
Definition number_at (obj : Json) (target : string) (n : float) : Prop :=
  History.get_prop_optional obj target = Returns (Some (JNum n)).

(** Every date key is a date: its label can be formatted. *)
Definition labels_defined `{Host} (rates : list (string * Json)) : Prop :=
  forall d obj, In (d, obj) rates -> History.shortDateLabel d <> Throws.

Definition label_of `{Host} (d : string) : string :=
  try_catch (History.shortDateLabel d) "".

Definition point_of `{Host} (target : string) (entry : string * Json)
  : History.Point :=
  {| History.date := fst entry; History.label := label_of (fst entry);
     History.rate := read_value (snd entry) target |}.

(** The points that survive the filter, in the order of the entries. *)
Definition number_points `{Host} (rates : list (string * Json)) (target : string)
  : list History.Point :=
  filter History.is_number_point (map (point_of target) rates).

(** The comparator [chartData] sorts with. *)
Definition date_cmp `{Host} (a b : History.Point) : Z :=
  localeCompare (History.date a) (History.date b).

(** Under a comparator, [a] is not after [b]. *)
Definition not_after {A : Type} (cmp : A -> A -> Z) (a b : A) : Prop :=
  (cmp a b <= 0)%Z.






(** The claim C5 makes about a mapping: the dates of the result are exactly
    the dates whose value for the target is a finite number. *)
Definition keeps_exactly_finite_dates (H : Host) (rates : list (string * Json))
  (target : string) (period : History.Period) : Prop :=
  exists pts,
    History.chartData rates target period = Returns pts /\
    forall d, In d (map History.date pts) <->
              exists obj n, In (d, obj) rates /\ number_at obj target n /\
                            PrimFloat.is_finite n = true.

(** *** The order of binary64 numbers

    Away from NaN, [SFcompare] is the lexicographic order of [rank]:
    the sign class, then the exponent, then the mantissa. *)



Definition lex_lt (p q : Z * Z * Z) : Prop :=
  let '(a, b, c) := p in
  let '(a', b', c') := q in
  (a < a' \/ (a = a' /\ (b < b' \/ (b = b' /\ c < c'))))%Z.

(** *** The window *)

Definition digit (n : Z) : ascii := ascii_of_nat (48 + Z.to_nat n).

(** [YYYY], [MM] and [DD]: the decimal digits, zero padded. *)
Definition four_digits (y : Z) : string :=
  String (digit (y / 1000 mod 10)) (String (digit (y / 100 mod 10))
    (String (digit (y / 10 mod 10)) (String (digit (y mod 10)) EmptyString))).

Definition two_digits (n : Z) : string :=
  String (digit (n / 10 mod 10)) (String (digit (n mod 10)) EmptyString).

Definition iso_format (ymd : Z * Z * Z) : string :=
  let '(y, m, d) := ymd in
  four_digits y ++ "-" ++ two_digits m ++ "-" ++ two_digits d.

(** The calendar date of a day number: year, month (1 to 12), day of month. *)
Definition calendar_date (day : Z) : Z * Z * Z :=
  let t := (day * JsDate.msPerDay)%Z in
  (JsDate.YearFromTime t, (JsDate.MonthFromTime t + 1)%Z, JsDate.DateFromTime t).

(** The claim C9 makes about one evaluation of the window, both clock
    readings falling on the same UTC date: [endISO] is that date, [startISO]
    the date [period + 2] days earlier, both as [YYYY-MM-DD], and [startISO]
    is the smaller text. *)
Definition window_as_specified (now_end now_start : Z) (period : History.Period)
  : Prop :=
  let w := History.window now_end now_start period in
  let today := JsDate.Day now_end in
  History.endISO w = iso_format (calendar_date today) /\
  History.startISO w
  = iso_format (calendar_date (today - (History.period_value period + 2))%Z) /\
  String.ltb (History.startISO w) (History.endISO w) = true.

Fixpoint Z_range (lo : Z) (n : nat) : list Z :=
  match n with
  | O => []
  | S n' => lo :: Z_range (lo + 1)%Z n'
  end.

(** ** Laws of the host the proofs rely on *)

(** Uppercasing twice is uppercasing once, and the two default codes are
    uppercase already. *)
Definition UpperCaseLaws (H : Host) : Prop :=
  (forall s, toUpperCase (toUpperCase s) = toUpperCase s) /\
  toUpperCase "USD" = "USD" /\ toUpperCase "MXN" = "MXN".

(** [localeCompare] is a consistent comparator: a total preorder, of which
    [localeCompare a b <= 0] reads "a is not after b". *)
Definition ConsistentComparator (H : Host) : Prop :=
  (forall a b, (0 <= localeCompare a b -> localeCompare b a <= 0)%Z) /\
  (forall a b c, (localeCompare a b <= 0 -> localeCompare b c <= 0 ->
                  localeCompare a c <= 0)%Z).

(** ** Concrete inputs *)

Definition obj2 (b t : Json) : Json := JObj [("base", b); ("target", t)].

(** A parsed storage array with entries of every kind. *)
Definition example_entries : list Json :=
  [ obj2 (JStr "eur") (JStr "usd");
    JNull;
    obj2 (JNum 123) (JStr "GBP");
    obj2 (JStr "usd") (JStr "mxn");
    JStr "USD-MXN";
    obj2 (JStr "Usd") (JStr "USD");
    JObj [("base", JStr "CHF")];
    obj2 (JStr "") (JStr "JPY");
    obj2 (JStr "EUR") (JStr "USD");
    obj2 (JStr "USD") (JStr "MXN") ].

(** Its text, as the reference host prints it. *)
Definition example_text : string := RefHost.print (JArr example_entries).

(** The stored texts of the specification's load examples. *)
Definition malformed_text : string := "{not json".
Definition object_text : string := RefHost.print (obj2 (JStr "USD") (JStr "MXN")).
Definition self_pair_text : string :=
  RefHost.print (JArr [ obj2 (JStr "USD") (JStr "USD") ]).
Definition case_text : string :=
  RefHost.print (JArr [ obj2 (JStr "usd") (JStr "mxn"); obj2 (JStr "USD") (JStr "MXN") ]).
Definition number_base_text : string :=
  RefHost.print (JArr [ obj2 (JStr "EUR") (JStr "USD"); obj2 (JNum 123) (JStr "GBP") ]).

(** Two different pairs with the key [A-B-C]. *)
Definition hyphen_entries : list Json :=
  [ obj2 (JStr "A-B") (JStr "C"); obj2 (JStr "A") (JStr "B-C") ].

Definition storage_with (text : string) : LocalStorage :=
  {| readable := true; writable := true; items := [(Storage.KEY, text)] |}.

Definition empty_storage : LocalStorage :=
  {| readable := true; writable := true; items := [] |}.

(** A storage that cannot be read. *)
Definition unreadable_storage : LocalStorage :=
  {| readable := false; writable := true; items := [(Storage.KEY, example_text)] |}.

(** A storage that refuses every write. *)
Definition full_storage : LocalStorage :=
  {| readable := true; writable := false; items := [] |}.

Definition usd_mxn : Storage.WatchPair :=
  {| Storage.base := "USD"; Storage.target := "MXN" |}.
Definition eur_gbp : Storage.WatchPair :=
  {| Storage.base := "EUR"; Storage.target := "GBP" |}.

Definition state_of (l : list Storage.WatchPair) (b t : string) : Watchlist.State :=
  {| Watchlist.pairs := l; Watchlist.base := b; Watchlist.target := t;
     Watchlist.msg := None |}.

Definition example_state : Watchlist.State := state_of [usd_mxn] "eur" "gbp".

(** The state after a first handler of the render [example_state] has added
    EUR/GBP; the render still shows [example_state]. *)
Definition after_one_add : Watchlist.State := state_of [eur_gbp; usd_mxn] "eur" "gbp".

(** A rate that is a number and not finite. *)
Definition infinite_rates : list (string * Json) :=
  [ ("2024-01-01", JObj [("MXN", JNum PrimFloat.infinity)]) ].

(** Five dates, of which two have a number for MXN. *)
Definition week_rates : list (string * Json) :=
  [ ("2024-01-03", JObj [("MXN", JNum 17)]);
    ("2024-01-01", JObj [("MXN", JNum 18); ("EUR", JNum 1)]);
    ("2024-01-02", JObj [("EUR", JNum 1)]);
    ("2024-01-04", JNull);
    ("2024-01-05", JObj [("MXN", JStr "17.5")]) ].

(** Ten dates with the rates 1 to 10, the last date listed first. *)
Definition ten_days : list (string * Json) :=
  [ ("2024-01-10", JObj [("MXN", JNum 10)]);
    ("2024-01-01", JObj [("MXN", JNum 1)]);
    ("2024-01-02", JObj [("MXN", JNum 2)]);
    ("2024-01-03", JObj [("MXN", JNum 3)]);
    ("2024-01-04", JObj [("MXN", JNum 4)]);
    ("2024-01-05", JObj [("MXN", JNum 5)]);
    ("2024-01-06", JObj [("MXN", JNum 6)]);
    ("2024-01-07", JObj [("MXN", JNum 7)]);
    ("2024-01-08", JObj [("MXN", JNum 8)]);
    ("2024-01-09", JObj [("MXN", JNum 9)]) ].



(** A mapping with a key that is no date. *)
Definition undated_rates : list (string * Json) :=
  [ ("2024-01-01", JObj [("MXN", JNum 17)]); ("latest", JObj [("MXN", JNum 18)]) ].

(** A clock reading on 5 January of the year 10000. *)
Definition year_10000 : Z := 253402646400000.

(** ** The pages around the handlers, and the API client

    What follows embeds the rest of the code: the [enabled] flag of the
    queries, the currency options, [api/frankfurter.ts], the Watchlist
    component around [onAdd] and [onRemove] (initial state, renders, persist
    effect, rate queries), and the state and series query of the History
    page. *)

(** [Boolean(base && target && base !== target)]: the empty string is the one
    falsy string.  The codes are strings of either model below. *)
Definition query_enabled {S : Type} (is_empty : S -> bool) (eqb : S -> S -> bool)
  (base target : S) : bool :=
  if is_empty base then false
  else if is_empty target then false
  else negb (eqb base target).

(** The [currencyOptions] memo of the three pages.  [data] is
    [Object.entries(currenciesQ.data)] when the query has data; the names
    are copied and never inspected. *)
Record CurrencyOption (N : Type) : Type := { code : string; name : N }.

Definition currencyOptions `{Host} {N : Type} (data : option (list (string * N)))
  : list (CurrencyOption N) :=
  let map_ := match data with Some m => m | None => [] end in
  sort (fun a b => localeCompare (code a) (code b))
       (map (fun e => {| code := fst e; name := snd e |}) map_).

(** ** Strings as [encodeURIComponent] sees them

    [encodeURIComponent] depends on code units above 255 and on surrogates,
    so its argument is a string of 16-bit code units, each given by its two
    octets. *)
Record CodeUnit : Type := { high : ascii; low : ascii }.

Definition unit_value (u : CodeUnit) : Z :=
  (256 * Z.of_N (N_of_ascii (high u)) + Z.of_N (N_of_ascii (low u)))%Z.

Definition JsString : Type := list CodeUnit.

(** A string of code units below 256, as a string of 16-bit code units. *)
Definition code_units (s : string) : JsString :=
  map (fun c => {| high := Ascii.zero; low := c |}) (list_ascii_of_string s).

Definition CodeUnit_eqb (u v : CodeUnit) : bool :=
  (high u =? high v)%char && (low u =? low v)%char.

Fixpoint JsString_eqb (s t : JsString) : bool :=
  match s, t with
  | [], [] => true
  | u :: s', v :: t' => CodeUnit_eqb u v && JsString_eqb s' t'
  | _, _ => false
  end.

Definition JsString_empty (s : JsString) : bool :=
  match s with [] => true | _ :: _ => false end.

(** Leading and trailing surrogates. *)
Definition is_lead (c : Z) : bool := ((0xD800 <=? c) && (c <=? 0xDBFF))%Z.
Definition is_trail (c : Z) : bool := ((0xDC00 <=? c) && (c <=? 0xDFFF))%Z.

(** The octets of the UTF-8 form of a code point. *)
Definition utf8 (cp : Z) : list Z :=
  (if cp <? 0x80 then [cp]
   else if cp <? 0x800 then [0xC0 + cp / 64; 0x80 + cp mod 64]
   else if cp <? 0x10000 then
     [0xE0 + cp / 4096; 0x80 + (cp / 64) mod 64; 0x80 + cp mod 64]
   else
     [0xF0 + cp / 262144; 0x80 + (cp / 4096) mod 64; 0x80 + (cp / 64) mod 64;
      0x80 + cp mod 64])%Z.

(** An upper-case hexadecimal digit, and [%XX] for an octet. *)
Definition HEX (n : Z) : ascii :=
  ascii_of_nat (Z.to_nat (if (n <? 10)%Z then 48 + n else 55 + n)%Z).

Definition percent (octet : Z) : string :=
  String "%" (String (HEX (octet / 16)) (String (HEX (octet mod 16)) EmptyString)).

Definition escape_code_point (cp : Z) : string :=
  String.concat "" (map percent (utf8 cp)).

(** The characters [encodeURIComponent] leaves as they are: letters, digits
    and [-_.!~*'()]. *)
Definition uri_unreserved (c : ascii) : bool :=
  let n := nat_of_ascii c in
  ((65 <=? n) && (n <=? 90))%nat || ((97 <=? n) && (n <=? 122))%nat
  || ((48 <=? n) && (n <=? 57))%nat
  || existsb (Ascii.eqb c) (list_ascii_of_string "-_.!~*'()").

Definition unescaped (u : CodeUnit) : bool :=
  (high u =? Ascii.zero)%char && uri_unreserved (low u).

(** [encodeURIComponent(s)], after Encode of ECMA-262: an unreserved
    character stands for itself; any other code point, which is one code
    unit or a leading surrogate with the trailing one after it, is written
    as the octets of its UTF-8 form, each as [%XX]; a surrogate that is not
    part of such a pair makes the call throw a URIError. *)
Fixpoint encodeURIComponent (s : JsString) : Exc string :=
  match s with
  | [] => Returns EmptyString
  | u :: rest =>
      let c := unit_value u in
      if unescaped u then
        r <- encodeURIComponent rest ;; Returns (String (low u) r)
      else if is_trail c then Throws
      else if is_lead c then
        match rest with
        | v :: rest' =>
            let d := unit_value v in
            if is_trail d then
              r <- encodeURIComponent rest' ;;
              Returns (escape_code_point
                         ((c - 0xD800) * 0x400 + (d - 0xDC00) + 0x10000)%Z ++ r)%string
            else Throws
        | [] => Throws
        end
      else r <- encodeURIComponent rest ;; Returns (escape_code_point c ++ r)%string
  end.

(** ** api/frankfurter.ts *)

Module Frankfurter.

Definition BASE_URL : string := "https://api.frankfurter.dev/v1".

(** What [await fetch(url)] gives: [None] when the promise rejects, else the
    response with its [ok] flag and what [r.json()] settles to. *)
Record Response : Type := { ok : bool; json : Exc Json }.
Definition Fetch : Type := string -> option Response.

(** How the returned promise settles.  It rejects when the URL cannot be
    built, when [fetch] rejects, with [new Error(message)], whose message
    the pages display, or when [r.json()] rejects. *)
Inductive Failure : Type :=
| URIError
| FetchRejected
| Error (message : string)
| JsonRejected.

Inductive Settled (A : Type) : Type :=
| Fulfilled (a : A)
| Rejected (f : Failure).
Arguments Fulfilled {A} a.
Arguments Rejected {A} f.

Definition currencies_url : string := BASE_URL ++ "/currencies".

(** The URL of [getLatestRate]; building it throws when an argument cannot
    be encoded. *)
Definition latest_url (base symbol : JsString) : Exc string :=
  b <- encodeURIComponent base ;;
  s <- encodeURIComponent symbol ;;
  Returns (BASE_URL ++ "/latest?base=" ++ b ++ "&symbols=" ++ s)%string.

(** The URL of [getTimeSeries]; [start] and [end] go in as they are: they
    are the two date texts of the window, which [isoDateUTC] wrote. *)
Definition series_url (start end_ : string) (base symbol : JsString) : Exc string :=
  b <- encodeURIComponent base ;;
  s <- encodeURIComponent symbol ;;
  Returns (BASE_URL ++ "/" ++ start ++ ".." ++ end_
                    ++ "?base=" ++ b ++ "&symbols=" ++ s)%string.

(** The statements after the URL is built: [fetch], the [ok] test with the
    message of the function, [r.json()]. *)
Definition request (fetch : Fetch) (url : Exc string) (message : string)
  : Settled Json :=
  match url with
  | Throws => Rejected URIError
  | Returns u =>
      match fetch u with
      | None => Rejected FetchRejected
      | Some r =>
          if negb (ok r) then Rejected (Error message)
          else match json r with
               | Returns v => Fulfilled v
               | Throws => Rejected JsonRejected
               end
      end
  end.

Definition getCurrencies (fetch : Fetch) : Settled Json :=
  request fetch (Returns currencies_url) "Failed to load currencies".

Definition getLatestRate (fetch : Fetch) (base symbol : JsString) : Settled Json :=
  request fetch (latest_url base symbol) "Failed to load latest rate".

Definition getTimeSeries (fetch : Fetch) (start end_ : string)
  (base symbol : JsString) : Settled Json :=
  request fetch (series_url start end_ base symbol) "Failed to load time series".

End Frankfurter.

(** ** Watchlist.tsx: the component *)

Module WatchlistPage.

Import Storage Watchlist.

(** The [onChange] handlers of the two selects. *)
Definition setBase (c : string) (s : State) : State :=
  {| pairs := pairs s; base := c; target := target s; msg := msg s |}.

Definition setTarget (c : string) (s : State) : State :=
  {| pairs := pairs s; base := base s; target := c; msg := msg s |}.

(** [onRefreshAll]: the invalidation it awaits touches the query cache only. *)
Definition onRefreshAll (s : State) : State := setMsg None s.

(** One entry of [useQueries]: its key and its [enabled] flag (the other
    options are constants, [queryFn] calls [getLatestRate] with the two
    codes of the key). *)
Record RateQuery : Type := {
  queryKey : list string;
  enabled : bool
}.

Definition rateQueries (ps : list WatchPair) : list RateQuery :=
  map (fun p =>
         {| queryKey := ["latest"; Storage.base p; Storage.target p];
            enabled := query_enabled (fun s => s =? "") String.eqb
                                     (Storage.base p) (Storage.target p) |})
      ps.

(** What the user can do on the page. *)
Inductive Event : Type :=
| SelectBase (code : string)
| SelectTarget (code : string)
| ClickAdd
| ClickRemove (p : WatchPair)
| ClickRefresh.

(** The handler of an event, created by [render], run on the state [s]. *)
Definition handle `{Host} (e : Event) (render s : State) : State :=
  match e with
  | SelectBase c => setBase c s
  | SelectTarget c => setTarget c s
  | ClickAdd => onAdd render s
  | ClickRemove p => onRemove p s
  | ClickRefresh => onRefreshAll s
  end.

(** Whether the handler calls [setPairs].  [onRemove] always does; [onAdd]
    does when it passes its three tests, which read its render only, and
    then it ends without a message.  An updater builds a new array each
    time, so this is when the [pairs] the effect depends on changes. *)
Definition sets_pairs `{Host} (e : Event) (render : State) : bool :=
  match e with
  | ClickAdd =>
      match msg (onAdd render render) with None => true | Some _ => false end
  | ClickRemove _ => true
  | _ => false
  end.

(** The page between two steps: the state of the last render, which is what
    is on screen and what the handlers read; the state with the updates
    queued since; [localStorage]; and whether [pairs] was set since the last
    render. *)
Record Page : Type := {
  rendered : State;
  state : State;
  storage : LocalStorage;
  pairs_set : bool
}.

(** The persist effect: [useEffect(() => saveWatchlist(pairs), [pairs])]. *)
Definition persist `{Host} (s : State) (ls : LocalStorage) : LocalStorage :=
  saveWatchlist (pairs s) ls.

(** The first render: [pairs] starts as [loadWatchlist()], the selects at USD
    and MXN, no message; then the effect runs. *)
Definition mount `{Host} (ls : LocalStorage) : Page :=
  let s := {| pairs := loadWatchlist ls; base := "USD"; target := "MXN";
              msg := None |} in
  {| rendered := s; state := s; storage := persist s ls; pairs_set := false |}.

(** A step of the page: a handler of the current render runs, or the page
    renders again, with the effect when [pairs] changed. *)
Inductive Step : Type :=
| Dispatch (e : Event)
| Render.

Definition step `{Host} (pg : Page) (st : Step) : Page :=
  match st with
  | Dispatch e =>
      {| rendered := rendered pg;
         state := handle e (rendered pg) (state pg);
         storage := storage pg;
         pairs_set := pairs_set pg || sets_pairs e (rendered pg) |}
  | Render =>
      {| rendered := state pg;
         state := state pg;
         storage := if pairs_set pg then persist (state pg) (storage pg)
                    else storage pg;
         pairs_set := false |}
  end.

Definition run `{Host} (steps : list Step) (pg : Page) : Page :=
  fold_left step steps pg.

(** Events handled one per render, as clicks and selections are: React
    renders before it handles the next one. *)
Definition one_per_render (es : list Event) : list Step :=
  flat_map (fun e => [Dispatch e; Render]) es.

End WatchlistPage.

(** ** History.tsx: state and series query *)

Module HistoryPage.

Import History.

(** The two codes are the values of the selects; they reach
    [encodeURIComponent]. *)
Record State : Type := { base : JsString; target : JsString; period : Period }.

Definition initial : State :=
  {| base := code_units "USD"; target := code_units "MXN"; period := P30 |}.

Record SeriesQuery : Type := {
  queryKey : list JsString;
  request : Exc string;
  enabled : bool
}.

(** [seriesQ], with the window of the two clock readings; [request] is the
    URL its [queryFn] has [getTimeSeries] build. *)
Definition seriesQ (now_end now_start : Z) (s : State) : SeriesQuery :=
  let w := window now_end now_start (period s) in
  {| queryKey := [code_units "series"; base s; target s;
                  code_units (startISO w); code_units (endISO w)];
     request := Frankfurter.series_url (startISO w) (endISO w) (base s) (target s);
     enabled := query_enabled JsString_empty JsString_eqb (base s) (target s) |}.

End HistoryPage.

(** ** More vocabulary *)

(** How often a character occurs in a text, and whether every character of
    a text passes a test. *)
Fixpoint occurrences (c : ascii) (s : string) : nat :=
  match s with
  | EmptyString => 0
  | String d s' => (if (d =? c)%char then 1 else 0) + occurrences c s'
  end.

Fixpoint all_chars (f : ascii -> bool) (s : string) : bool :=
  match s with
  | EmptyString => true
  | String c s' => f c && all_chars f s'
  end.

(** [s.isWellFormed()]: no surrogate stands alone.  Read left to right, a
    leading surrogate has a trailing one after it, and a trailing one comes
    after a leading one only. *)
Fixpoint isWellFormed (s : JsString) : bool :=
  match s with
  | [] => true
  | u :: rest =>
      if is_trail (unit_value u) then false
      else if is_lead (unit_value u) then
        match rest with
        | v :: rest' => is_trail (unit_value v) && isWellFormed rest'
        | [] => false
        end
      else isWellFormed rest
  end.

(** Reading back what [encodeURIComponent] wrote.  The octets of a text: a
    [%XX] stands for the octet it names, any other character for its own
    code. *)
Fixpoint octets_of (s : string) : list Z :=
  match s with
  | EmptyString => []
  | String c rest =>
      let plain := Z.of_nat (nat_of_ascii c) :: octets_of rest in
      if (c =? "%")%char then
        match rest with
        | String a (String b rest1) =>
            match RefHost.hex_value a, RefHost.hex_value b with
            | Some h, Some l => Z.of_nat (16 * h + l) :: octets_of rest1
            | _, _ => plain
            end
        | _ => plain
        end
      else plain
  end.

(** The code unit of a number below 65536, and the code units of a code
    point: itself, or its pair of surrogates. *)
Definition unit_of (z : Z) : CodeUnit :=
  {| high := ascii_of_N (Z.to_N (z / 256)); low := ascii_of_N (Z.to_N (z mod 256)) |}.

Definition units_of_code_point (cp : Z) : JsString :=
  if (cp <? 0x10000)%Z then [unit_of cp]
  else [unit_of (0xD800 + (cp - 0x10000) / 0x400)%Z;
        unit_of (0xDC00 + (cp - 0x10000) mod 0x400)%Z].

(** The code units that UTF-8 octets spell; the first octet of a code point
    tells how many follow. *)
Fixpoint utf8_units (os : list Z) : JsString :=
  match os with
  | [] => []
  | o1 :: rest =>
      if (o1 <? 0x80)%Z then unit_of o1 :: utf8_units rest
      else if (o1 <? 0xE0)%Z then
        match rest with
        | o2 :: r =>
            units_of_code_point ((o1 - 0xC0) * 64 + (o2 - 0x80))%Z ++ utf8_units r
        | _ => []
        end
      else if (o1 <? 0xF0)%Z then
        match rest with
        | o2 :: o3 :: r =>
            units_of_code_point
              ((o1 - 0xE0) * 4096 + (o2 - 0x80) * 64 + (o3 - 0x80))%Z
              ++ utf8_units r
        | _ => []
        end
      else
        match rest with
        | o2 :: o3 :: o4 :: r =>
            units_of_code_point
              ((o1 - 0xF0) * 262144 + (o2 - 0x80) * 4096 + (o3 - 0x80) * 64
               + (o4 - 0x80))%Z
              ++ utf8_units r
        | _ => []
        end
  end.

Definition percent_decode (s : string) : JsString := utf8_units (octets_of s).

(** The characters of a date text written by [isoDateUTC]: digits, the
    hyphen, and the letters of [NaN]. *)
Definition iso_char (c : ascii) : bool :=
  is_digit c || (c =? "-")%char || (c =? "N")%char || (c =? "a")%char.

(** The stored watchlist survives the trip through the host's JSON: for
    every array of pairs, [JSON.stringify] writes a non-empty text that
    [JSON.parse] reads back as that array. *)
Definition JsonRoundTrip (H : Host) : Prop :=
  forall x : list Storage.WatchPair,
    JSON_stringify (Storage.json_of_pairs x) <> "" /\
    JSON_parse (JSON_stringify (Storage.json_of_pairs x))
    = Returns (Storage.json_of_pairs x).

(** Pairs with non-empty, different codes and pairwise different keys: the
    part of the invariant that does not depend on [toUpperCase]. *)
Definition distinct_pairs (l : list Storage.WatchPair) : Prop :=
  Forall (fun p => Spec.well_formed p = true) l /\ NoDup (map Storage.pair_key l).

(** Every Add of the steps is handled by a render that shows the watchlist
    it adds to: no handler of that render has set [pairs] before it. *)
Definition add_sees_latest (pg : WatchlistPage.Page) (st : WatchlistPage.Step)
  : Prop :=
  match st with
  | WatchlistPage.Dispatch WatchlistPage.ClickAdd =>
      Watchlist.pairs (WatchlistPage.rendered pg)
      = Watchlist.pairs (WatchlistPage.state pg)
  | _ => True
  end.

Fixpoint adds_see_latest `{Host} (steps : list WatchlistPage.Step)
  (pg : WatchlistPage.Page) : Prop :=
  match steps with
  | [] => True
  | st :: rest =>
      add_sees_latest pg st /\ adds_see_latest rest (WatchlistPage.step pg st)
  end.

(** What the steps of a visit keep of the page: the watchlist on screen and
    the one with the queued updates satisfy the invariant, the stored text is
    that of the watchlist on screen, and the two watchlists are the same
    while no handler has set [pairs] since the render. *)
Definition page_invariant `{Host} (pg : WatchlistPage.Page) : Prop :=
  Spec.invariant (Watchlist.pairs (WatchlistPage.rendered pg)) /\
  Spec.invariant (Watchlist.pairs (WatchlistPage.state pg)) /\
  lookup Storage.KEY (items (WatchlistPage.storage pg))
  = Some (JSON_stringify
            (Storage.json_of_pairs (Watchlist.pairs (WatchlistPage.rendered pg)))) /\
  (WatchlistPage.pairs_set pg = false ->
   Watchlist.pairs (WatchlistPage.state pg)
   = Watchlist.pairs (WatchlistPage.rendered pg)).

(** No two different elements tie under the comparator. *)
Definition no_ties {A : Type} (cmp : A -> A -> Z) (l : list A) : Prop :=
  forall a b, In a l -> In b l -> (cmp a b <= 0)%Z -> (cmp b a <= 0)%Z -> a = b.

(** ** More concrete inputs *)

Definition example_events : list WatchlistPage.Event :=
  [ WatchlistPage.SelectBase "eur"; WatchlistPage.SelectTarget "gbp";
    WatchlistPage.ClickAdd; WatchlistPage.ClickAdd;
    WatchlistPage.ClickRemove usd_mxn; WatchlistPage.ClickRefresh ].

(** Two presses of Add handled by one render, after the selection. *)
Definition double_add : list WatchlistPage.Step :=
  [ WatchlistPage.Dispatch (WatchlistPage.SelectBase "eur");
    WatchlistPage.Dispatch (WatchlistPage.SelectTarget "gbp");
    WatchlistPage.Render;
    WatchlistPage.Dispatch WatchlistPage.ClickAdd;
    WatchlistPage.Dispatch WatchlistPage.ClickAdd;
    WatchlistPage.Render ].

Definition example_currencies : list (string * string) :=
  [ ("USD", "United States Dollar"); ("EUR", "Euro"); ("MXN", "Mexican Peso") ].

(** A clock reading on 1 November 2024. *)
Definition nov_2024 : Z := 1730462400000.

(** The letter e with an acute accent (U+00E9), the euro sign (U+20AC), a
    pair of surrogates (U+1F600), and a leading surrogate on its own. *)
Definition e_acute : JsString := [ {| high := Ascii.zero; low := "233" |} ].
Definition euro_sign : JsString := [ {| high := " "; low := "172" |} ].
Definition grinning_face : JsString :=
  [ {| high := "216"; low := "061" |}; {| high := "222"; low := "000" |} ].
Definition lone_surrogate : JsString := [ {| high := "216"; low := "000" |} ].

(* ================================================================== *)
(** * Part II.  Properties *)
(* ================================================================== *)

Section ExcFacts.

Context {A B : Type}.

Lemma filterE_total (f : A -> Exc bool) (g : A -> bool) (l : list A) :
  (forall x, In x l -> f x = Returns (g x)) ->
  filterE f l = Returns (filter g l).
Proof.
  induction l as [|x l IH]; intros Hf; simpl.
  - reflexivity.
  - rewrite (Hf x (or_introl eq_refl)). simpl.
    rewrite IH by (intros y Hy; apply Hf; right; exact Hy).
    simpl. destruct (g x); reflexivity.
Qed.

Lemma mapE_total (f : A -> Exc B) (g : A -> B) (l : list A) :
  (forall x, In x l -> f x = Returns (g x)) ->
  mapE f l = Returns (map g l).
Proof.
  induction l as [|x l IH]; intros Hf; simpl.
  - reflexivity.
  - rewrite (Hf x (or_introl eq_refl)). simpl.
    rewrite IH by (intros y Hy; apply Hf; right; exact Hy).
    reflexivity.
Qed.

Lemma mapE_throws (f : A -> Exc B) (l : list A) :
  mapE f l = Throws <-> exists x, In x l /\ f x = Throws.
Proof.
  induction l as [|x l IH]; simpl.
  - split; [discriminate | intros (x & [] & _)].
  - destruct (f x) as [y|] eqn:Hx; simpl.
    + destruct (mapE f l) as [ys|] eqn:Hl; simpl.
      * split; [discriminate|].
        intros (z & [Hz|Hz] & Hfz); [subst; congruence|].
        destruct IH as [_ IH]. discriminate IH. exists z; auto.
      * split; [|reflexivity]. intros _.
        destruct IH as [IH _]. destruct (IH eq_refl) as (z & Hz & Hfz).
        exists z; auto.
    + split; [|reflexivity]. intros _. exists x; auto.
Qed.

End ExcFacts.

(** ** Association lists: [lookup] and [store] *)

Section StoreFacts.

Context {V : Type}.

Lemma lookup_store_same (k : string) (v : V) (m : list (string * V)) :
  lookup k (store k v m) = Some v.
Proof.
  induction m as [|[k' v'] m IH]; simpl.
  - rewrite String.eqb_refl. reflexivity.
  - destruct (k' =? k) eqn:E; simpl; rewrite E; [reflexivity | exact IH].
Qed.

Lemma store_keys_in (k : string) (v : V) (m : list (string * V)) :
  In k (map fst m) -> map fst (store k v m) = map fst m.
Proof.
  induction m as [|[k' v'] m IH]; simpl; intros Hin.
  - contradiction.
  - destruct (k' =? k) eqn:E; simpl.
    + reflexivity.
    + f_equal. apply IH. destruct Hin as [Hk|Hin]; [|exact Hin].
      apply String.eqb_neq in E. contradiction.
Qed.

Lemma store_fresh (k : string) (v : V) (m : list (string * V)) :
  ~ In k (map fst m) -> store k v m = (m ++ [(k, v)])%list.
Proof.
  induction m as [|[k' v'] m IH]; simpl; intros Hin.
  - reflexivity.
  - destruct (k' =? k) eqn:E.
    + apply String.eqb_eq in E. exfalso. apply Hin. left. exact E.
    + f_equal. apply IH. intros Hk. apply Hin. right. exact Hk.
Qed.

(** [store] on a list given as the image of its distinct keys. *)
Lemma store_map_present (g : string -> V) (k : string) (v : V) (ks : list string) :
  NoDup ks -> In k ks ->
  store k v (map (fun k' => (k', g k')) ks)
  = map (fun k' => (k', if k' =? k then v else g k')) ks.
Proof.
  induction ks as [|a ks IH]; simpl; intros Hnd Hin.
  - contradiction.
  - inversion Hnd as [|? ? Hna Hnd']; subst.
    destruct (a =? k) eqn:E.
    + apply String.eqb_eq in E. subst a. f_equal.
      apply map_ext_in. intros k' Hk'.
      destruct (k' =? k) eqn:E'; [|reflexivity].
      apply String.eqb_eq in E'. subst k'. contradiction.
    + f_equal. apply IH; [exact Hnd'|].
      destruct Hin as [Hk|Hin]; [|exact Hin].
      apply String.eqb_neq in E. contradiction.
Qed.

End StoreFacts.

(** ** First-seen keys *)

Section FirstSeen.

Import Spec.

Lemma first_seen_In (k : string) (ks : list string) :
  In k (first_seen ks) <-> In k ks.
Proof.
  induction ks as [|a ks IH]; simpl.
  - tauto.
  - rewrite filter_In, IH. split.
    + intros [Ha|[Hk _]]; auto.
    + intros [Ha|Hk]; [left; exact Ha|].
      destruct (string_dec a k) as [Hak|Hne]; [left; exact Hak|].
      right. split; [exact Hk|].
      apply negb_true_iff. apply String.eqb_neq. congruence.
Qed.

Lemma NoDup_filter {A : Type} (f : A -> bool) (l : list A) :
  NoDup l -> NoDup (filter f l).
Proof.
  induction 1 as [|x l Hx Hnd IH]; simpl.
  - constructor.
  - destruct (f x); [|exact IH].
    constructor; [|exact IH].
    rewrite filter_In. tauto.
Qed.

Lemma first_seen_NoDup (ks : list string) : NoDup (first_seen ks).
Proof.
  induction ks as [|a ks IH]; simpl.
  - constructor.
  - constructor.
    + rewrite filter_In. intros [_ Hne].
      rewrite String.eqb_refl in Hne. discriminate.
    + apply NoDup_filter. exact IH.
Qed.

Lemma first_seen_snoc (ks : list string) (k : string) :
  first_seen (ks ++ [k])
  = if in_dec string_dec k ks then first_seen ks else (first_seen ks ++ [k])%list.
Proof.
  induction ks as [|a ks IH]; simpl.
  - reflexivity.
  - rewrite IH.
    destruct (string_dec a k) as [->|Hak].
    + destruct (in_dec string_dec k ks) as [Hin|Hnin]; [reflexivity|].
      rewrite filter_app. simpl. rewrite String.eqb_refl. simpl.
      rewrite app_nil_r. reflexivity.
    + destruct (in_dec string_dec k ks) as [Hin|Hnin]; [reflexivity|].
      rewrite filter_app. simpl.
      assert ((k =? a) = false) as ->
          by (apply String.eqb_neq; intros ->; contradiction).
      reflexivity.
Qed.

Lemma first_seen_of_NoDup (ks : list string) :
  NoDup ks -> first_seen ks = ks.
Proof.
  induction 1 as [|a ks Ha Hnd IH]; simpl.
  - reflexivity.
  - rewrite IH. f_equal.
    apply forallb_filter_id. apply forallb_forall.
    intros k Hk. apply negb_true_iff. apply String.eqb_neq.
    intros ->. contradiction.
Qed.

End FirstSeen.

(** ** storage.ts: what [loadWatchlist] computes *)

Section LoadFacts.

Import Storage Spec.
Context {H : Host}.

Lemma lookup_store {V : Type} (k k' : string) (v : V) (m : list (string * V)) :
  lookup k (store k' v m) = if k' =? k then Some v else lookup k m.
Proof.
  induction m as [|[a w] m IH]; simpl.
  - destruct (k' =? k); reflexivity.
  - destruct (a =? k') eqn:Ea; simpl.
    + apply String.eqb_eq in Ea. subst a.
      destruct (k' =? k); reflexivity.
    + rewrite IH. destruct (a =? k) eqn:Eak; [|reflexivity].
      apply String.eqb_eq in Eak. subst a.
      rewrite String.eqb_sym, Ea. reflexivity.
Qed.

(** [isPair] never throws, and accepts exactly the objects with a string
    [base] and a string [target]. *)
Lemma isPair_returns (x : Json) : isPair x = Returns (has_fields x).
Proof.
  unfold isPair, has_fields, entry_fields.
  destruct x as [|b|n|s|l|props]; simpl; try reflexivity.
  - destruct b; reflexivity.
  - destruct (negb _); reflexivity.
  - destruct (negb _); reflexivity.
  - destruct (lookup "base" props) as [[|?|?|?|?|?]|]; simpl; try reflexivity;
      destruct (lookup "target" props) as [[|?|?|?|?|?]|]; reflexivity.
Qed.

Lemma upper_pair_returns (x : Json) (b t : string) :
  entry_fields x = Some (b, t) ->
  upper_pair x = Returns {| base := toUpperCase b; target := toUpperCase t |}.
Proof.
  unfold entry_fields, upper_pair.
  destruct x as [|?|?|?|?|props]; try discriminate. simpl.
  destruct (lookup "base" props) as [[|?|?|sb|?|?]|]; try discriminate.
  destruct (lookup "target" props) as [[|?|?|st|?|?]|]; try discriminate.
  intros [= <- <-]. reflexivity.
Qed.

Lemma upper_pairs_returns (entries : list Json) :
  mapE upper_pair (filter has_fields entries)
  = Returns (flat_map normalize_entry entries).
Proof.
  induction entries as [|x l IH]; simpl.
  - reflexivity.
  - unfold has_fields, normalize_entry at 1.
    destruct (entry_fields x) as [[b t]|] eqn:E.
    + cbn [mapE]. rewrite (upper_pair_returns x E). cbn [bind].
      fold has_fields. rewrite IH. reflexivity.
    + exact IH.
Qed.

(** The [filter(isPair).map(...)] pipeline never throws. *)
Lemma pairs_of_entries (entries : list Json) :
  (valid <- filterE isPair entries ;; mapE upper_pair valid)
  = Returns (flat_map normalize_entry entries).
Proof.
  rewrite (filterE_total isPair has_fields)
    by (intros; apply isPair_returns).
  apply upper_pairs_returns.
Qed.

(** The loop skips exactly the entries that are not well formed. *)
Lemma uniq_skips (l : list WatchPair) (m : JsMap WatchPair) :
  fold_left uniq_step l m = fold_left set_step (filter well_formed l) m.
Proof.
  revert m. induction l as [|p l IH]; intros m; simpl.
  - reflexivity.
  - unfold uniq_step at 2, well_formed.
    destruct (base p =? ""); simpl; [apply IH|].
    destruct (target p =? ""); simpl; [apply IH|].
    destruct (base p =? target p); simpl; apply IH.
Qed.

Lemma set_fold_keys (l : list WatchPair) :
  map fst (fold_left set_step l Map_new) = first_seen (map pair_key l).
Proof.
  induction l as [|p l IH] using rev_ind.
  - reflexivity.
  - rewrite fold_left_app, map_app. simpl.
    rewrite first_seen_snoc. unfold set_step at 1, Map_set.
    destruct (in_dec string_dec (pair_key p) (map pair_key l)) as [Hin|Hnin].
    + rewrite store_keys_in; [exact IH|].
      rewrite IH. apply first_seen_In. exact Hin.
    + rewrite store_fresh.
      * rewrite map_app, IH. reflexivity.
      * rewrite IH, first_seen_In. exact Hnin.
Qed.

Lemma set_fold_lookup (l : list WatchPair) (k : string) :
  lookup k (fold_left set_step l Map_new)
  = find (fun p => pair_key p =? k) (rev l).
Proof.
  induction l as [|p l IH] using rev_ind.
  - reflexivity.
  - rewrite fold_left_app, rev_app_distr. simpl.
    unfold set_step at 1, Map_set. rewrite lookup_store, IH. reflexivity.
Qed.

Lemma values_by_keys {V : Type} (m : list (string * V)) :
  NoDup (map fst m) ->
  map snd m
  = flat_map (fun k => match lookup k m with Some v => [v] | None => [] end)
             (map fst m).
Proof.
  induction m as [|[k v] m IH]; simpl; intros Hnd.
  - reflexivity.
  - inversion Hnd as [|? ? Hk Hnd']; subst.
    rewrite String.eqb_refl. simpl. f_equal.
    rewrite IH by exact Hnd'.
    clear IH Hnd Hnd'. revert Hk.
    generalize (map fst m) as ks.
    induction ks as [|a ks IHks]; simpl; intros Hk.
    + reflexivity.
    + assert ((k =? a) = false) as ->
          by (apply String.eqb_neq; intros ->; apply Hk; left; reflexivity).
      f_equal. apply IHks. intros Hin. apply Hk. right. exact Hin.
Qed.

(** The [Map] loop is deduplication with last-write-wins values at
    first-seen positions. *)
Lemma uniq_values (l : list WatchPair) :
  Map_values (uniq_of l) = dedup_last_wins (filter well_formed l).
Proof.
  unfold uniq_of, Map_values, dedup_last_wins.
  rewrite uniq_skips.
  set (l' := filter well_formed l).
  rewrite values_by_keys
    by (rewrite set_fold_keys; apply first_seen_NoDup).
  rewrite set_fold_keys.
  apply flat_map_ext. intros k. unfold last_with_key.
  rewrite set_fold_lookup. reflexivity.
Qed.

Lemma load_array_spec (entries : list Json) :
  load_array entries = Returns (or_default (dedup_last_wins (normalized entries))).
Proof.
  unfold load_array.
  pose proof (pairs_of_entries entries) as Hp.
  destruct (filterE isPair entries) as [valid|]; simpl in *; [|discriminate].
  rewrite Hp. simpl. rewrite uniq_values. reflexivity.
Qed.

Lemma or_default_nonempty (l : list WatchPair) : or_default l <> [].
Proof. destruct l; simpl; discriminate. Qed.

End LoadFacts.

Section LoadTheorems.

Import Storage Spec.

(** [loadWatchlist] by cases on what the storage and the parser give. *)
Lemma loadWatchlist_cases (H : Host) (ls : LocalStorage) :
  loadWatchlist ls
  = match getItem ls KEY with
    | Throws => DEFAULT_WATCHLIST
    | Returns None => DEFAULT_WATCHLIST
    | Returns (Some text) =>
        if text =? "" then DEFAULT_WATCHLIST
        else match JSON_parse text with
             | Returns (JArr entries) =>
                 or_default (dedup_last_wins (normalized entries))
             | _ => DEFAULT_WATCHLIST
             end
    end.
Proof.
  unfold loadWatchlist, loadWatchlist_try.
  destruct (getItem ls KEY) as [[text|]|]; simpl; try reflexivity.
  destruct (text =? ""); simpl; [reflexivity|].
  destruct (JSON_parse text) as [[| | | |entries|]|]; simpl; try reflexivity.
  rewrite load_array_spec. reflexivity.
Qed.



Lemma loadWatchlist_nonempty (H : Host) (ls : LocalStorage) :
  loadWatchlist ls <> [].
Proof.
  rewrite loadWatchlist_cases.
  destruct (getItem ls KEY) as [[text|]|]; try discriminate.
  destruct (text =? ""); [discriminate|].
  destruct (JSON_parse text) as [[| | | |entries|]|]; try discriminate.
  apply or_default_nonempty.
Qed.

(** C2.  [loadWatchlist] is total and never returns the empty list; it
    returns the default watchlist when the read throws, when nothing or the
    empty text is stored, when the text does not parse, when it parses to
    something that is no array, when no entry survives, and whenever any
    step of the body throws. *)
Theorem load_total_with_default :
  forall (H : Host) (ls : LocalStorage),
    loadWatchlist ls <> [] /\
    (loadWatchlist_try ls = Throws -> loadWatchlist ls = DEFAULT_WATCHLIST) /\
    (getItem ls KEY = Throws -> loadWatchlist ls = DEFAULT_WATCHLIST) /\
    (getItem ls KEY = Returns None -> loadWatchlist ls = DEFAULT_WATCHLIST) /\
    (getItem ls KEY = Returns (Some "") -> loadWatchlist ls = DEFAULT_WATCHLIST) /\
    (forall text,
        getItem ls KEY = Returns (Some text) -> JSON_parse text = Throws ->
        loadWatchlist ls = DEFAULT_WATCHLIST) /\
    (forall text v,
        getItem ls KEY = Returns (Some text) -> JSON_parse text = Returns v ->
        (forall entries, v <> JArr entries) ->
        loadWatchlist ls = DEFAULT_WATCHLIST) /\
    (forall text entries,
        getItem ls KEY = Returns (Some text) ->
        JSON_parse text = Returns (JArr entries) ->
        normalized entries = [] ->
        loadWatchlist ls = DEFAULT_WATCHLIST).
Proof.
  intros H ls. repeat split.
  - apply loadWatchlist_nonempty.
  - intros Ht. unfold loadWatchlist. rewrite Ht. reflexivity.
  - intros Hg. rewrite loadWatchlist_cases, Hg. reflexivity.
  - intros Hg. rewrite loadWatchlist_cases, Hg. reflexivity.
  - intros Hg. rewrite loadWatchlist_cases, Hg. reflexivity.
  - intros text Hg Hp. rewrite loadWatchlist_cases, Hg, Hp.
    destruct (text =? ""); reflexivity.
  - intros text v Hg Hp Hv. rewrite loadWatchlist_cases, Hg, Hp.
    destruct (text =? ""); [reflexivity|].
    destruct v; try reflexivity. exfalso. exact (Hv _ eq_refl).
  - intros text entries Hg Hp Hn. rewrite loadWatchlist_cases, Hg, Hp, Hn.
    destruct (text =? ""); reflexivity.
Qed.

Lemma load_total_with_default_witness :
  loadWatchlist (H := RefHost.host) unreadable_storage = DEFAULT_WATCHLIST /\
  loadWatchlist (H := RefHost.host) empty_storage = DEFAULT_WATCHLIST /\
  loadWatchlist (H := RefHost.host) (storage_with "") = DEFAULT_WATCHLIST /\
  loadWatchlist (H := RefHost.host) (storage_with malformed_text) = DEFAULT_WATCHLIST /\
  loadWatchlist (H := RefHost.host) (storage_with object_text) = DEFAULT_WATCHLIST /\
  loadWatchlist (H := RefHost.host) (storage_with self_pair_text) = DEFAULT_WATCHLIST.
Proof.
  split; [|split; [|split; [|split; [|split]]]].
  - destruct (load_total_with_default RefHost.host unreadable_storage)
      as (_ & _ & Hthrows & _).
    apply Hthrows. reflexivity.
  - destruct (load_total_with_default RefHost.host empty_storage)
      as (_ & _ & _ & Habsent & _).
    apply Habsent. reflexivity.
  - destruct (load_total_with_default RefHost.host (storage_with ""))
      as (_ & _ & _ & _ & Hempty & _).
    apply Hempty. reflexivity.
  - destruct (load_total_with_default RefHost.host (storage_with malformed_text))
      as (_ & _ & _ & _ & _ & Hsyntax & _).
    apply (Hsyntax malformed_text); vm_compute; reflexivity.
  - destruct (load_total_with_default RefHost.host (storage_with object_text))
      as (_ & _ & _ & _ & _ & _ & Hshape & _).
    apply (Hshape object_text (obj2 (JStr "USD") (JStr "MXN")));
      [vm_compute; reflexivity | vm_compute; reflexivity | discriminate].
  - destruct (load_total_with_default RefHost.host (storage_with self_pair_text))
      as (_ & _ & _ & _ & _ & _ & _ & Hnone).
    apply (Hnone self_pair_text [ obj2 (JStr "USD") (JStr "USD") ]);
      vm_compute; reflexivity.
Defined.

(** The specification's load examples 3 and 5 on the reference host:
    deduplication ignores case, and an entry with a number for [base] is
    dropped. *)
Example load_examples :
  loadWatchlist (H := RefHost.host) (storage_with case_text) = [usd_mxn] /\
  loadWatchlist (H := RefHost.host) (storage_with number_base_text)
    = [ {| base := "EUR"; target := "USD" |} ].
Proof. split; vm_compute; reflexivity. Qed.

End LoadTheorems.

(** ** Deduplication *)

Section DedupFacts.

Import Storage Spec.

Lemma flat_map_ext_in {A B : Type} (f g : A -> list B) (l : list A) :
  (forall x, In x l -> f x = g x) -> flat_map f l = flat_map g l.
Proof.
  induction l as [|a l IH]; simpl; intros Hfg.
  - reflexivity.
  - rewrite (Hfg a (or_introl eq_refl)), IH; [reflexivity|].
    intros x Hx. apply Hfg. right. exact Hx.
Qed.

Lemma flat_map_singleton {A : Type} (l : list A) :
  flat_map (fun x => [x]) l = l.
Proof. induction l as [|a l IH]; simpl; [|rewrite IH]; reflexivity. Qed.

Lemma NoDup_map_inj {A B : Type} (f : A -> B) (l : list A) (x y : A) :
  NoDup (map f l) -> In x l -> In y l -> f x = f y -> x = y.
Proof.
  induction l as [|a l IH]; simpl; intros Hnd Hx Hy Hxy.
  - contradiction.
  - inversion Hnd as [|? ? Ha Hnd']; subst.
    destruct Hx as [->|Hx], Hy as [->|Hy].
    + reflexivity.
    + exfalso. apply Ha. rewrite Hxy. apply in_map. exact Hy.
    + exfalso. apply Ha. rewrite <- Hxy. apply in_map. exact Hx.
    + apply IH; assumption.
Qed.

Lemma find_key_props (l : list WatchPair) (k : string) (p : WatchPair) :
  find (fun q => pair_key q =? k) l = Some p -> In p l /\ pair_key p = k.
Proof.
  intros Hf. apply find_some in Hf. destruct Hf as [Hin Hk].
  apply String.eqb_eq in Hk. auto.
Qed.

Lemma find_key_some (l : list WatchPair) (k : string) :
  In k (map pair_key l) ->
  exists p, find (fun q => pair_key q =? k) l = Some p.
Proof.
  intros Hin. apply in_map_iff in Hin. destruct Hin as (q & Hq & Hin).
  destruct (find (fun q => pair_key q =? k) l) as [p|] eqn:Hf.
  - exists p. reflexivity.
  - exfalso. pose proof (find_none _ _ Hf q Hin) as Hn. simpl in Hn.
    rewrite Hq, String.eqb_refl in Hn. discriminate.
Qed.

Lemma in_keys_rev (l : list WatchPair) (k : string) :
  In k (map pair_key l) -> In k (map pair_key (rev l)).
Proof.
  intros Hin. apply in_map_iff in Hin. destruct Hin as (q & Hq & Hin).
  apply in_map_iff. exists q. split; [exact Hq|]. apply in_rev in Hin. exact Hin.
Qed.

(** The last entry with a key that occurs is an entry of the list with
    that key. *)
Lemma last_with_key_props (l : list WatchPair) (k : string) :
  In k (map pair_key l) ->
  exists p, last_with_key k l = [p] /\ In p l /\ pair_key p = k.
Proof.
  intros Hin. unfold last_with_key.
  destruct (find_key_some (rev l) k (in_keys_rev l k Hin)) as (p & Hp).
  rewrite Hp. exists p. split; [reflexivity|].
  apply find_key_props in Hp. destruct Hp as [Hp Hk].
  split; [apply in_rev; exact Hp | exact Hk].
Qed.

Lemma first_with_key_props (l : list WatchPair) (k : string) :
  In k (map pair_key l) ->
  exists p, first_with_key k l = [p] /\ In p l /\ pair_key p = k.
Proof.
  intros Hin. unfold first_with_key.
  destruct (find_key_some l k Hin) as (p & Hp).
  rewrite Hp. exists p. split; [reflexivity|].
  apply find_key_props in Hp. exact Hp.
Qed.

Lemma dedup_last_In (l : list WatchPair) (p : WatchPair) :
  In p (dedup_last_wins l) -> In p l.
Proof.
  unfold dedup_last_wins. rewrite in_flat_map. intros (k & Hk & Hp).
  rewrite first_seen_In in Hk.
  destruct (last_with_key_props l k Hk) as (q & Hq & Hin & _).
  rewrite Hq in Hp. destruct Hp as [<-|[]]. exact Hin.
Qed.

Lemma find_rev_last {A : Type} (f : A -> bool) (l : list A) (p : A) :
  find f (rev l) = Some p <->
  exists l1 l2, l = (l1 ++ p :: l2)%list /\ f p = true /\
                Forall (fun q => f q = false) l2.
Proof.
  induction l as [|x l IH] using rev_ind.
  - simpl. split; [discriminate|].
    intros (l1 & l2 & Hl & _). destruct l1; discriminate.
  - rewrite rev_app_distr. simpl. destruct (f x) eqn:Hx.
    + split.
      * intros [= <-]. exists l, []. auto.
      * intros (l1 & l2 & Hl & Hp & Hall).
        destruct l2 as [|y l2 _] using rev_ind.
        -- apply app_inj_tail in Hl. destruct Hl as [_ ->]. reflexivity.
        -- rewrite app_comm_cons, app_assoc in Hl.
           apply app_inj_tail in Hl. destruct Hl as [_ ->].
           rewrite Forall_app in Hall. destruct Hall as [_ Hy].
           inversion Hy; subst. congruence.
    + rewrite IH. split.
      * intros (l1 & l2 & -> & Hp & Hall).
        exists l1, (l2 ++ [x])%list. rewrite <- app_assoc. simpl.
        split; [reflexivity|]. split; [exact Hp|].
        apply Forall_app. auto.
      * intros (l1 & l2 & Hl & Hp & Hall).
        destruct l2 as [|y l2 _] using rev_ind.
        -- apply app_inj_tail in Hl. destruct Hl as [_ ->]. congruence.
        -- rewrite app_comm_cons, app_assoc in Hl.
           apply app_inj_tail in Hl. destruct Hl as [-> ->].
           rewrite Forall_app in Hall. destruct Hall as [Hall _].
           exists l1, l2. auto.
Qed.

(** An entry is in the deduplicated list exactly when it is the last entry
    of the input with its key. *)
Lemma dedup_last_wins_In (l : list WatchPair) (p : WatchPair) :
  In p (dedup_last_wins l) <->
  exists l1 l2, l = (l1 ++ p :: l2)%list /\
                Forall (fun q => pair_key q <> pair_key p) l2.
Proof.
  unfold dedup_last_wins. rewrite in_flat_map. split.
  - intros (k & Hk & Hp). unfold last_with_key in Hp.
    destruct (find (fun q => pair_key q =? k) (rev l)) as [q|] eqn:Hf;
      [|contradiction].
    destruct Hp as [<-|[]].
    pose proof (find_key_props _ _ Hf) as [_ Hq].
    apply find_rev_last in Hf. destruct Hf as (l1 & l2 & Hl & _ & Hall).
    exists l1, l2. split; [exact Hl|].
    apply Forall_impl with (2 := Hall). intros a Ha.
    apply String.eqb_neq in Ha. congruence.
  - intros (l1 & l2 & Hl & Hall). exists (pair_key p). split.
    + apply first_seen_In. rewrite Hl, map_app. apply in_or_app.
      right. left. reflexivity.
    + unfold last_with_key.
      assert (find (fun q => pair_key q =? pair_key p) (rev l) = Some p) as ->.
      { apply find_rev_last. exists l1, l2. split; [exact Hl|].
        split; [apply String.eqb_refl|].
        apply Forall_impl with (2 := Hall). intros a Ha.
        apply String.eqb_neq. exact Ha. }
      left. reflexivity.
Qed.

Lemma dedup_last_keys (l : list WatchPair) :
  map pair_key (dedup_last_wins l) = first_seen (map pair_key l).
Proof.
  unfold dedup_last_wins.
  assert (forall ks, (forall k, In k ks -> In k (map pair_key l)) ->
                     map pair_key (flat_map (fun k => last_with_key k l) ks) = ks)
    as Hks.
  { induction ks as [|k ks IH]; simpl; intros Hin.
    - reflexivity.
    - destruct (last_with_key_props l k (Hin k (or_introl eq_refl)))
        as (p & Hp & _ & Hk).
      rewrite Hp. simpl. rewrite Hk, IH; [reflexivity|].
      intros k' Hk'. apply Hin. right. exact Hk'. }
  apply Hks. intros k Hk. apply first_seen_In. exact Hk.
Qed.

(** A list whose keys are already distinct is left as it is. *)
Lemma dedup_last_of_NoDup (l : list WatchPair) :
  NoDup (map pair_key l) -> dedup_last_wins l = l.
Proof.
  intros Hnd. unfold dedup_last_wins.
  rewrite first_seen_of_NoDup by exact Hnd.
  rewrite flat_map_concat_map, map_map, <- flat_map_concat_map.
  transitivity (flat_map (fun x => [x]) l); [|apply flat_map_singleton].
  apply flat_map_ext_in. intros p Hp.
  destruct (last_with_key_props l (pair_key p) (in_map pair_key l p Hp))
    as (q & Hq & Hin & Hk).
  rewrite Hq. f_equal. apply (NoDup_map_inj pair_key l); assumption.
Qed.

(** Where the key determines the pair, the last and the first entry with a
    key are the same entry. *)
Lemma dedup_agree (l : list WatchPair) :
  (forall p q, In p l -> In q l -> pair_key p = pair_key q -> p = q) ->
  dedup_last_wins l = dedup_first_wins l.
Proof.
  intros Hinj. unfold dedup_last_wins, dedup_first_wins.
  apply flat_map_ext_in. intros k Hk. rewrite first_seen_In in Hk.
  destruct (last_with_key_props l k Hk) as (p & Hp & Hpin & Hpk).
  destruct (first_with_key_props l k Hk) as (q & Hq & Hqin & Hqk).
  rewrite Hp, Hq. f_equal. apply Hinj; congruence.
Qed.

End DedupFacts.

(** ** The key and the pair *)

Section KeyFacts.

Import Storage Spec.

(** A key splits at its first hyphen: pairs whose base codes hold no hyphen
    are determined by their key. *)
Lemma key_determines_pair (p q : WatchPair) :
  has_hyphen (base p) = false -> has_hyphen (base q) = false ->
  pair_key p = pair_key q -> p = q.
Proof.
  destruct p as [bp tp], q as [bq tq]. unfold pair_key. simpl.
  revert bq. induction bp as [|c bp IH]; intros [|c' bq]; simpl; intros Hp Hq Hk.
  - congruence.
  - injection Hk as Hc _. subst c'.
    rewrite Ascii.eqb_refl in Hq. discriminate.
  - injection Hk as Hc _. subst c.
    rewrite Ascii.eqb_refl in Hp. discriminate.
  - injection Hk as Hc Hk. subst c'.
    apply orb_false_iff in Hp. apply orb_false_iff in Hq.
    specialize (IH bq (proj2 Hp) (proj2 Hq) Hk).
    congruence.
Qed.

End KeyFacts.

Section DedupTheorems.

Import Storage Spec.

(** C10, as stated, fails: the two entries below have the key [A-B-C] but are
    different pairs; the code returns the later one, first-occurrence
    deduplication the earlier one. *)
Lemma dedup_semantics_differ :
  load_array (H := RefHost.host) hyphen_entries
    = Returns [ {| base := "A"; target := "B-C" |} ] /\
  or_default (dedup_first_wins (normalized (H := RefHost.host) hyphen_entries))
    = [ {| base := "A-B"; target := "C" |} ] /\
  ~ dedup_semantics_coincide RefHost.host hyphen_entries.
Proof.
  split; [vm_compute; reflexivity|].
  split; [vm_compute; reflexivity|].
  unfold dedup_semantics_coincide. vm_compute. discriminate.
Qed.

(** C10, amended.  For every input array in which the key determines the
    normalised pair (no two different surviving pairs share a key), the
    overwriting deduplication of the code returns the list that keeps the
    first occurrence of each key. *)
Theorem dedup_semantics_coincide_when_key_determines_pair :
  forall (H : Host) (entries : list Json),
    (forall p q, In p (normalized entries) -> In q (normalized entries) ->
                 pair_key p = pair_key q -> p = q) ->
    dedup_semantics_coincide H entries.
Proof.
  intros H entries Hinj. unfold dedup_semantics_coincide.
  rewrite load_array_spec, (dedup_agree _ Hinj). reflexivity.
Qed.

Lemma dedup_semantics_coincide_witness :
  dedup_semantics_coincide RefHost.host example_entries.
Proof.
  apply dedup_semantics_coincide_when_key_determines_pair.
  intros p q Hp Hq. apply key_determines_pair.
  - revert p Hp. apply Forall_forall. vm_compute. repeat constructor.
  - revert q Hq. apply Forall_forall. vm_compute. repeat constructor.
Defined.

End DedupTheorems.

(** ** The watchlist invariant *)

Section InvariantFacts.

Import Storage Spec.
Context {H : Host}.

Lemma normalized_valid (entries : list Json) (p : WatchPair) :
  (forall s, toUpperCase (toUpperCase s) = toUpperCase s) ->
  In p (normalized entries) -> valid_pair p.
Proof.
  intros Hidem Hin. unfold normalized in Hin.
  apply filter_In in Hin. destruct Hin as [Hin Hwf].
  apply in_flat_map in Hin. destruct Hin as (x & _ & Hx).
  unfold normalize_entry in Hx.
  destruct (entry_fields x) as [[b t]|]; [|contradiction].
  destruct Hx as [<-|[]]. unfold well_formed in Hwf. simpl in Hwf.
  apply andb_true_iff in Hwf. destruct Hwf as [Hwf Hbt].
  apply andb_true_iff in Hwf. destruct Hwf as [Hb Ht].
  apply negb_true_iff in Hb, Ht, Hbt.
  apply String.eqb_neq in Hb, Ht, Hbt.
  unfold valid_pair, is_uppercase. simpl. auto.
Qed.

Lemma default_invariant : UpperCaseLaws H -> invariant DEFAULT_WATCHLIST.
Proof.
  intros (_ & Husd & Hmxn). split.
  - repeat constructor; simpl; try discriminate; assumption.
  - simpl. repeat constructor. simpl. tauto.
Qed.

Lemma load_invariant (ls : LocalStorage) :
  UpperCaseLaws H -> invariant (loadWatchlist ls).
Proof.
  intros Hlaws. pose proof (default_invariant Hlaws) as Hdef.
  rewrite loadWatchlist_cases.
  destruct (getItem ls KEY) as [[text|]|]; try exact Hdef.
  destruct (text =? ""); [exact Hdef|].
  destruct (JSON_parse text) as [[| | | |entries|]|]; try exact Hdef.
  destruct (dedup_last_wins (normalized entries)) as [|p l] eqn:Hd;
    [exact Hdef|].
  simpl. rewrite <- Hd. split.
  - apply Forall_forall. intros q Hq. apply dedup_last_In in Hq.
    apply (normalized_valid entries); [exact (proj1 Hlaws) | exact Hq].
  - rewrite dedup_last_keys. apply first_seen_NoDup.
Qed.

Lemma NoDup_map_filter {A B : Type} (f : A -> B) (g : A -> bool) (l : list A) :
  NoDup (map f l) -> NoDup (map f (filter g l)).
Proof.
  induction l as [|a l IH]; simpl; intros Hnd.
  - constructor.
  - inversion Hnd as [|? ? Ha Hnd']; subst.
    destruct (g a); simpl; [|apply IH; exact Hnd'].
    constructor; [|apply IH; exact Hnd'].
    intros Hin. apply Ha. apply in_map_iff in Hin.
    destruct Hin as (x & Hx & Hin). apply filter_In in Hin.
    apply in_map_iff. exists x. tauto.
Qed.

Lemma key_exists_iff (k : string) (l : list WatchPair) :
  existsb (fun p => (base p ++ "-" ++ target p)%string =? k) l = true
  <-> In k (map pair_key l).
Proof.
  rewrite existsb_exists, in_map_iff. unfold pair_key.
  split; intros (p & Hp & Hq); exists p.
  - apply String.eqb_eq in Hq. auto.
  - split; [exact Hq|]. apply String.eqb_eq. exact Hp.
Qed.

Lemma onAdd_invariant (render s : Watchlist.State) :
  (forall s, toUpperCase (toUpperCase s) = toUpperCase s) ->
  Watchlist.pairs render = Watchlist.pairs s ->
  invariant (Watchlist.pairs s) ->
  invariant (Watchlist.pairs (Watchlist.onAdd render s)).
Proof.
  intros Hidem Hsame [Hall Hnd]. unfold Watchlist.onAdd. simpl.
  destruct (toUpperCase (Watchlist.base render) =? "") eqn:Eb; simpl;
    [split; assumption|].
  destruct (toUpperCase (Watchlist.target render) =? "") eqn:Et; simpl;
    [split; assumption|].
  destruct (toUpperCase (Watchlist.base render) =? toUpperCase (Watchlist.target render))
    eqn:Ebt; simpl; [split; assumption|].
  destruct (existsb _ (Watchlist.pairs render)) eqn:Ex; simpl;
    [split; assumption|].
  apply String.eqb_neq in Eb, Et, Ebt.
  split.
  - constructor; [|exact Hall].
    unfold valid_pair, is_uppercase. simpl. auto.
  - simpl. constructor; [|exact Hnd].
    intros Hin. rewrite <- Hsame in Hin. apply key_exists_iff in Hin.
    unfold pair_key in Hin. simpl in Hin. congruence.
Qed.

Lemma onRemove_invariant (p : WatchPair) (s : Watchlist.State) :
  invariant (Watchlist.pairs s) ->
  invariant (Watchlist.pairs (Watchlist.onRemove p s)).
Proof.
  intros [Hall Hnd]. unfold Watchlist.onRemove. simpl. split.
  - apply Forall_forall. intros x Hx. apply filter_In in Hx.
    rewrite Forall_forall in Hall. apply Hall. tauto.
  - apply NoDup_map_filter. exact Hnd.
Qed.

End InvariantFacts.

(** The reference host satisfies the laws. *)
Lemma RefHost_upper_char_idem (c : ascii) :
  RefHost.upper_char (RefHost.upper_char c) = RefHost.upper_char c.
Proof. destruct c as [[] [] [] [] [] [] [] []]; reflexivity. Qed.

Lemma RefHost_upper_laws : UpperCaseLaws RefHost.host.
Proof.
  split; [|split; reflexivity].
  intros s. simpl. induction s as [|c s IH]; simpl.
  - reflexivity.
  - rewrite RefHost_upper_char_idem, IH. reflexivity.
Qed.

Section InvariantTheorem.

Import Storage Spec.




End InvariantTheorem.

(** ** Watchlist.tsx: add and remove *)

Section AddRemove.

Import Storage Spec.

(** What [onAdd] does, with the two lists it reads kept apart: the key is
    looked up in the watchlist of the render, the pair is prepended to the
    watchlist of the state. *)
Lemma onAdd_cases (H : Host) (render s : Watchlist.State) :
  let b := toUpperCase (Watchlist.base render) in
  let t := toUpperCase (Watchlist.target render) in
  let new := {| base := b; target := t |} in
  (b = "" \/ t = "" -> Watchlist.onAdd render s = rejected EmptyField s) /\
  (b <> "" -> t <> "" -> b = t -> Watchlist.onAdd render s = rejected SamePair s) /\
  (b <> "" -> t <> "" -> b <> t ->
   In (pair_key new) (map pair_key (Watchlist.pairs render)) ->
   Watchlist.onAdd render s = rejected DuplicatePair s) /\
  (b <> "" -> t <> "" -> b <> t ->
   ~ In (pair_key new) (map pair_key (Watchlist.pairs render)) ->
   Watchlist.onAdd render s = accepted (new :: Watchlist.pairs s) s).
Proof.
  intros b t new. unfold Watchlist.onAdd. simpl. fold b t.
  repeat split.
  - intros [Hb|Ht].
    + apply String.eqb_eq in Hb. rewrite Hb. reflexivity.
    + apply String.eqb_eq in Ht. rewrite Ht, orb_true_r. reflexivity.
  - intros Hb Ht Hbt.
    apply String.eqb_neq in Hb, Ht. apply String.eqb_eq in Hbt.
    rewrite Hb, Ht, Hbt. reflexivity.
  - intros Hb Ht Hbt Hin.
    apply String.eqb_neq in Hb, Ht, Hbt.
    apply key_exists_iff in Hin. unfold pair_key in Hin. simpl in Hin.
    rewrite Hb, Ht, Hbt, Hin. reflexivity.
  - intros Hb Ht Hbt Hin.
    apply String.eqb_neq in Hb, Ht, Hbt.
    rewrite Hb, Ht, Hbt. simpl.
    destruct (existsb _ (Watchlist.pairs render)) eqn:Ex; [|reflexivity].
    exfalso. apply Hin. apply key_exists_iff. exact Ex.
Qed.




Lemma same_fields_iff (x p : WatchPair) :
  (base x =? base p) && (target x =? target p) = true <-> x = p.
Proof.
  rewrite andb_true_iff, !String.eqb_eq.
  destruct x, p; simpl. split; [intros [-> ->]; reflexivity | intros [= -> ->]; auto].
Qed.

Lemma filter_is_remove (p : WatchPair) (l : list WatchPair) :
  filter (fun x => negb ((base x =? base p) && (target x =? target p))) l
  = remove WatchPair_eq_dec p l.
Proof.
  induction l as [|x l IH]; simpl.
  - reflexivity.
  - destruct (WatchPair_eq_dec p x) as [<-|Hne].
    + rewrite !String.eqb_refl. simpl. exact IH.
    + destruct ((base x =? base p) && (target x =? target p)) eqn:E; simpl.
      * apply same_fields_iff in E. congruence.
      * rewrite IH. reflexivity.
Qed.

Lemma remove_one_shorter (p : WatchPair) (l : list WatchPair) :
  In p l -> NoDup (map pair_key l) ->
  S (length (remove WatchPair_eq_dec p l)) = length l.
Proof.
  induction l as [|x l IH]; simpl; intros Hin Hnd.
  - contradiction.
  - inversion Hnd as [|? ? Hx Hnd']; subst.
    destruct (WatchPair_eq_dec p x) as [<-|Hne].
    + rewrite notin_remove; [reflexivity|].
      intros Hp. apply Hx. apply in_map. exact Hp.
    + simpl. f_equal. apply IH; [|exact Hnd'].
      destruct Hin as [->|Hin]; [contradiction | exact Hin].
Qed.

(** C8.  [onRemove] never fails and touches the watchlist only: the new
    watchlist is the old one without the entries whose base and target both
    equal those of the given pair, the others kept in order; it is the old
    watchlist when no entry matches, and one entry shorter when the pair is
    present and the keys of the watchlist are pairwise different. *)
Theorem onRemove_removes_matching :
  forall (p : WatchPair) (s : Watchlist.State),
    let r := Watchlist.pairs (Watchlist.onRemove p s) in
    r = remove WatchPair_eq_dec p (Watchlist.pairs s) /\
    (forall x, In x r <->
               In x (Watchlist.pairs s) /\ ~ (base x = base p /\ target x = target p)) /\
    (~ In p (Watchlist.pairs s) -> Watchlist.onRemove p s = s) /\
    (In p (Watchlist.pairs s) -> NoDup (map pair_key (Watchlist.pairs s)) ->
     S (length r) = length (Watchlist.pairs s)) /\
    Watchlist.base (Watchlist.onRemove p s) = Watchlist.base s /\
    Watchlist.target (Watchlist.onRemove p s) = Watchlist.target s /\
    Watchlist.msg (Watchlist.onRemove p s) = Watchlist.msg s.
Proof.
  intros p s r.
  assert (r = remove WatchPair_eq_dec p (Watchlist.pairs s)) as Hr
      by apply filter_is_remove.
  split; [exact Hr|]. split; [|split; [|split; [|repeat split]]].
  - intros x. unfold r, Watchlist.onRemove. simpl.
    rewrite filter_In, negb_true_iff, <- not_true_iff_false, andb_true_iff,
      !String.eqb_eq. reflexivity.
  - intros Hnin. destruct s as [l b t m].
    unfold Watchlist.onRemove, Watchlist.setPairs. simpl in *. f_equal.
    rewrite filter_is_remove. apply notin_remove. exact Hnin.
  - intros Hin Hnd. rewrite Hr. apply remove_one_shorter; assumption.
Qed.

(** X4.  Removing the pair that [onAdd] has just added gives back the
    watchlist as it was before the add, when the render of the [onAdd]
    showed that watchlist. *)
Theorem onRemove_undoes_onAdd :
  forall (H : Host) (render s : Watchlist.State),
    let new := {| base := toUpperCase (Watchlist.base render);
                  target := toUpperCase (Watchlist.target render) |} in
    Watchlist.pairs render = Watchlist.pairs s ->
    Watchlist.msg (Watchlist.onAdd render s) = None ->
    Watchlist.pairs (Watchlist.onRemove new (Watchlist.onAdd render s))
    = Watchlist.pairs s.
Proof.
  intros H render s new Hsame. unfold Watchlist.onAdd. simpl.
  destruct ((toUpperCase (Watchlist.base render) =? "")
            || (toUpperCase (Watchlist.target render) =? "")); [discriminate|].
  destruct (toUpperCase (Watchlist.base render) =? toUpperCase (Watchlist.target render));
    [discriminate|].
  destruct (existsb _ (Watchlist.pairs render)) eqn:Ex; [discriminate|].
  intros _. simpl. rewrite !String.eqb_refl. simpl.
  rewrite (filter_is_remove new). apply notin_remove.
  intros Hin. rewrite <- Hsame in Hin. apply (in_map pair_key) in Hin.
  apply key_exists_iff in Hin. unfold pair_key in Hin.
  simpl in Hin. congruence.
Qed.

Lemma onRemove_undoes_onAdd_witness :
  Watchlist.pairs
    (Watchlist.onRemove eur_gbp
       (Watchlist.onAdd (H := RefHost.host) example_state example_state))
  = [usd_mxn].
Proof.
  apply (onRemove_undoes_onAdd RefHost.host example_state example_state).
  - reflexivity.
  - reflexivity.
Defined.

Lemma onRemove_removes_matching_witness :
  Watchlist.onRemove eur_gbp (state_of [usd_mxn] "a" "b") = state_of [usd_mxn] "a" "b" /\
  S (length (Watchlist.pairs (Watchlist.onRemove usd_mxn (state_of [eur_gbp; usd_mxn] "a" "b"))))
  = 2%nat.
Proof.
  split.
  - apply (onRemove_removes_matching eur_gbp (state_of [usd_mxn] "a" "b")).
    intros [Hk|[]]. discriminate Hk.
  - apply (onRemove_removes_matching usd_mxn (state_of [eur_gbp; usd_mxn] "a" "b")).
    + right. left. reflexivity.
    + simpl. repeat constructor; simpl; intuition discriminate.
Defined.

End AddRemove.

(** ** storage.ts: save, then load *)

Section RoundTrip.

Import Storage Spec.

Lemma normalized_of_valid (H : Host) (x : list WatchPair) :
  Forall valid_pair x -> normalized (map json_of_pair x) = x.
Proof.
  unfold normalized. induction 1 as [|p x Hp Hall IH]; simpl.
  - reflexivity.
  - destruct Hp as (Hb & Ht & Hub & Hut & Hbt).
    unfold is_uppercase in Hub, Hut. rewrite Hub, Hut.
    unfold well_formed at 1. simpl.
    apply String.eqb_neq in Hb, Ht, Hbt. rewrite Hb, Ht, Hbt. simpl.
    rewrite IH. destruct p; reflexivity.
Qed.

Lemma getItem_after_save (H : Host) (x : list WatchPair) (ls : LocalStorage) :
  writable ls = true -> readable ls = true ->
  getItem (saveWatchlist x ls) KEY
  = Returns (Some (JSON_stringify (json_of_pairs x))).
Proof.
  intros Hw Hr. unfold saveWatchlist, setItem, getItem. rewrite Hw. simpl.
  rewrite Hr, lookup_store_same. reflexivity.
Qed.

(** C7, as stated, fails at the empty watchlist, which is normalised and
    deduplicated and which the page saves after the last pair is removed:
    then [loadWatchlist] returns the default watchlist.  It also fails when
    the write is refused: the failure is swallowed and nothing was stored. *)
Lemma round_trip_loses_empty_watchlist :
  invariant (H := RefHost.host) [] /\
  loadWatchlist (H := RefHost.host) (saveWatchlist (H := RefHost.host) [] empty_storage)
    = DEFAULT_WATCHLIST /\
  ~ round_trip_is_identity RefHost.host empty_storage [] /\
  ~ round_trip_is_identity RefHost.host full_storage [eur_gbp].
Proof.
  assert (invariant (H := RefHost.host) []) as Hnil
      by (split; constructor).
  split; [exact Hnil|].
  split; [vm_compute; reflexivity|].
  split.
  - intros Hrt. specialize (Hrt Hnil). vm_compute in Hrt. discriminate.
  - intros Hrt.
    assert (invariant (H := RefHost.host) [eur_gbp]) as Hinv.
    { split.
      - repeat constructor; simpl; discriminate.
      - simpl. repeat constructor. simpl. tauto. }
    specialize (Hrt Hinv). vm_compute in Hrt. discriminate.
Qed.

Lemma load_after_save (H : Host) (ls : LocalStorage) (x : list WatchPair) :
  writable ls = true ->
  readable ls = true ->
  JSON_stringify (json_of_pairs x) <> "" ->
  JSON_parse (JSON_stringify (json_of_pairs x)) = Returns (json_of_pairs x) ->
  x <> [] ->
  invariant x ->
  loadWatchlist (saveWatchlist x ls) = x.
Proof.
  intros Hw Hr Hne Hparse Hx [Hall Hnd].
  rewrite loadWatchlist_cases, getItem_after_save by assumption.
  apply String.eqb_neq in Hne. rewrite Hne, Hparse. unfold json_of_pairs.
  rewrite normalized_of_valid by exact Hall.
  rewrite dedup_last_of_NoDup by exact Hnd.
  destruct x; [contradiction | reflexivity].
Qed.

(** C7, amended.  For every non-empty watchlist that satisfies the invariant,
    when the storage accepts the write and the read, and the host's
    [JSON.parse] reads back the array that [JSON.stringify] wrote (from a
    non-empty text), [loadWatchlist] after [saveWatchlist] returns that
    watchlist. *)
Theorem save_then_load_is_identity :
  forall (H : Host) (ls : LocalStorage) (x : list WatchPair),
    writable ls = true ->
    readable ls = true ->
    JSON_stringify (json_of_pairs x) <> "" ->
    JSON_parse (JSON_stringify (json_of_pairs x)) = Returns (json_of_pairs x) ->
    x <> [] ->
    round_trip_is_identity H ls x.
Proof.
  intros H ls x Hw Hr Hne Hparse Hx Hinv.
  apply load_after_save; assumption.
Qed.

Lemma save_then_load_is_identity_witness :
  loadWatchlist (H := RefHost.host)
                (saveWatchlist (H := RefHost.host) [eur_gbp; usd_mxn] empty_storage)
  = [eur_gbp; usd_mxn].
Proof.
  apply (@save_then_load_is_identity RefHost.host empty_storage [eur_gbp; usd_mxn]).
  - reflexivity.
  - reflexivity.
  - vm_compute. discriminate.
  - vm_compute. reflexivity.
  - discriminate.
  - split.
    + repeat constructor; simpl; discriminate.
    + simpl. repeat constructor; simpl; intuition discriminate.
Defined.

(** X1.  [saveWatchlist] never fails: when the storage refuses the write the
    storage is left as it was and nothing is signalled; when it accepts,
    the text of the given list replaces what was stored under the one key and
    no other key changes. *)
Theorem saveWatchlist_best_effort :
  forall (H : Host) (pairs : list WatchPair) (ls : LocalStorage),
    (writable ls = false -> saveWatchlist pairs ls = ls) /\
    (writable ls = true ->
     lookup KEY (items (saveWatchlist pairs ls))
     = Some (JSON_stringify (json_of_pairs pairs))) /\
    (forall k, k <> KEY ->
               lookup k (items (saveWatchlist pairs ls)) = lookup k (items ls)) /\
    readable (saveWatchlist pairs ls) = readable ls /\
    writable (saveWatchlist pairs ls) = writable ls.
Proof.
  intros H pairs ls. unfold saveWatchlist, setItem.
  destruct (writable ls) eqn:Hw; simpl.
  - split; [discriminate|]. split; [intros _; apply lookup_store_same|].
    split; [|split; reflexivity].
    intros k Hk. rewrite lookup_store.
    destruct (String.eqb_spec KEY k) as [<-|_]; [contradiction | reflexivity].
  - split; [reflexivity|]. split; [discriminate|].
    split; [reflexivity|]. split; [reflexivity | exact Hw].
Qed.

Lemma saveWatchlist_best_effort_witness :
  saveWatchlist (H := RefHost.host) [eur_gbp] full_storage = full_storage /\
  lookup KEY (items (saveWatchlist (H := RefHost.host) [eur_gbp] empty_storage))
  = Some (RefHost.print (json_of_pairs [eur_gbp])).
Proof.
  split.
  - destruct (saveWatchlist_best_effort RefHost.host [eur_gbp] full_storage)
      as (Hrefused & _).
    apply Hrefused. reflexivity.
  - destruct (saveWatchlist_best_effort RefHost.host [eur_gbp] empty_storage)
      as (_ & Hstored & _).
    apply Hstored. reflexivity.
Defined.

(** X2.  Saving what [loadWatchlist] returned and loading again returns the
    same watchlist: on a host whose [toUpperCase] is idempotent, with a
    storage that accepts the write and the read, and [JSON.parse] reading
    back the array [JSON.stringify] wrote. *)
Theorem load_save_load :
  forall (H : Host) (ls ls' : LocalStorage),
    UpperCaseLaws H ->
    writable ls' = true ->
    readable ls' = true ->
    JSON_stringify (json_of_pairs (loadWatchlist ls)) <> "" ->
    JSON_parse (JSON_stringify (json_of_pairs (loadWatchlist ls)))
    = Returns (json_of_pairs (loadWatchlist ls)) ->
    loadWatchlist (saveWatchlist (loadWatchlist ls) ls') = loadWatchlist ls.
Proof.
  intros H ls ls' Hlaws Hw Hr Hne Hparse.
  apply load_after_save; try assumption.
  - apply loadWatchlist_nonempty.
  - apply load_invariant. exact Hlaws.
Qed.

Lemma load_save_load_witness :
  loadWatchlist (H := RefHost.host)
    (saveWatchlist (H := RefHost.host)
       (loadWatchlist (H := RefHost.host) (storage_with example_text))
       empty_storage)
  = [ {| base := "EUR"; target := "USD" |}; usd_mxn ].
Proof.
  rewrite (@load_save_load RefHost.host (storage_with example_text) empty_storage).
  - vm_compute. reflexivity.
  - exact RefHost_upper_laws.
  - reflexivity.
  - reflexivity.
  - vm_compute. discriminate.
  - vm_compute. reflexivity.
Defined.

End RoundTrip.

(** ** The order of binary64 numbers

    [PrimFloat.leb] and [PrimFloat.ltb] compare through [SFcompare]; away from
    NaN that is the lexicographic order of the [rank] below. *)

Section FloatOrder.

Local Open Scope Z_scope.














End FloatOrder.

Section FloatFolds.








End FloatFolds.

(** ** Sorting and slicing *)

Section SortFacts.

Context {A : Type} (cmp : A -> A -> Z).

Hypothesis cmp_total : forall a b, (0 <= cmp a b -> cmp b a <= 0)%Z.
Hypothesis cmp_trans :
  forall a b c, (cmp a b <= 0 -> cmp b c <= 0 -> cmp a c <= 0)%Z.

Lemma insert_sorted_perm (x : A) (l : list A) :
  Permutation (insert_sorted cmp x l) (x :: l).
Proof.
  induction l as [|y l IH]; simpl.
  - apply Permutation_refl.
  - destruct (cmp x y <? 0)%Z.
    + apply Permutation_refl.
    + apply perm_trans with (y :: x :: l).
      * apply perm_skip. exact IH.
      * apply perm_swap.
Qed.

Lemma sort_acc_perm (l acc : list A) :
  Permutation (fold_left (fun acc x => insert_sorted cmp x acc) l acc) (acc ++ l)%list.
Proof.
  revert acc. induction l as [|x l IH]; intros acc; simpl.
  - rewrite app_nil_r. apply Permutation_refl.
  - eapply perm_trans; [apply IH|].
    eapply perm_trans; [apply Permutation_app_tail, insert_sorted_perm|].
    simpl. apply Permutation_middle.
Qed.

Lemma sort_perm (l : list A) : Permutation (sort cmp l) l.
Proof. apply (sort_acc_perm l []). Qed.

Lemma insert_sorted_sorted (x : A) (l : list A) :
  StronglySorted (not_after cmp) l -> StronglySorted (not_after cmp) (insert_sorted cmp x l).
Proof.
  induction l as [|y l IH]; simpl; intros Hs.
  - repeat constructor.
  - inversion Hs as [|? ? Hs' Hy]; subst.
    destruct (cmp x y <? 0)%Z eqn:E.
    + apply Z.ltb_lt in E. constructor; [exact Hs|].
      constructor; [unfold not_after; lia|].
      rewrite Forall_forall in Hy |- *. intros z Hz.
      apply cmp_trans with (b := y); [lia | apply Hy; exact Hz].
    + apply Z.ltb_ge in E. constructor; [apply IH; exact Hs'|].
      rewrite Forall_forall in Hy |- *. intros z Hz.
      apply (Permutation_in _ (insert_sorted_perm x l)) in Hz.
      destruct Hz as [<-|Hz]; [apply cmp_total; exact E | apply Hy; exact Hz].
Qed.

Lemma sort_acc_sorted (l acc : list A) :
  StronglySorted (not_after cmp) acc ->
  StronglySorted (not_after cmp) (fold_left (fun acc x => insert_sorted cmp x acc) l acc).
Proof.
  revert acc. induction l as [|x l IH]; intros acc Hs; simpl.
  - exact Hs.
  - apply IH. apply insert_sorted_sorted. exact Hs.
Qed.

Lemma sort_sorted (l : list A) : StronglySorted (not_after cmp) (sort cmp l).
Proof. apply sort_acc_sorted. constructor. Qed.

End SortFacts.

Section SliceFacts.

Context {A : Type}.

Lemma slice_last (n : Z) (l : list A) :
  (0 < n)%Z -> slice (- n) l = skipn (length l - Z.to_nat n) l.
Proof.
  intros Hn. unfold slice.
  assert ((- n <? 0)%Z = true) as -> by (apply Z.ltb_lt; lia).
  f_equal. lia.
Qed.


Lemma slice_In (n : Z) (l : list A) (x : A) : In x (slice n l) -> In x l.
Proof.
  unfold slice. intros Hin.
  rewrite <- (firstn_skipn (Z.to_nat
    (if (n <? 0)%Z then Z.max (Z.of_nat (length l) + n) 0
     else Z.min n (Z.of_nat (length l)))) l).
  apply in_or_app. right. exact Hin.
Qed.


End SliceFacts.

(** ** History.tsx: the chart data *)

Section ChartFacts.

Import History.
Context {H : Host}.

Lemma get_prop_optional_returns (obj : Json) (k : string) :
  get_prop_optional obj k = Returns (read_value obj k).
Proof.
  unfold read_value, get_prop_optional, get_prop.
  destruct obj as [|b|n|s|l|props]; simpl; try reflexivity.
  - destruct (k =? "length"); [reflexivity|].
    destruct (array_index k) as [i|]; [|reflexivity].
    destruct (String.get i s); reflexivity.
  - destruct (k =? "length"); [reflexivity|].
    destruct (array_index k); reflexivity.
Qed.

Lemma make_point_returns (target : string) (entry : string * Json) :
  shortDateLabel (fst entry) <> Throws ->
  make_point target entry = Returns (point_of target entry).
Proof.
  destruct entry as [d obj]. unfold make_point, point_of, label_of. simpl.
  intros Hl. destruct (shortDateLabel d) as [l|]; [|contradiction]. simpl.
  rewrite get_prop_optional_returns. reflexivity.
Qed.

Lemma chartData_returns (rates : list (string * Json)) (target : string)
  (period : Period) :
  labels_defined rates ->
  chartData rates target period
  = Returns (slice (- period_value period)
                   (sort date_cmp (number_points rates target))).
Proof.
  intros Hl. unfold chartData.
  rewrite (mapE_total (make_point target) (point_of target)).
  - reflexivity.
  - intros [d obj] Hin. apply make_point_returns. simpl. exact (Hl d obj Hin).
Qed.

Lemma is_number_point_iff (p : Point) :
  is_number_point p = true <-> exists n, rate p = Some (JNum n).
Proof.
  unfold is_number_point. destruct (rate p) as [[| | n | | |]|]; simpl;
    split; try discriminate; try (intros (n' & Hn); discriminate).
  - intros _. exists n. reflexivity.
  - reflexivity.
Qed.

Lemma number_points_In (rates : list (string * Json)) (target : string)
  (p : Point) :
  In p (number_points rates target) <->
  exists obj n, In (date p, obj) rates /\ number_at obj target n /\
                p = {| date := date p; label := label_of (date p);
                       rate := Some (JNum n) |}.
Proof.
  unfold number_points, number_at. rewrite filter_In, in_map_iff. split.
  - intros (([d obj] & <- & Hin) & Hnum).
    apply is_number_point_iff in Hnum. destruct Hnum as (n & Hn).
    exists obj, n. simpl in *. split; [exact Hin|].
    rewrite get_prop_optional_returns, Hn. split; [reflexivity|].
    unfold point_of. simpl. rewrite Hn. reflexivity.
  - intros (obj & n & Hin & Hnum & Hp).
    rewrite get_prop_optional_returns in Hnum. injection Hnum as Hnum.
    split.
    + exists (date p, obj). split; [|exact Hin].
      unfold point_of. simpl. rewrite Hnum. symmetry. exact Hp.
    + apply is_number_point_iff. exists n. rewrite Hp. reflexivity.
Qed.

Lemma number_points_dates (rates : list (string * Json)) (target d : string) :
  In d (map date (number_points rates target)) <->
  exists obj n, In (d, obj) rates /\ number_at obj target n.
Proof.
  rewrite in_map_iff. split.
  - intros (p & <- & Hp). apply number_points_In in Hp.
    destruct Hp as (obj & n & Hin & Hnum & _). exists obj, n. auto.
  - intros (obj & n & Hin & Hnum).
    exists {| date := d; label := label_of d; rate := Some (JNum n) |}.
    split; [reflexivity|]. apply number_points_In. exists obj, n. auto.
Qed.

Lemma number_points_rates (rates : list (string * Json)) (target : string) :
  Forall (fun p => exists n, rate p = Some (JNum n)) (number_points rates target).
Proof.
  apply Forall_forall. intros p Hp. apply filter_In in Hp.
  apply is_number_point_iff. tauto.
Qed.

End ChartFacts.

(** The reference host's comparator is consistent. *)
Lemma string_compare_le_trans (a b c : string) :
  String.compare a b <> Gt -> String.compare b c <> Gt -> String.compare a c <> Gt.
Proof.
  revert b c. induction a as [|x a IH]; intros [|y b] [|z c]; simpl;
    try congruence.
  unfold Ascii.compare.
  destruct (N.compare_spec (N_of_ascii x) (N_of_ascii y));
    destruct (N.compare_spec (N_of_ascii y) (N_of_ascii z));
    destruct (N.compare_spec (N_of_ascii x) (N_of_ascii z));
    try congruence; try lia.
  apply IH.
Qed.

Lemma RefHost_comparator : ConsistentComparator RefHost.host.
Proof.
  split; simpl; unfold RefHost.compare_strings.
  - intros a b. rewrite (String.compare_antisym b a).
    destruct (String.compare a b); simpl; lia.
  - intros a b c Hab Hbc.
    pose proof (@string_compare_le_trans a b c) as Ht.
    destruct (String.compare a b), (String.compare b c), (String.compare a c);
      try lia; exfalso; apply Ht; congruence.
Qed.

Section ChartTheorems.

Import History.

(** C5, as stated, fails: a value that is a number but not finite (the host
    reads the JSON numeral [1e999] as Infinity) passes the [typeof] test and
    its date becomes a point. *)
Lemma chartData_keeps_infinite_rate :
  chartData (H := RefHost.host) infinite_rates "MXN" P7
    = Returns [ {| date := "2024-01-01"; label := "Jan 01";
                   rate := Some (JNum PrimFloat.infinity) |} ] /\
  RefHost.parse "1e999" = Returns (JNum PrimFloat.infinity) /\
  ~ keeps_exactly_finite_dates RefHost.host infinite_rates "MXN" P7.
Proof.
  split; [vm_compute; reflexivity|].
  split; [vm_compute; reflexivity|].
  intros (pts & Hpts & Hiff).
  vm_compute in Hpts. injection Hpts as <-.
  destruct (Hiff "2024-01-01") as [Hl _].
  destruct (Hl (or_introl eq_refl)) as (obj & n & Hin & Hnum & Hfin).
  destruct Hin as [Hin|[]]. injection Hin as <-.
  unfold number_at in Hnum. simpl in Hnum. injection Hnum as <-.
  vm_compute in Hfin. discriminate.
Qed.

(** C5, amended.  For every mapping whose keys are dates, and every target,
    [chartData] does not throw; a date survives the filter if and only if
    the value stored for the target at that date is present and is a number,
    finite or not; the result is the last [period] survivors in date order,
    so every point of the result comes from an entry whose value is a
    number, and when at most [period] dates survive the dates of the result
    are exactly the surviving dates. *)
Theorem chartData_keeps_number_dates :
  forall (H : Host) (rates : list (string * Json)) (target : string)
         (period : Period),
    labels_defined rates ->
    exists pts,
      chartData rates target period = Returns pts /\
      pts = slice (- period_value period)
                  (sort date_cmp (number_points rates target)) /\
      (forall d, In d (map date (number_points rates target)) <->
                 exists obj n, In (d, obj) rates /\ number_at obj target n) /\
      (forall p, In p pts ->
                 exists obj n, In (date p, obj) rates /\ number_at obj target n /\
                               rate p = Some (JNum n)) /\
      ((length (number_points rates target) <= Z.to_nat (period_value period))%nat ->
       forall d, In d (map date pts) <->
                 exists obj n, In (d, obj) rates /\ number_at obj target n).
Proof.
  intros H rates target period Hl.
  eexists. split; [apply chartData_returns; exact Hl|].
  split; [reflexivity|]. split; [apply number_points_dates|]. split.
  - intros p Hp. apply slice_In in Hp.
    apply (Permutation_in _ (sort_perm date_cmp _)) in Hp.
    apply number_points_In in Hp.
    destruct Hp as (obj & n & Hin & Hnum & Hp).
    exists obj, n. split; [exact Hin|]. split; [exact Hnum|].
    rewrite Hp. reflexivity.
  - intros Hlen d.
    rewrite slice_last by (destruct period; reflexivity).
    pose proof (sort_perm date_cmp (number_points rates target)) as Hperm.
    rewrite (Permutation_length Hperm).
    replace (length (number_points rates target) - Z.to_nat (period_value period))%nat
      with 0%nat by lia.
    simpl. rewrite <- number_points_dates.
    split; apply Permutation_in; apply Permutation_map;
      [exact Hperm | apply Permutation_sym; exact Hperm].
Qed.

(** X3.  [chartData] throws only when the label of one of the date keys
    cannot be formatted; the values stored under the keys never make it
    throw. *)
Theorem chartData_throws_only_on_labels :
  forall (H : Host) (rates : list (string * Json)) (target : string)
         (period : Period),
    chartData rates target period = Throws ->
    exists d obj, In (d, obj) rates /\ shortDateLabel d = Throws.
Proof.
  intros H rates target period. unfold chartData. intros Hc.
  destruct (mapE (make_point target) rates) as [pts|] eqn:Hm; [discriminate|].
  apply mapE_throws in Hm. destruct Hm as ([d obj] & Hin & Hthrow).
  exists d, obj. split; [exact Hin|].
  unfold make_point in Hthrow.
  destruct (shortDateLabel d); [|reflexivity].
  simpl in Hthrow. rewrite get_prop_optional_returns in Hthrow. discriminate.
Qed.

Lemma chartData_throws_only_on_labels_witness :
  chartData (H := RefHost.host) undated_rates "MXN" P7 = Throws /\
  exists d obj, In (d, obj) undated_rates /\
                shortDateLabel (H := RefHost.host) d = Throws.
Proof.
  assert (chartData (H := RefHost.host) undated_rates "MXN" P7 = Throws) as Ht
      by (vm_compute; reflexivity).
  split; [exact Ht|].
  exact (chartData_throws_only_on_labels RefHost.host undated_rates "MXN" P7 Ht).
Defined.

Lemma RefHost_week_labels : labels_defined (H := RefHost.host) week_rates.
Proof.
  intros d obj Hin. simpl in Hin.
  repeat (destruct Hin as [Hin|Hin]; [injection Hin as <- <-; vm_compute; discriminate|]).
  contradiction.
Qed.

Lemma chartData_keeps_number_dates_witness :
  exists pts,
    chartData (H := RefHost.host) week_rates "MXN" P7 = Returns pts /\
    map date pts = ["2024-01-01"; "2024-01-03"].
Proof.
  destruct (@chartData_keeps_number_dates RefHost.host week_rates "MXN" P7
              RefHost_week_labels) as (pts & Hpts & Heq & _).
  exists pts. split; [exact Hpts|].
  rewrite Heq. vm_compute. reflexivity.
Defined.

End ChartTheorems.

(** ** History.tsx: the statistics *)

Section StatsFacts.

Import History.





End StatsFacts.

Section StatsTheorem.

Import History.





End StatsTheorem.

(** ** Date arithmetic *)

Unset Implicit Arguments.

Section CalendarFacts.

Import JsDate.
Local Open Scope Z_scope.

Lemma DayFromYear_step (y : Z) :
  DayFromYear (y + 1) = DayFromYear y + 365 + InLeapYear_of y.
Proof.
  unfold DayFromYear, InLeapYear_of.
  destruct (Z.eqb_spec (y mod 4) 0), (Z.eqb_spec (y mod 100) 0),
    (Z.eqb_spec (y mod 400) 0); cbn [andb orb negb];
    Z.div_mod_to_equations; lia.
Qed.

Lemma InLeapYear_of_range (y : Z) : 0 <= InLeapYear_of y <= 1.
Proof. unfold InLeapYear_of. destruct (_ && _); lia. Qed.

Lemma DayFromYear_mono (y1 y2 : Z) :
  y1 <= y2 -> DayFromYear y1 <= DayFromYear y2.
Proof.
  intros Hle. unfold DayFromYear. Z.div_mod_to_equations. lia.
Qed.

Lemma DayFromYear_lt (y1 y2 : Z) :
  y1 < y2 -> DayFromYear y1 < DayFromYear y2.
Proof.
  intros Hlt.
  pose proof (DayFromYear_step y1) as Hs.
  pose proof (InLeapYear_of_range y1).
  pose proof (DayFromYear_mono (y1 + 1) y2). lia.
Qed.

(** [YearFromDay d] is the year that contains day [d]. *)
Lemma YearFromDay_spec (d : Z) :
  DayFromYear (YearFromDay d) <= d < DayFromYear (YearFromDay d + 1).
Proof.
  unfold YearFromDay.
  set (y := 1970 + 400 * d / 146097).
  assert (DayFromYear (y - 1) <= d < DayFromYear (y + 2)) as Hy.
  { unfold y, DayFromYear. Z.div_mod_to_equations. lia. }
  destruct (Z.ltb_spec d (DayFromYear y)).
  - replace (y - 1 + 1) with y by lia. lia.
  - destruct (Z.leb_spec (DayFromYear (y + 1)) d).
    + replace (y + 1 + 1) with (y + 2) by lia. lia.
    + lia.
Qed.

Lemma YearFromDay_unique (d y : Z) :
  DayFromYear y <= d < DayFromYear (y + 1) -> YearFromDay d = y.
Proof.
  intros Hy. pose proof (YearFromDay_spec d) as Hs.
  destruct (Z.lt_trichotomy (YearFromDay d) y) as [Hlt|[Heq|Hgt]].
  - pose proof (DayFromYear_mono (YearFromDay d + 1) y). lia.
  - exact Heq.
  - pose proof (DayFromYear_mono (y + 1) (YearFromDay d)). lia.
Qed.

Lemma YearFromDay_mono (d1 d2 : Z) :
  d1 <= d2 -> YearFromDay d1 <= YearFromDay d2.
Proof.
  intros Hle.
  pose proof (YearFromDay_spec d1). pose proof (YearFromDay_spec d2).
  destruct (Z.le_gt_cases (YearFromDay d1) (YearFromDay d2)) as [|Hgt]; [assumption|].
  pose proof (DayFromYear_mono (YearFromDay d2 + 1) (YearFromDay d1)). lia.
Qed.

Lemma DayWithinYear_range (t : Z) :
  0 <= DayWithinYear t < 365 + InLeapYear t.
Proof.
  unfold DayWithinYear, InLeapYear, YearFromTime.
  pose proof (YearFromDay_spec (Day t)) as Hs.
  rewrite DayFromYear_step in Hs. lia.
Qed.

Lemma MonthFromTime_range (t : Z) : 0 <= MonthFromTime t <= 11.
Proof.
  unfold MonthFromTime.
  repeat match goal with |- context [Z.ltb ?a ?b] => destruct (Z.ltb a b) end; lia.
Qed.

(** The day of the month counts from the start of the month. *)
Lemma DateFromTime_spec (t : Z) :
  DateFromTime t
  = DayWithinYear t - month_start (MonthFromTime t) (InLeapYear t) + 1.
Proof.
  unfold DateFromTime, MonthFromTime.
  repeat match goal with |- context [Z.ltb ?a ?b] => destruct (Z.ltb a b) end;
    cbv beta iota delta [month_start]; lia.
Qed.

(** The month and its start bracket the day within the year. *)
Lemma month_bracket (t : Z) :
  month_start (MonthFromTime t) (InLeapYear t) <= DayWithinYear t /\
  (MonthFromTime t < 11 ->
   DayWithinYear t < month_start (MonthFromTime t + 1) (InLeapYear t)).
Proof.
  pose proof (DayWithinYear_range t) as Hr.
  pose proof (InLeapYear_of_range (YearFromTime t)) as Hleap.
  fold (InLeapYear t) in Hleap.
  unfold MonthFromTime.
  repeat match goal with
    | |- context [Z.ltb ?a ?b] => destruct (Z.ltb_spec a b)
    end;
    try match goal with
      | |- context [month_start (?k + 1) _] =>
          let v := eval compute in (k + 1) in change (k + 1) with v
      end;
    cbv beta iota delta [month_start]; lia.
Qed.

Lemma month_start_mono (m1 m2 leap : Z) :
  0 <= m1 -> m1 <= m2 -> m2 <= 11 -> 0 <= leap <= 1 ->
  month_start m1 leap <= month_start m2 leap.
Proof.
  intros H1 H12 H2 Hl.
  assert (m1 = 0 \/ m1 = 1 \/ m1 = 2 \/ m1 = 3 \/ m1 = 4 \/ m1 = 5 \/ m1 = 6 \/
          m1 = 7 \/ m1 = 8 \/ m1 = 9 \/ m1 = 10 \/ m1 = 11) as Hm1 by lia.
  assert (m2 = 0 \/ m2 = 1 \/ m2 = 2 \/ m2 = 3 \/ m2 = 4 \/ m2 = 5 \/ m2 = 6 \/
          m2 = 7 \/ m2 = 8 \/ m2 = 9 \/ m2 = 10 \/ m2 = 11) as Hm2 by lia.
  repeat (destruct Hm1 as [->|Hm1]); try subst m1;
    repeat (destruct Hm2 as [->|Hm2]); try subst m2; cbv beta iota delta [month_start]; lia.
Qed.

Lemma DateFromTime_range (t : Z) : 1 <= DateFromTime t <= 31.
Proof.
  rewrite DateFromTime_spec.
  pose proof (DayWithinYear_range t) as Hr.
  pose proof (InLeapYear_of_range (YearFromTime t)) as Hleap.
  fold (InLeapYear t) in Hleap.
  unfold MonthFromTime.
  repeat match goal with
    | |- context [Z.ltb ?a ?b] => destruct (Z.ltb_spec a b)
    end; cbv beta iota delta [month_start]; lia.
Qed.

(** [setUTCDate(getUTCDate() - n)] moves the day number back by [n]. *)
Lemma MakeDay_back (t n : Z) :
  MakeDay (YearFromTime t) (MonthFromTime t) (DateFromTime t - n) = Day t - n.
Proof.
  unfold MakeDay. pose proof (MonthFromTime_range t) as Hm.
  rewrite Z.div_small, Z.mod_small by lia.
  rewrite Z.add_0_r, DateFromTime_spec.
  fold (InLeapYear t). unfold DayWithinYear. lia.
Qed.

Lemma MakeDate_back (t n : Z) :
  MakeDate (Day t - n) (TimeWithinDay t) = t - n * msPerDay.
Proof.
  unfold MakeDate, Day, TimeWithinDay, msPerDay.
  Z.div_mod_to_equations. lia.
Qed.

Lemma Day_back (t n : Z) : Day (t - n * msPerDay) = Day t - n.
Proof.
  unfold Day, msPerDay. Z.div_mod_to_equations. lia.
Qed.

End CalendarFacts.

(** ** The window in [YYYY-MM-DD] form *)

Section IsoFormat.

Import JsDate.
Local Open Scope Z_scope.

Lemma Z_range_In (lo : Z) (n : nat) (z : Z) :
  lo <= z < lo + Z.of_nat n -> In z (Z_range lo n).
Proof.
  revert lo. induction n as [|n IH]; intros lo Hz; simpl.
  - lia.
  - destruct (Z.eq_dec lo z) as [->|Hne]; [left; reflexivity|].
    right. apply IH. lia.
Qed.

Lemma ToString_four_digits (y : Z) :
  1000 <= y <= 9999 -> ToString (Some y) = four_digits y.
Proof.
  intros Hy.
  assert (forallb (fun y => String.eqb (ToString (Some y)) (four_digits y))
                  (Z_range 1000 (Z.to_nat 9000)) = true) as Hall by (vm_compute; reflexivity).
  rewrite forallb_forall in Hall. apply String.eqb_eq, Hall, Z_range_In. lia.
Qed.

Lemma padStart_two_digits (n : Z) :
  0 <= n <= 99 -> padStart 2 "0" (ToString (Some n)) = two_digits n.
Proof.
  intros Hn.
  assert (forallb (fun n => String.eqb (padStart 2 "0" (ToString (Some n)))
                                       (two_digits n))
                  (Z_range 0 (Z.to_nat 100)) = true) as Hall by (vm_compute; reflexivity).
  rewrite forallb_forall in Hall. apply String.eqb_eq, Hall, Z_range_In. lia.
Qed.

Lemma digit_compare (a b : Z) :
  0 <= a <= 9 -> 0 <= b <= 9 -> Ascii.compare (digit a) (digit b) = Z.compare a b.
Proof.
  intros Ha Hb.
  assert (a = 0 \/ a = 1 \/ a = 2 \/ a = 3 \/ a = 4 \/ a = 5 \/ a = 6 \/ a = 7 \/
          a = 8 \/ a = 9) as Hca by lia.
  assert (b = 0 \/ b = 1 \/ b = 2 \/ b = 3 \/ b = 4 \/ b = 5 \/ b = 6 \/ b = 7 \/
          b = 8 \/ b = 9) as Hcb by lia.
  repeat (destruct Hca as [->|Hca]); try subst a;
    repeat (destruct Hcb as [->|Hcb]); try subst b; reflexivity.
Qed.

(** Eight digits in two [YYYY-MM-DD] texts compare as the dates do. *)
Lemma digits_lt (a1 b1 c1 d1 e1 f1 g1 h1 a2 b2 c2 d2 e2 f2 g2 h2 : Z) :
  0 <= a1 <= 9 -> 0 <= b1 <= 9 -> 0 <= c1 <= 9 -> 0 <= d1 <= 9 ->
  0 <= e1 <= 9 -> 0 <= f1 <= 9 -> 0 <= g1 <= 9 -> 0 <= h1 <= 9 ->
  0 <= a2 <= 9 -> 0 <= b2 <= 9 -> 0 <= c2 <= 9 -> 0 <= d2 <= 9 ->
  0 <= e2 <= 9 -> 0 <= f2 <= 9 -> 0 <= g2 <= 9 -> 0 <= h2 <= 9 ->
  lex_lt (1000 * a1 + 100 * b1 + 10 * c1 + d1, 10 * e1 + f1, 10 * g1 + h1)
         (1000 * a2 + 100 * b2 + 10 * c2 + d2, 10 * e2 + f2, 10 * g2 + h2) ->
  String.ltb
    (String (digit a1) (String (digit b1) (String (digit c1) (String (digit d1)
      (String "-" (String (digit e1) (String (digit f1)
        (String "-" (String (digit g1) (String (digit h1) EmptyString))))))))))
    (String (digit a2) (String (digit b2) (String (digit c2) (String (digit d2)
      (String "-" (String (digit e2) (String (digit f2)
        (String "-" (String (digit g2) (String (digit h2) EmptyString))))))))))
  = true.
Proof.
  intros. unfold String.ltb. cbn [String.compare].
  rewrite !digit_compare by assumption.
  change (Ascii.compare "-" "-") with Eq. cbv iota.
  unfold lex_lt in *.
  destruct (Z.compare_spec a1 a2); [|reflexivity|lia].
  destruct (Z.compare_spec b1 b2); [|reflexivity|lia].
  destruct (Z.compare_spec c1 c2); [|reflexivity|lia].
  destruct (Z.compare_spec d1 d2); [|reflexivity|lia].
  destruct (Z.compare_spec e1 e2); [|reflexivity|lia].
  destruct (Z.compare_spec f1 f2); [|reflexivity|lia].
  destruct (Z.compare_spec g1 g2); [|reflexivity|lia].
  destruct (Z.compare_spec h1 h2); [lia|reflexivity|lia].
Qed.

Lemma iso_format_lt (y1 m1 d1 y2 m2 d2 : Z) :
  0 <= y1 <= 9999 -> 0 <= m1 <= 99 -> 0 <= d1 <= 99 ->
  0 <= y2 <= 9999 -> 0 <= m2 <= 99 -> 0 <= d2 <= 99 ->
  lex_lt (y1, m1, d1) (y2, m2, d2) ->
  String.ltb (iso_format (y1, m1, d1)) (iso_format (y2, m2, d2)) = true.
Proof.
  intros Hy1 Hm1 Hd1 Hy2 Hm2 Hd2 Hlt.
  change (iso_format (y1, m1, d1)) with
    (String (digit (y1 / 1000 mod 10)) (String (digit (y1 / 100 mod 10))
      (String (digit (y1 / 10 mod 10)) (String (digit (y1 mod 10))
        (String "-" (String (digit (m1 / 10 mod 10)) (String (digit (m1 mod 10))
          (String "-" (String (digit (d1 / 10 mod 10))
            (String (digit (d1 mod 10)) EmptyString)))))))))).
  change (iso_format (y2, m2, d2)) with
    (String (digit (y2 / 1000 mod 10)) (String (digit (y2 / 100 mod 10))
      (String (digit (y2 / 10 mod 10)) (String (digit (y2 mod 10))
        (String "-" (String (digit (m2 / 10 mod 10)) (String (digit (m2 mod 10))
          (String "-" (String (digit (d2 / 10 mod 10))
            (String (digit (d2 mod 10)) EmptyString)))))))))).
  apply digits_lt;
    try (match goal with |- _ <= _ <= _ => Z.div_mod_to_equations; lia end).
  replace (1000 * (y1 / 1000 mod 10) + 100 * (y1 / 100 mod 10)
           + 10 * (y1 / 10 mod 10) + y1 mod 10) with y1
    by (Z.div_mod_to_equations; lia).
  replace (1000 * (y2 / 1000 mod 10) + 100 * (y2 / 100 mod 10)
           + 10 * (y2 / 10 mod 10) + y2 mod 10) with y2
    by (Z.div_mod_to_equations; lia).
  replace (10 * (m1 / 10 mod 10) + m1 mod 10) with m1
    by (Z.div_mod_to_equations; lia).
  replace (10 * (m2 / 10 mod 10) + m2 mod 10) with m2
    by (Z.div_mod_to_equations; lia).
  replace (10 * (d1 / 10 mod 10) + d1 mod 10) with d1
    by (Z.div_mod_to_equations; lia).
  replace (10 * (d2 / 10 mod 10) + d2 mod 10) with d2
    by (Z.div_mod_to_equations; lia).
  exact Hlt.
Qed.

End IsoFormat.

Section WindowFacts.

Import JsDate.
Local Open Scope Z_scope.

Lemma Day_of_day (d : Z) : Day (d * msPerDay) = d.
Proof. unfold Day, msPerDay. apply Z.div_mul. discriminate. Qed.

(** The UTC fields of a time depend on its day number only. *)
Lemma fields_of_day (t : Z) :
  calendar_date (Day t) = (YearFromTime t, MonthFromTime t + 1, DateFromTime t).
Proof.
  unfold calendar_date, DateFromTime, MonthFromTime, DayWithinYear, InLeapYear,
    YearFromTime.
  rewrite Day_of_day. reflexivity.
Qed.

(** A later day has a later calendar date. *)
Lemma calendar_date_increases (d1 d2 : Z) :
  d1 < d2 -> lex_lt (calendar_date d1) (calendar_date d2).
Proof.
  intros Hlt. unfold calendar_date.
  set (t1 := d1 * msPerDay). set (t2 := d2 * msPerDay).
  assert (Day t1 < Day t2) as Hd by (unfold t1, t2; rewrite !Day_of_day; exact Hlt).
  pose proof (YearFromDay_mono (Day t1) (Day t2) ltac:(lia)) as Hy.
  fold (YearFromTime t1) (YearFromTime t2) in Hy.
  unfold lex_lt.
  destruct (Z.eq_dec (YearFromTime t1) (YearFromTime t2)) as [Heq|Hne]; [|lia].
  right. split; [exact Heq|].
  assert (InLeapYear t1 = InLeapYear t2) as Hleap
      by (unfold InLeapYear; rewrite Heq; reflexivity).
  assert (DayWithinYear t1 < DayWithinYear t2) as Hw
      by (unfold DayWithinYear; rewrite Heq; lia).
  pose proof (month_bracket t1) as [Hs1 He1].
  pose proof (month_bracket t2) as [Hs2 He2].
  pose proof (MonthFromTime_range t1) as Hr1.
  pose proof (MonthFromTime_range t2) as Hr2.
  pose proof (InLeapYear_of_range (YearFromTime t2)) as Hl2.
  fold (InLeapYear t2) in Hl2.
  destruct (Z.lt_trichotomy (MonthFromTime t1) (MonthFromTime t2))
    as [Hm|[Hm|Hm]].
  - left. lia.
  - right. split; [lia|]. rewrite !DateFromTime_spec, Hm, Hleap. lia.
  - exfalso.
    pose proof (month_start_mono (MonthFromTime t2 + 1) (MonthFromTime t1)
                  (InLeapYear t2) ltac:(lia) ltac:(lia) ltac:(lia) Hl2) as Hms.
    rewrite Hleap in Hs1. specialize (He2 ltac:(lia)). lia.
Qed.

Lemma year_range_days (d : Z) :
  1000 <= YearFromDay d <= 9999 ->
  DayFromYear 1000 <= d < DayFromYear 10000.
Proof.
  intros Hy. pose proof (YearFromDay_spec d) as Hs.
  pose proof (DayFromYear_mono 1000 (YearFromDay d) ltac:(lia)).
  pose proof (DayFromYear_mono (YearFromDay d + 1) 10000 ltac:(lia)). lia.
Qed.

Lemma TimeClip_in_range (t : Z) :
  DayFromYear 1000 <= Day t < DayFromYear 10000 -> TimeClip t = Some t.
Proof.
  change (DayFromYear 1000) with (-354285).
  change (DayFromYear 10000) with 2932897.
  unfold TimeClip, Day, msPerDay. intros Hd.
  destruct (Z.leb_spec (Z.abs t) 8640000000000000) as [|Hbig]; [reflexivity|].
  exfalso. Z.div_mod_to_equations. lia.
Qed.

(** In a four-digit year, [isoDateUTC] writes the calendar date as
    [YYYY-MM-DD]. *)
Lemma isoDateUTC_four_digit_year (t : Z) :
  1000 <= YearFromTime t <= 9999 ->
  History.isoDateUTC (Some t) = iso_format (calendar_date (Day t)).
Proof.
  intros Hy. rewrite fields_of_day.
  unfold History.isoDateUTC, getUTCFullYear, getUTCMonth, getUTCDate, num_add,
    option_map, iso_format.
  pose proof (MonthFromTime_range t). pose proof (DateFromTime_range t).
  rewrite ToString_four_digits by exact Hy.
  rewrite !padStart_two_digits by lia.
  reflexivity.
Qed.

(** [daysAgoUTC] moves the clock reading back by whole days. *)
Lemma daysAgoUTC_valid (now days : Z) :
  TimeClip now = Some now ->
  History.daysAgoUTC now days = TimeClip (now - days * msPerDay).
Proof.
  intros Hnow. unfold History.daysAgoUTC, new_Date. rewrite Hnow.
  unfold getUTCDate, option_map, num_sub, setUTCDate.
  rewrite MakeDay_back, MakeDate_back. reflexivity.
Qed.

End WindowFacts.

Section WindowTheorem.

Import JsDate History.
Local Open Scope Z_scope.

(** C9, as stated, fails outside the years 1000 to 9999, where [isoDateUTC]
    does not write four year digits: on 10000-01-05 the end date has five,
    and the start date, nine days earlier, is no longer the smaller text. *)
Lemma window_in_year_10000 :
  window year_10000 year_10000 P7
    = {| startISO := "9999-12-27"; endISO := "10000-01-05" |} /\
  String.ltb "9999-12-27" "10000-01-05" = false /\
  ~ window_as_specified year_10000 year_10000 P7.
Proof.
  split; [vm_compute; reflexivity|].
  split; [vm_compute; reflexivity|].
  intros (Hend & _). vm_compute in Hend. discriminate.
Qed.

(** C9, amended.  For every period and every pair of clock readings on one
    UTC date whose window lies in the years 1000 to 9999: [endISO] is that
    date and [startISO] the date [period + 2] days before it, both written
    [YYYY-MM-DD] from the UTC fields, and [startISO] is the smaller text. *)
Theorem window_in_four_digit_years :
  forall (now_end now_start : Z) (period : Period),
    Day now_start = Day now_end ->
    1000 <= YearFromDay (Day now_end - (period_value period + 2)) ->
    YearFromDay (Day now_end) <= 9999 ->
    window_as_specified now_end now_start period.
Proof.
  intros now_end now_start period Hsame Hlo Hhi.
  set (n := period_value period + 2).
  assert (0 < n) as Hn by (unfold n; destruct period; reflexivity).
  fold n in Hlo.
  pose proof (YearFromDay_mono (Day now_end - n) (Day now_end) ltac:(lia)) as Hmono.
  pose proof (year_range_days (Day now_end) ltac:(lia)) as Hend.
  pose proof (year_range_days (Day now_end - n) ltac:(lia)) as Hstart.
  assert (Day (now_start - n * msPerDay) = Day now_end - n) as Hday
      by (rewrite Day_back, Hsame; reflexivity).
  unfold window_as_specified, window. cbn [startISO endISO]. fold n.
  unfold new_Date.
  rewrite (TimeClip_in_range now_end Hend).
  rewrite daysAgoUTC_valid
    by (apply TimeClip_in_range; rewrite Hsame; exact Hend).
  rewrite (TimeClip_in_range (now_start - n * msPerDay))
    by (rewrite Hday; exact Hstart).
  rewrite (isoDateUTC_four_digit_year now_end)
    by (unfold YearFromTime; lia).
  rewrite (isoDateUTC_four_digit_year (now_start - n * msPerDay))
    by (unfold YearFromTime; rewrite Hday; lia).
  rewrite Hday. split; [reflexivity|]. split; [reflexivity|].
  pose proof (calendar_date_increases (Day now_end - n) (Day now_end) ltac:(lia))
    as Hlt.
  rewrite (fields_of_day now_end) in Hlt |- *.
  rewrite <- Hday in Hlt |- *.
  rewrite (fields_of_day (now_start - n * msPerDay)) in Hlt |- *.
  pose proof (MonthFromTime_range now_end).
  pose proof (DateFromTime_range now_end).
  pose proof (MonthFromTime_range (now_start - n * msPerDay)).
  pose proof (DateFromTime_range (now_start - n * msPerDay)).
  apply iso_format_lt; try lia; [| |exact Hlt].
  - unfold YearFromTime. rewrite Hday. lia.
  - unfold YearFromTime. lia.
Qed.

(** 1 November 2024: readings at 00:00:00.000 and 00:00:00.123 UTC. *)
Lemma window_in_four_digit_years_witness :
  window 1730419200000 1730419200123 P30
    = {| startISO := "2024-09-30"; endISO := "2024-11-01" |} /\
  window_as_specified 1730419200000 1730419200123 P30.
Proof.
  split; [vm_compute; reflexivity|].
  apply window_in_four_digit_years; vm_compute; congruence.
Defined.

End WindowTheorem.

(* ------------------------------------------------------------------ *)
(** * Part III.  The pages and the API client *)
(* ------------------------------------------------------------------ *)

(** ** The reference host reads back the watchlists it writes *)

Section RefHostJson.

Import Storage.
Import RefHost.

Lemma string_app_assoc (a b c : string) : ((a ++ b) ++ c = a ++ (b ++ c))%string.
Proof. induction a as [|x a IH]; simpl; [reflexivity | rewrite IH; reflexivity]. Qed.

Lemma string_app_length (a b : string) :
  String.length (a ++ b) = (String.length a + String.length b)%nat.
Proof. induction a as [|x a IH]; simpl; [reflexivity | rewrite IH; reflexivity]. Qed.

(** Reading what was written for one character gives that character. *)
Lemma parse_escape_char (c : ascii) (tail : string) (acc : list ascii) :
  parse_chars (escape_char c ++ tail) acc = parse_chars tail (c :: acc).
Proof. destruct c as [[] [] [] [] [] [] [] []]; reflexivity. Qed.

Lemma parse_escaped (s rest : string) (acc : list ascii) :
  parse_chars (escape s ++ String dquote rest) acc
  = Some (string_of_list_ascii (rev acc ++ list_ascii_of_string s), rest).
Proof.
  revert acc. induction s as [|c s IH]; intros acc.
  - simpl. rewrite app_nil_r. reflexivity.
  - simpl escape. rewrite string_app_assoc, parse_escape_char, IH.
    simpl. rewrite <- app_assoc. reflexivity.
Qed.

(** The text [print] writes for one pair, followed by [rest]. *)
Lemma print_pair (p : WatchPair) (rest : string) :
  (print (json_of_pair p) ++ rest)%string
  = String "{" (String dquote ("base" ++ String dquote (String ":" (String dquote
      (escape (base p) ++ String dquote (String "," (String dquote ("target" ++
         String dquote (String ":" (String dquote
           (escape (target p) ++ String dquote (String "}" rest)))))))))))).
Proof.
  unfold json_of_pair. cbn [print map fst snd String.concat quote].
  unfold quote. cbn [escape escape_char].
  repeat (rewrite string_app_assoc || cbn [append]).
  reflexivity.
Qed.

Lemma parse_value_quoted (fuel : nat) (s rest : string) :
  parse_value (S fuel) (String dquote (escape s ++ String dquote rest))
  = Some (JStr s, rest).
Proof.
  change (match parse_chars (escape s ++ String dquote rest) [] with
          | Some (str, rest') => Some (JStr str, rest')
          | None => None
          end = Some (JStr s, rest)).
  rewrite parse_escaped. cbn [rev app].
  rewrite string_of_list_ascii_of_string. reflexivity.
Qed.

Lemma parse_value_pair (fuel : nat) (p : WatchPair) (rest : string) :
  parse_value (4 + fuel) (print (json_of_pair p) ++ rest)
  = Some (json_of_pair p, rest).
Proof.
  rewrite print_pair.
  change (parse_value (4 + fuel) ?s) with (parse_value (S (S (S (S fuel)))) s).
  match goal with
  | |- parse_value _ (String "{" (String dquote (_ ++ String dquote (String ":" ?v)))) = _ =>
      change (match parse_value (S (S fuel)) v with
              | Some (v1, rest3) =>
                  match skip_ws rest3 with
                  | String "," rest4 =>
                      parse_members (S (S fuel)) rest4 (store "base" v1 [])
                  | String "}" rest4 => Some (JObj (store "base" v1 []), rest4)
                  | _ => None
                  end
              | None => None
              end = Some (json_of_pair p, rest))
  end.
  rewrite parse_value_quoted.
  match goal with
  | |- context [String "," (String dquote (_ ++ String dquote (String ":" ?v)))] =>
      change (match parse_value (S fuel) v with
              | Some (v1, rest3) =>
                  match skip_ws rest3 with
                  | String "," rest4 =>
                      parse_members (S fuel) rest4
                        (store "target" v1 (store "base" (JStr (base p)) []))
                  | String "}" rest4 =>
                      Some (JObj (store "target" v1 (store "base" (JStr (base p)) [])),
                            rest4)
                  | _ => None
                  end
              | None => None
              end = Some (json_of_pair p, rest))
  end.
  rewrite parse_value_quoted. reflexivity.
Qed.

Lemma parse_elements_step (fuel : nat) (s : string) (acc : list Json) :
  parse_elements (S fuel) s acc
  = match parse_value fuel s with
    | Some (v, rest) =>
        match skip_ws rest with
        | String "," rest' => parse_elements fuel rest' (v :: acc)
        | String "]" rest' => Some (JArr (rev (v :: acc)), rest')
        | _ => None
        end
    | None => None
    end.
Proof. reflexivity. Qed.

Lemma concat_cons2 (a b : string) (l : list string) :
  String.concat "," (a :: b :: l) = (a ++ "," ++ String.concat "," (b :: l))%string.
Proof. reflexivity. Qed.

(** The elements of a non-empty array of pairs, given fuel for its length. *)
Lemma parse_elements_pairs (l : list WatchPair) :
  forall (p : WatchPair) (acc : list Json) (fuel : nat) (rest : string),
    (length l + 5 <= fuel)%nat ->
    parse_elements fuel
      (String.concat "," (map print (map json_of_pair (p :: l))) ++ String "]" rest)
      acc
    = Some (JArr (rev acc ++ map json_of_pair (p :: l)), rest).
Proof.
  induction l as [|q l IH]; intros p acc fuel rest Hfuel;
    (destruct fuel as [|fuel]; [lia|]);
    rewrite parse_elements_step;
    replace fuel with (4 + (fuel - 4))%nat at 1 by lia.
  - cbn [map String.concat]. rewrite parse_value_pair. reflexivity.
  - cbn [map]. rewrite concat_cons2, !string_app_assoc, parse_value_pair.
    change (parse_elements fuel
              (String.concat "," (map print (map json_of_pair (q :: l)))
               ++ String "]" rest) (json_of_pair p :: acc)
            = Some (JArr (rev acc ++ json_of_pair p :: map json_of_pair (q :: l)),
                    rest)).
    rewrite IH by (simpl in Hfuel; lia).
    cbn [rev map]. rewrite <- app_assoc. reflexivity.
Qed.

Lemma pairs_text_length (l : list WatchPair) :
  (length l <= String.length (String.concat "," (map print (map json_of_pair l))))%nat.
Proof.
  induction l as [|p l IH]; [apply Nat.le_0_l|].
  destruct l as [|q l].
  - cbn. lia.
  - cbn [map]. rewrite concat_cons2, !string_app_length. cbn [length map] in *.
    assert (1 <= String.length (print (json_of_pair p)))%nat by (cbn; lia).
    lia.
Qed.

(** An array of pairs starts with the brace of its first pair. *)
Lemma pairs_text_head (p : WatchPair) (l : list WatchPair) (rest : string) :
  exists body,
    (String.concat "," (map print (map json_of_pair (p :: l))) ++ rest)%string
    = String "{" (String dquote body).
Proof.
  destruct l as [|q l].
  - cbn [map String.concat]. rewrite print_pair. eexists. reflexivity.
  - cbn [map]. rewrite concat_cons2, !string_app_assoc, print_pair.
    eexists. reflexivity.
Qed.

Lemma parse_value_array (fuel : nat) (body : string) :
  parse_value (S fuel) (String "[" (String "{" (String dquote body)))
  = parse_elements fuel (String "{" (String dquote body)) [].
Proof. reflexivity. Qed.

Lemma RefHost_json_round_trip : JsonRoundTrip RefHost.host.
Proof.
  intros x. split; [discriminate|].
  destruct x as [|p l]; [reflexivity|].
  change (parse (print (json_of_pairs (p :: l))) = Returns (json_of_pairs (p :: l))).
  unfold parse, json_of_pairs.
  change (print (JArr (map json_of_pair (p :: l))))
    with (String "[" (String.concat "," (map print (map json_of_pair (p :: l)))
                      ++ String "]" EmptyString)).
  pose proof (pairs_text_length (p :: l)) as Hlen.
  destruct (pairs_text_head p l (String "]" EmptyString)) as [body E].
  cbn [String.length]. rewrite string_app_length. cbn [String.length].
  revert Hlen. generalize (String.length
    (String.concat "," (map print (map json_of_pair (p :: l))))).
  intros n Hlen.
  replace (2 * S (n + 1) + 2)%nat with (S (2 * S (n + 1) + 1))%nat by lia.
  rewrite E, parse_value_array, <- E.
  rewrite parse_elements_pairs by (cbn [length] in Hlen; lia).
  reflexivity.
Qed.

End RefHostJson.

(** ** Loading what was saved, for every watchlist *)

Section StoredWatchlist.

Import Storage Spec.

(** What [loadWatchlist] returns when the text of a watchlist is stored. *)
Lemma load_of_stored (H : Host) (ls : LocalStorage) (x : list WatchPair) :
  readable ls = true ->
  lookup KEY (items ls) = Some (JSON_stringify (json_of_pairs x)) ->
  JSON_stringify (json_of_pairs x) <> "" ->
  JSON_parse (JSON_stringify (json_of_pairs x)) = Returns (json_of_pairs x) ->
  invariant x ->
  loadWatchlist ls = or_default x.
Proof.
  intros Hr Hstored Hne Hparse [Hall Hnd].
  rewrite loadWatchlist_cases. unfold getItem. rewrite Hr, Hstored.
  apply String.eqb_neq in Hne. rewrite Hne, Hparse. unfold json_of_pairs.
  rewrite normalized_of_valid by exact Hall.
  rewrite dedup_last_of_NoDup by exact Hnd. reflexivity.
Qed.

Lemma saveWatchlist_stored (H : Host) (x : list WatchPair) (ls : LocalStorage) :
  writable ls = true ->
  lookup KEY (items (saveWatchlist x ls)) = Some (JSON_stringify (json_of_pairs x)).
Proof.
  intros Hw. unfold saveWatchlist, setItem. rewrite Hw. simpl.
  apply lookup_store_same.
Qed.

Lemma saveWatchlist_flags (H : Host) (x : list WatchPair) (ls : LocalStorage) :
  readable (saveWatchlist x ls) = readable ls /\
  writable (saveWatchlist x ls) = writable ls.
Proof.
  unfold saveWatchlist, setItem. destruct (writable ls) eqn:Hw; simpl; auto.
Qed.

Lemma saveWatchlist_other_keys (H : Host) (x : list WatchPair) (ls : LocalStorage)
  (k : string) :
  k <> KEY -> lookup k (items (saveWatchlist x ls)) = lookup k (items ls).
Proof.
  intros Hk. unfold saveWatchlist, setItem. destruct (writable ls); simpl;
    [|reflexivity].
  rewrite lookup_store.
  destruct (String.eqb_spec KEY k) as [<-|_]; [contradiction | reflexivity].
Qed.

Lemma saveWatchlist_refused (H : Host) (x : list WatchPair) (ls : LocalStorage) :
  writable ls = false -> saveWatchlist x ls = ls.
Proof. intros Hw. unfold saveWatchlist, setItem. rewrite Hw. reflexivity. Qed.

(** X5.  Loading after saving, for every watchlist that satisfies the
    invariant, empty or not and whatever was stored before: the result is
    the saved watchlist, except that the default watchlist stands in for the
    empty one.  The storage accepts the write and the read, and [JSON.parse]
    reads back the array [JSON.stringify] wrote. *)
Theorem save_then_load_is_list_or_default :
  forall (H : Host) (ls : LocalStorage) (x : list WatchPair),
    writable ls = true ->
    readable ls = true ->
    JSON_stringify (json_of_pairs x) <> "" ->
    JSON_parse (JSON_stringify (json_of_pairs x)) = Returns (json_of_pairs x) ->
    invariant x ->
    loadWatchlist (saveWatchlist x ls)
    = match x with [] => DEFAULT_WATCHLIST | _ :: _ => x end.
Proof.
  intros H ls x Hw Hr Hne Hparse Hinv.
  apply load_of_stored; try assumption.
  - rewrite (proj1 (saveWatchlist_flags H x ls)). exact Hr.
  - apply saveWatchlist_stored. exact Hw.
Qed.

Lemma save_then_load_is_list_or_default_witness :
  loadWatchlist (H := RefHost.host)
    (saveWatchlist (H := RefHost.host) [] (storage_with example_text))
  = DEFAULT_WATCHLIST.
Proof.
  apply (save_then_load_is_list_or_default RefHost.host
           (storage_with example_text) []).
  - reflexivity.
  - reflexivity.
  - vm_compute. discriminate.
  - vm_compute. reflexivity.
  - split; constructor.
Defined.

End StoredWatchlist.

(** ** The Watchlist page over a visit *)

Section PageFacts.

Import Storage Spec WatchlistPage.

Context {H : Host}.

(** A rejected [onAdd] leaves the watchlist as it was. *)
Lemma onAdd_rejected_pairs (render s : Watchlist.State) :
  Watchlist.msg (Watchlist.onAdd render s) <> None ->
  Watchlist.pairs (Watchlist.onAdd render s) = Watchlist.pairs s.
Proof.
  unfold Watchlist.onAdd. simpl.
  destruct ((toUpperCase (Watchlist.base render) =? "")
            || (toUpperCase (Watchlist.target render) =? "")); [reflexivity|].
  destruct (toUpperCase (Watchlist.base render) =? toUpperCase (Watchlist.target render));
    [reflexivity|].
  destruct (existsb _ (Watchlist.pairs render)); [reflexivity|].
  simpl. intros Hm. contradiction Hm. reflexivity.
Qed.

(** Whether [onAdd] ends with a message depends on its render only. *)
Lemma onAdd_msg (render s s' : Watchlist.State) :
  Watchlist.msg (Watchlist.onAdd render s) = Watchlist.msg (Watchlist.onAdd render s').
Proof.
  unfold Watchlist.onAdd. simpl.
  destruct ((toUpperCase (Watchlist.base render) =? "")
            || (toUpperCase (Watchlist.target render) =? "")); [reflexivity|].
  destruct (toUpperCase (Watchlist.base render) =? toUpperCase (Watchlist.target render));
    [reflexivity|].
  destruct (existsb _ (Watchlist.pairs render)); reflexivity.
Qed.

(** A handler that does not call [setPairs] leaves the watchlist as it was. *)
Lemma handle_keeps_pairs (e : Event) (render s : Watchlist.State) :
  sets_pairs e render = false ->
  Watchlist.pairs (handle e render s) = Watchlist.pairs s.
Proof.
  destruct e; simpl; intros Hs; try reflexivity; try discriminate.
  apply onAdd_rejected_pairs. rewrite (onAdd_msg render s render).
  destruct (Watchlist.msg (Watchlist.onAdd render render)); discriminate.
Qed.

Lemma handle_invariant (e : Event) (render s : Watchlist.State) :
  (forall s, toUpperCase (toUpperCase s) = toUpperCase s) ->
  (e = ClickAdd -> Watchlist.pairs render = Watchlist.pairs s) ->
  invariant (Watchlist.pairs s) -> invariant (Watchlist.pairs (handle e render s)).
Proof.
  intros Hidem Hadd Hinv. destruct e; simpl; try exact Hinv.
  - apply onAdd_invariant; auto.
  - apply onRemove_invariant; assumption.
Qed.

Lemma step_flags (pg : Page) (st : Step) :
  readable (storage (step pg st)) = readable (storage pg) /\
  writable (storage (step pg st)) = writable (storage pg).
Proof.
  destruct st; simpl; [auto|]. unfold persist.
  destruct (pairs_set pg); [apply saveWatchlist_flags | auto].
Qed.

Lemma run_flags (steps : list Step) (pg : Page) :
  readable (storage (run steps pg)) = readable (storage pg) /\
  writable (storage (run steps pg)) = writable (storage pg).
Proof.
  revert pg. induction steps as [|st steps IH]; intros pg; [auto|].
  change (run (st :: steps) pg) with (run steps (step pg st)).
  destruct (IH (step pg st)) as [Hr Hw]. destruct (step_flags pg st) as [Hr' Hw'].
  split; congruence.
Qed.

(** A step keeps the page invariant, when an Add is handled by a render
    that shows the watchlist it adds to. *)
Lemma step_page_invariant (pg : Page) (st : Step) :
  (forall s, toUpperCase (toUpperCase s) = toUpperCase s) ->
  writable (storage pg) = true ->
  add_sees_latest pg st ->
  page_invariant pg -> page_invariant (step pg st).
Proof.
  intros Hidem Hw Hadd (Hshown & Hstate & Hstored & Hsame).
  destruct st as [e|]; unfold page_invariant; simpl.
  - split; [exact Hshown|]. split; [|split; [exact Hstored|]].
    + apply handle_invariant; try assumption.
      intros ->. exact Hadd.
    + intros Hset. apply orb_false_iff in Hset. destruct Hset as [Hset He].
      rewrite handle_keeps_pairs by exact He. apply Hsame. exact Hset.
  - split; [exact Hstate|]. split; [exact Hstate|]. split; [|reflexivity].
    unfold persist. destruct (pairs_set pg) eqn:Hset.
    + apply saveWatchlist_stored. exact Hw.
    + rewrite (Hsame eq_refl). exact Hstored.
Qed.

Lemma run_page_invariant (steps : list Step) (pg : Page) :
  (forall s, toUpperCase (toUpperCase s) = toUpperCase s) ->
  writable (storage pg) = true ->
  adds_see_latest steps pg ->
  page_invariant pg -> page_invariant (run steps pg).
Proof.
  intros Hidem. revert pg.
  induction steps as [|st steps IH]; intros pg Hw Hadds Hinv; [exact Hinv|].
  change (run (st :: steps) pg) with (run steps (step pg st)).
  destruct Hadds as [Hadd Hadds]. apply IH.
  - rewrite (proj2 (step_flags pg st)). exact Hw.
  - exact Hadds.
  - apply step_page_invariant; assumption.
Qed.

Lemma mount_page_invariant (ls : LocalStorage) :
  UpperCaseLaws H -> writable ls = true -> page_invariant (mount ls).
Proof.
  intros Hlaws Hw. unfold page_invariant, mount, persist. simpl.
  split; [apply load_invariant; exact Hlaws|].
  split; [apply load_invariant; exact Hlaws|].
  split; [apply saveWatchlist_stored; exact Hw | reflexivity].
Qed.

(** Events handled one per render meet the condition on Add. *)
Lemma one_per_render_sees_latest (es : list Event) (pg : Page) :
  Watchlist.pairs (rendered pg) = Watchlist.pairs (state pg) ->
  adds_see_latest (one_per_render es) pg.
Proof.
  revert pg. induction es as [|e es IH]; intros pg Hsame; [exact I|].
  cbn [one_per_render flat_map app adds_see_latest].
  split; [destruct e; simpl; auto|]. split; [exact I|].
  apply IH. reflexivity.
Qed.

Lemma step_other_keys (pg : Page) (st : Step) (k : string) :
  k <> KEY ->
  lookup k (items (storage (step pg st))) = lookup k (items (storage pg)).
Proof.
  intros Hk. destruct st; simpl; [reflexivity|]. unfold persist.
  destruct (pairs_set pg); [|reflexivity].
  apply saveWatchlist_other_keys. exact Hk.
Qed.

Lemma run_other_keys (steps : list Step) (pg : Page) (k : string) :
  k <> KEY ->
  lookup k (items (storage (run steps pg))) = lookup k (items (storage pg)).
Proof.
  intros Hk. revert pg. induction steps as [|st steps IH]; intros pg;
    [reflexivity|].
  change (run (st :: steps) pg) with (run steps (step pg st)).
  rewrite IH. apply step_other_keys. exact Hk.
Qed.

Lemma run_refused (steps : list Step) (pg : Page) :
  writable (storage pg) = false -> storage (run steps pg) = storage pg.
Proof.
  revert pg. induction steps as [|st steps IH]; intros pg Hw; [reflexivity|].
  change (run (st :: steps) pg) with (run steps (step pg st)).
  rewrite IH.
  - destruct st; simpl; [reflexivity|]. unfold persist.
    destruct (pairs_set pg); [|reflexivity].
    apply saveWatchlist_refused. exact Hw.
  - rewrite (proj2 (step_flags pg st)). exact Hw.
Qed.

End PageFacts.

Section PageTheorems.

Import Storage Spec WatchlistPage.

(** X6.  Reloading the page at any moment of a visit shows the watchlist that
    was on screen, with the default watchlist in place of an empty one.  The
    visit is the first render and any sequence of handler runs and renders in
    which every Add is handled by a render that shows the watchlist it adds
    to, as it is when each event is rendered before the next is handled;
    then the watchlist on screen satisfies the invariant and [loadWatchlist]
    on the storage the page has left returns it.  The storage accepts the
    writes and the reads, the host's JSON reads back the arrays of pairs it
    writes, and [toUpperCase] is idempotent. *)
Theorem watchlist_survives_reload :
  forall (H : Host) (ls : LocalStorage) (steps : list Step),
    UpperCaseLaws H ->
    JsonRoundTrip H ->
    writable ls = true ->
    readable ls = true ->
    adds_see_latest steps (mount ls) ->
    let pg := run steps (mount ls) in
    invariant (Watchlist.pairs (rendered pg)) /\
    loadWatchlist (storage pg) = or_default (Watchlist.pairs (rendered pg)) /\
    Watchlist.pairs (rendered (mount (storage pg)))
    = or_default (Watchlist.pairs (rendered pg)).
Proof.
  intros H ls steps Hlaws Hjson Hw Hr Hadds pg.
  assert (page_invariant pg) as (Hshown & _ & Hstored & _).
  { apply run_page_invariant.
    - exact (proj1 Hlaws).
    - unfold mount, persist. simpl.
      rewrite (proj2 (saveWatchlist_flags H _ ls)). exact Hw.
    - exact Hadds.
    - apply mount_page_invariant; assumption. }
  assert (loadWatchlist (storage pg) = or_default (Watchlist.pairs (rendered pg)))
    as Hload.
  { apply load_of_stored; try assumption.
    - unfold pg. rewrite (proj1 (run_flags steps (mount ls))).
      unfold mount, persist. simpl.
      rewrite (proj1 (saveWatchlist_flags H _ ls)). exact Hr.
    - apply Hjson.
    - apply Hjson. }
  split; [exact Hshown|]. split; [exact Hload|]. exact Hload.
Qed.

Lemma watchlist_survives_reload_witness :
  loadWatchlist (H := RefHost.host)
    (storage (run (H := RefHost.host) (one_per_render example_events)
                  (mount (H := RefHost.host) empty_storage)))
  = [eur_gbp].
Proof.
  destruct (watchlist_survives_reload RefHost.host empty_storage
              (one_per_render example_events))
    as (_ & Hload & _).
  - exact RefHost_upper_laws.
  - exact RefHost_json_round_trip.
  - reflexivity.
  - reflexivity.
  - apply one_per_render_sees_latest. reflexivity.
  - rewrite Hload. vm_compute. reflexivity.
Defined.

(** X7.  Over a whole visit the page writes one storage key only: after
    the first render and any sequence of handler runs and renders, every
    other key holds what it held before, the storage keeps accepting or
    refusing as it did, and a storage that refuses writes is left exactly as
    it was. *)
Theorem page_writes_one_key :
  forall (H : Host) (ls : LocalStorage) (steps : list Step),
    let pg := run steps (mount ls) in
    (forall k, k <> KEY -> lookup k (items (storage pg)) = lookup k (items ls)) /\
    readable (storage pg) = readable ls /\
    writable (storage pg) = writable ls /\
    (writable ls = false -> storage pg = ls).
Proof.
  intros H ls steps pg. unfold pg.
  destruct (run_flags steps (mount ls)) as [Hr Hw].
  destruct (saveWatchlist_flags H (loadWatchlist ls) ls) as [Hr' Hw'].
  split; [|split; [|split]].
  - intros k Hk. rewrite run_other_keys by exact Hk.
    unfold mount, persist. simpl. apply saveWatchlist_other_keys. exact Hk.
  - rewrite Hr. exact Hr'.
  - rewrite Hw. exact Hw'.
  - intros Hrefuse. rewrite run_refused.
    + unfold mount, persist. simpl. apply saveWatchlist_refused. exact Hrefuse.
    + unfold mount, persist. simpl. rewrite Hw'. exact Hrefuse.
Qed.

(** The condition on Add is needed: two presses of Add handled by one render
    put the pair on screen, and into the storage, twice. *)
Example two_adds_in_one_render :
  ~ adds_see_latest (H := RefHost.host) double_add
      (mount (H := RefHost.host) empty_storage) /\
  Watchlist.pairs
    (rendered (run (H := RefHost.host) double_add
                   (mount (H := RefHost.host) empty_storage)))
  = [eur_gbp; eur_gbp; usd_mxn] /\
  loadWatchlist (H := RefHost.host)
    (storage (run (H := RefHost.host) double_add
                  (mount (H := RefHost.host) empty_storage)))
  = [eur_gbp; usd_mxn].
Proof.
  split; [|split; vm_compute; reflexivity].
  intros (_ & _ & _ & _ & Hsecond & _). vm_compute in Hsecond.
  discriminate Hsecond.
Qed.

End PageTheorems.

(** ** Request URLs *)

Section TextFacts.

Lemma occurrences_app (c : ascii) (a b : string) :
  occurrences c (a ++ b) = (occurrences c a + occurrences c b)%nat.
Proof.
  induction a as [|d a IH]; simpl; [reflexivity|]. rewrite IH. lia.
Qed.

Lemma all_chars_app (f : ascii -> bool) (a b : string) :
  all_chars f (a ++ b) = all_chars f a && all_chars f b.
Proof.
  induction a as [|d a IH]; simpl; [reflexivity|].
  rewrite IH, andb_assoc. reflexivity.
Qed.

Lemma occurrences_none (f : ascii -> bool) (c : ascii) (s : string) :
  all_chars f s = true -> f c = false -> occurrences c s = 0%nat.
Proof.
  intros Hall Hc. induction s as [|d s IH]; simpl in *; [reflexivity|].
  apply andb_true_iff in Hall. destruct Hall as [Hd Hs].
  destruct (Ascii.eqb_spec d c) as [->|_]; [congruence|].
  rewrite IH by exact Hs. reflexivity.
Qed.

Lemma append_inj_l (a x y : string) : (a ++ x = a ++ y)%string -> x = y.
Proof.
  induction a as [|c a IH]; simpl; [auto|]. intros [= E]. auto.
Qed.

(** Two texts that agree up to the first occurrence of a separator agree
    before it and after it. *)
Lemma split_unique (c : ascii) (a a' r r' : string) :
  occurrences c a = 0%nat -> occurrences c a' = 0%nat ->
  (a ++ String c r = a' ++ String c r')%string -> a = a' /\ r = r'.
Proof.
  revert a'. induction a as [|d a IH]; intros [|d' a']; simpl.
  - intros _ _ [= E]. auto.
  - intros _ Hd' [= <- _]. rewrite Ascii.eqb_refl in Hd'. discriminate.
  - intros Hd _ [= -> _]. rewrite Ascii.eqb_refl in Hd. discriminate.
  - intros Hd Hd' [= <- E].
    destruct (d =? c)%char; [discriminate|]. simpl in Hd, Hd'.
    destruct (IH a' Hd Hd' E) as [-> ->]. auto.
Qed.

(** Induction on a list two elements at a time. *)
Lemma pair_induction {A : Type} (P : list A -> Prop) :
  P [] -> (forall u, P [u]) ->
  (forall u v s, P s -> P (v :: s) -> P (u :: v :: s)) ->
  forall s, P s.
Proof.
  intros Hnil Hone Hstep s.
  assert (P s /\ forall u, P (u :: s)) as [Hs _]; [|exact Hs].
  induction s as [|v s [IH1 IH2]].
  - split; [exact Hnil | exact Hone].
  - split; [apply IH2|]. intros u. apply Hstep; [exact IH1 | apply IH2].
Qed.

End TextFacts.

Section EncodeFacts.

Local Open Scope Z_scope.

Lemma unit_value_range (u : CodeUnit) : 0 <= unit_value u < 65536.
Proof.
  unfold unit_value.
  pose proof (N_ascii_bounded (high u)). pose proof (N_ascii_bounded (low u)).
  lia.
Qed.

Lemma percent_chars (o : Z) :
  0 <= o < 256 ->
  all_chars (fun d => uri_unreserved d || (d =? "%")%char) (percent o) = true.
Proof.
  intros Ho.
  assert (forallb (fun o => all_chars (fun d => uri_unreserved d || (d =? "%")%char)
                                      (percent o))
                  (Z_range 0 (Z.to_nat 256)) = true) as Hall
      by (vm_compute; reflexivity).
  rewrite forallb_forall in Hall. apply Hall, Z_range_In. lia.
Qed.

Lemma utf8_octets (cp : Z) :
  0 <= cp < 0x110000 -> Forall (fun o => 0 <= o < 256) (utf8 cp).
Proof.
  intros Hcp. unfold utf8.
  destruct (Z.ltb_spec cp 0x80); [repeat constructor; lia|].
  destruct (Z.ltb_spec cp 0x800);
    [repeat constructor; Z.div_mod_to_equations; lia|].
  destruct (Z.ltb_spec cp 0x10000);
    repeat constructor; Z.div_mod_to_equations; lia.
Qed.

Lemma escape_code_point_chars (cp : Z) :
  0 <= cp < 0x110000 ->
  all_chars (fun d => uri_unreserved d || (d =? "%")%char) (escape_code_point cp)
  = true.
Proof.
  intros Hcp. pose proof (utf8_octets cp Hcp) as Hos.
  unfold escape_code_point. induction Hos as [|o os Ho Hos IH]; [reflexivity|].
  cbn [map String.concat]. destruct (map percent os) eqn:E.
  - apply percent_chars. exact Ho.
  - rewrite !all_chars_app, percent_chars by exact Ho. exact IH.
Qed.

Lemma pair_code_point (c d : Z) :
  is_lead c = true -> is_trail d = true ->
  0x10000 <= (c - 0xD800) * 0x400 + (d - 0xDC00) + 0x10000 < 0x110000.
Proof.
  unfold is_lead, is_trail. rewrite !andb_true_iff, !Z.leb_le. lia.
Qed.

Lemma encodeURIComponent_cons (u : CodeUnit) (rest : JsString) :
  encodeURIComponent (u :: rest)
  = (let c := unit_value u in
     if unescaped u then
       r <- encodeURIComponent rest ;; Returns (String (low u) r)
     else if is_trail c then Throws
     else if is_lead c then
       match rest with
       | v :: rest' =>
           let d := unit_value v in
           if is_trail d then
             r <- encodeURIComponent rest' ;;
             Returns (escape_code_point
                        ((c - 0xD800) * 0x400 + (d - 0xDC00) + 0x10000) ++ r)%string
           else Throws
       | [] => Throws
       end
     else r <- encodeURIComponent rest ;; Returns (escape_code_point c ++ r)%string).
Proof. reflexivity. Qed.

Lemma isWellFormed_cons (u : CodeUnit) (rest : JsString) :
  isWellFormed (u :: rest)
  = (if is_trail (unit_value u) then false
     else if is_lead (unit_value u) then
       match rest with
       | v :: rest' => is_trail (unit_value v) && isWellFormed rest'
       | [] => false
       end
     else isWellFormed rest).
Proof. reflexivity. Qed.

(** What [encodeURIComponent] returns holds unreserved characters and
    percent signs only. *)
Lemma encodeURIComponent_chars (s : JsString) :
  forall r, encodeURIComponent s = Returns r ->
            all_chars (fun d => uri_unreserved d || (d =? "%")%char) r = true.
Proof.
  induction s as [| u | u v s IH1 IH2] using pair_induction; intros r.
  - intros [= <-]. reflexivity.
  - cbn [encodeURIComponent bind]. destruct (unescaped u) eqn:Eu.
    + intros [= <-]. unfold unescaped in Eu. apply andb_true_iff in Eu.
      cbn [all_chars]. rewrite (proj2 Eu). reflexivity.
    + destruct (is_trail (unit_value u)); [discriminate|].
      destruct (is_lead (unit_value u)); [discriminate|].
      intros [= <-]. rewrite all_chars_app, escape_code_point_chars;
        [reflexivity | pose proof (unit_value_range u); lia].
  - rewrite encodeURIComponent_cons. cbv beta iota zeta.
    destruct (unescaped u) eqn:Eu.
    + destruct (encodeURIComponent (v :: s)) as [r'|] eqn:E; cbn [bind]; [|discriminate].
      intros [= <-]. unfold unescaped in Eu. apply andb_true_iff in Eu.
      cbn [all_chars]. rewrite (proj2 Eu). apply IH2. reflexivity.
    + destruct (is_trail (unit_value u)); [discriminate|].
      destruct (is_lead (unit_value u)) eqn:El.
      * destruct (is_trail (unit_value v)) eqn:Et; [|discriminate].
        destruct (encodeURIComponent s) as [r'|] eqn:E; cbn [bind]; [|discriminate].
        intros [= <-]. rewrite all_chars_app, escape_code_point_chars, IH1;
          [reflexivity | reflexivity |].
        pose proof (pair_code_point _ _ El Et). lia.
      * destruct (encodeURIComponent (v :: s)) as [r'|] eqn:E; cbn [bind]; [|discriminate].
        intros [= <-]. rewrite all_chars_app, escape_code_point_chars, IH2;
          [reflexivity | reflexivity | pose proof (unit_value_range u); lia].
Qed.

Lemma encodeURIComponent_free (c : ascii) (s : JsString) (r : string) :
  uri_unreserved c || (c =? "%")%char = false ->
  encodeURIComponent s = Returns r ->
  occurrences c r = 0%nat.
Proof.
  intros Hc E.
  apply (occurrences_none (fun d => uri_unreserved d || (d =? "%")%char));
    [apply (encodeURIComponent_chars s); exact E | exact Hc].
Qed.

Lemma unescaped_not_surrogate (u : CodeUnit) :
  unescaped u = true ->
  is_trail (unit_value u) = false /\ is_lead (unit_value u) = false.
Proof.
  unfold unescaped. rewrite andb_true_iff. intros [Hh _].
  apply Ascii.eqb_eq in Hh. unfold unit_value. rewrite Hh.
  pose proof (N_ascii_bounded (low u)). cbn [N_of_ascii Ascii.zero].
  unfold is_trail, is_lead. split; apply andb_false_iff; left;
    apply Z.leb_gt; simpl; lia.
Qed.

(** [encodeURIComponent] throws exactly on a string that is not well
    formed. *)
Lemma encodeURIComponent_throws (s : JsString) :
  encodeURIComponent s = Throws <-> isWellFormed s = false.
Proof.
  induction s as [| u | u v s IH1 IH2] using pair_induction.
  - split; discriminate.
  - cbn [encodeURIComponent isWellFormed bind].
    destruct (unescaped u) eqn:Eu.
    + destruct (unescaped_not_surrogate u Eu) as [-> ->]. split; discriminate.
    + destruct (is_trail (unit_value u)); [tauto|].
      destruct (is_lead (unit_value u)); [tauto|]. split; discriminate.
  - rewrite encodeURIComponent_cons, isWellFormed_cons. cbv beta iota zeta.
    destruct (unescaped u) eqn:Eu.
    + destruct (unescaped_not_surrogate u Eu) as [-> ->].
      rewrite <- IH2. destruct (encodeURIComponent (v :: s)); simpl;
        split; congruence.
    + destruct (is_trail (unit_value u)); [tauto|].
      destruct (is_lead (unit_value u)).
      * destruct (is_trail (unit_value v)); [|tauto].
        cbn [andb]. rewrite <- IH1. destruct (encodeURIComponent s); simpl;
          split; congruence.
      * rewrite <- IH2. destruct (encodeURIComponent (v :: s)); simpl;
          split; congruence.
Qed.

End EncodeFacts.

Section DecodeFacts.

Local Open Scope Z_scope.

Lemma unit_of_value (u : CodeUnit) : unit_of (unit_value u) = u.
Proof.
  destruct u as [h l]. unfold unit_of, unit_value. cbn [high low].
  pose proof (N_ascii_bounded h). pose proof (N_ascii_bounded l).
  replace ((256 * Z.of_N (N_of_ascii h) + Z.of_N (N_of_ascii l)) / 256)
    with (Z.of_N (N_of_ascii h)) by (Z.div_mod_to_equations; lia).
  replace ((256 * Z.of_N (N_of_ascii h) + Z.of_N (N_of_ascii l)) mod 256)
    with (Z.of_N (N_of_ascii l)) by (Z.div_mod_to_equations; lia).
  rewrite !N2Z.id, !ascii_N_embedding. reflexivity.
Qed.

Lemma unit_of_low (c : ascii) :
  unit_of (Z.of_nat (nat_of_ascii c)) = {| high := Ascii.zero; low := c |}.
Proof.
  rewrite <- (unit_of_value {| high := Ascii.zero; low := c |}).
  f_equal. unfold unit_value, nat_of_ascii. cbn [high low].
  change (N_of_ascii Ascii.zero) with 0%N. lia.
Qed.

Lemma hex_value_HEX (k : Z) :
  0 <= k < 16 -> RefHost.hex_value (HEX k) = Some (Z.to_nat k).
Proof.
  intros Hk.
  assert (forallb (fun k => match RefHost.hex_value (HEX k) with
                            | Some n => Nat.eqb n (Z.to_nat k)
                            | None => false
                            end)
                  (Z_range 0 (Z.to_nat 16)) = true) as Hall
      by (vm_compute; reflexivity).
  rewrite forallb_forall in Hall.
  specialize (Hall k (Z_range_In 0 (Z.to_nat 16) k ltac:(lia))).
  destruct (RefHost.hex_value (HEX k)); [|discriminate].
  apply Nat.eqb_eq in Hall. congruence.
Qed.

Lemma octets_of_percent (o : Z) (tail : string) :
  0 <= o < 256 -> octets_of (percent o ++ tail) = o :: octets_of tail.
Proof.
  intros Ho. unfold percent. cbn [append octets_of Ascii.eqb Bool.eqb].
  rewrite !hex_value_HEX by (Z.div_mod_to_equations; lia).
  f_equal. Z.div_mod_to_equations. lia.
Qed.

Lemma octets_of_escape (cp : Z) (tail : string) :
  0 <= cp < 0x110000 ->
  octets_of (escape_code_point cp ++ tail) = (utf8 cp ++ octets_of tail)%list.
Proof.
  intros Hcp. pose proof (utf8_octets cp Hcp) as Hos.
  unfold escape_code_point. induction Hos as [|o os Ho Hos IH]; [reflexivity|].
  cbn [map String.concat]. destruct (map percent os) eqn:E.
  - destruct os; [|discriminate]. rewrite octets_of_percent by exact Ho.
    reflexivity.
  - rewrite !string_app_assoc, octets_of_percent by exact Ho.
    cbn [append]. rewrite IH. reflexivity.
Qed.

Lemma octets_of_unreserved (c : ascii) (tail : string) :
  uri_unreserved c = true ->
  octets_of (String c tail) = Z.of_nat (nat_of_ascii c) :: octets_of tail.
Proof.
  intros Hc. cbn [octets_of].
  destruct (Ascii.eqb_spec c "%") as [->|_]; [discriminate | reflexivity].
Qed.

Lemma unreserved_is_ascii (c : ascii) :
  uri_unreserved c = true -> (Z.of_nat (nat_of_ascii c) <? 0x80) = true.
Proof.
  destruct c as [[] [] [] [] [] [] [] []]; vm_compute; intros Hc;
    solve [reflexivity | discriminate Hc].
Qed.

Lemma utf8_units_code_point (cp : Z) (os : list Z) :
  0 <= cp < 0x110000 ->
  utf8_units (utf8 cp ++ os) = (units_of_code_point cp ++ utf8_units os)%list.
Proof.
  intros Hcp. unfold utf8.
  destruct (Z.ltb_spec cp 0x80) as [H1|H1].
  - cbn [app utf8_units].
    destruct (Z.ltb_spec cp 0x80); [|lia].
    unfold units_of_code_point. destruct (Z.ltb_spec cp 0x10000); [|lia].
    reflexivity.
  - destruct (Z.ltb_spec cp 0x800) as [H2|H2].
    + cbn [app utf8_units].
      destruct (Z.ltb_spec (0xC0 + cp / 64) 0x80);
        [Z.div_mod_to_equations; lia|].
      destruct (Z.ltb_spec (0xC0 + cp / 64) 0xE0);
        [|Z.div_mod_to_equations; lia].
      do 2 f_equal. Z.div_mod_to_equations. lia.
    + destruct (Z.ltb_spec cp 0x10000) as [H3|H3].
      * cbn [app utf8_units].
        destruct (Z.ltb_spec (0xE0 + cp / 4096) 0x80);
          [Z.div_mod_to_equations; lia|].
        destruct (Z.ltb_spec (0xE0 + cp / 4096) 0xE0);
          [Z.div_mod_to_equations; lia|].
        destruct (Z.ltb_spec (0xE0 + cp / 4096) 0xF0);
          [|Z.div_mod_to_equations; lia].
        do 2 f_equal. Z.div_mod_to_equations. lia.
      * cbn [app utf8_units].
        destruct (Z.ltb_spec (0xF0 + cp / 262144) 0x80);
          [Z.div_mod_to_equations; lia|].
        destruct (Z.ltb_spec (0xF0 + cp / 262144) 0xE0);
          [Z.div_mod_to_equations; lia|].
        destruct (Z.ltb_spec (0xF0 + cp / 262144) 0xF0);
          [Z.div_mod_to_equations; lia|].
        do 2 f_equal. Z.div_mod_to_equations. lia.
Qed.

Lemma units_of_unit (u : CodeUnit) :
  units_of_code_point (unit_value u) = [u].
Proof.
  unfold units_of_code_point. pose proof (unit_value_range u).
  destruct (Z.ltb_spec (unit_value u) 0x10000); [|lia].
  rewrite unit_of_value. reflexivity.
Qed.

Lemma units_of_pair (u v : CodeUnit) :
  is_lead (unit_value u) = true -> is_trail (unit_value v) = true ->
  units_of_code_point
    ((unit_value u - 0xD800) * 0x400 + (unit_value v - 0xDC00) + 0x10000)
  = [u; v].
Proof.
  intros Hu Hv. pose proof (pair_code_point _ _ Hu Hv) as Hcp.
  unfold is_lead, is_trail in Hu, Hv.
  rewrite !andb_true_iff, !Z.leb_le in Hu, Hv.
  unfold units_of_code_point.
  destruct (Z.ltb_spec ((unit_value u - 0xD800) * 0x400
                        + (unit_value v - 0xDC00) + 0x10000) 0x10000); [lia|].
  transitivity [unit_of (unit_value u); unit_of (unit_value v)];
    [|rewrite !unit_of_value; reflexivity].
  f_equal; [|f_equal]; f_equal; Z.div_mod_to_equations; lia.
Qed.

(** What [encodeURIComponent] wrote reads back as its argument. *)
Lemma percent_decode_encode (s : JsString) :
  forall r, encodeURIComponent s = Returns r -> percent_decode r = s.
Proof.
  unfold percent_decode.
  induction s as [| u | u v s IH1 IH2] using pair_induction; intros r.
  - intros [= <-]. reflexivity.
  - rewrite encodeURIComponent_cons. cbv beta iota zeta. cbn [encodeURIComponent bind].
    destruct (unescaped u) eqn:Eu.
    + intros [= <-]. unfold unescaped in Eu. apply andb_true_iff in Eu.
      destruct Eu as [Hh Hl]. apply Ascii.eqb_eq in Hh.
      rewrite octets_of_unreserved by exact Hl. cbn [octets_of utf8_units].
      rewrite (unreserved_is_ascii _ Hl), unit_of_low.
      destruct u; simpl in *; subst; reflexivity.
    + destruct (is_trail (unit_value u)); [discriminate|].
      destruct (is_lead (unit_value u)); [discriminate|].
      intros [= <-]. pose proof (unit_value_range u).
      rewrite octets_of_escape, utf8_units_code_point by lia.
      cbn [octets_of utf8_units]. rewrite units_of_unit. reflexivity.
  - rewrite encodeURIComponent_cons. cbv beta iota zeta.
    destruct (unescaped u) eqn:Eu.
    + destruct (encodeURIComponent (v :: s)) as [r'|] eqn:E; cbn [bind];
        [|discriminate].
      intros [= <-]. unfold unescaped in Eu. apply andb_true_iff in Eu.
      destruct Eu as [Hh Hl]. apply Ascii.eqb_eq in Hh.
      rewrite octets_of_unreserved by exact Hl. cbn [utf8_units].
      rewrite (unreserved_is_ascii _ Hl), unit_of_low, (IH2 r' eq_refl).
      destruct u; simpl in *; subst; reflexivity.
    + destruct (is_trail (unit_value u)); [discriminate|].
      destruct (is_lead (unit_value u)) eqn:El.
      * destruct (is_trail (unit_value v)) eqn:Et; [|discriminate].
        destruct (encodeURIComponent s) as [r'|] eqn:E; cbn [bind];
          [|discriminate].
        intros [= <-]. pose proof (pair_code_point _ _ El Et).
        rewrite octets_of_escape, utf8_units_code_point by lia.
        rewrite (IH1 r' eq_refl), units_of_pair by assumption. reflexivity.
      * destruct (encodeURIComponent (v :: s)) as [r'|] eqn:E; cbn [bind];
          [|discriminate].
        intros [= <-]. pose proof (unit_value_range u).
        rewrite octets_of_escape, utf8_units_code_point by lia.
        rewrite (IH2 r' eq_refl), units_of_unit. reflexivity.
Qed.

Lemma encodeURIComponent_inj (s s' : JsString) (r : string) :
  encodeURIComponent s = Returns r -> encodeURIComponent s' = Returns r -> s = s'.
Proof.
  intros E E'. rewrite <- (percent_decode_encode s r E).
  apply percent_decode_encode. exact E'.
Qed.

End DecodeFacts.

Section UrlFacts.

Import Frankfurter.

Lemma latest_url_returns (base symbol : JsString) (url : string) :
  latest_url base symbol = Returns url ->
  exists b s,
    encodeURIComponent base = Returns b /\ encodeURIComponent symbol = Returns s /\
    url = (BASE_URL ++ "/latest?base=" ++ b ++ "&symbols=" ++ s)%string.
Proof.
  unfold latest_url.
  destruct (encodeURIComponent base) as [b|]; [|discriminate].
  destruct (encodeURIComponent symbol) as [s|]; [|discriminate].
  simpl. intros [= <-]. exists b, s. auto.
Qed.

Lemma series_url_returns (start end_ : string) (base symbol : JsString)
  (url : string) :
  series_url start end_ base symbol = Returns url ->
  exists b s,
    encodeURIComponent base = Returns b /\ encodeURIComponent symbol = Returns s /\
    url = (BASE_URL ++ "/" ++ start ++ ".." ++ end_
                    ++ "?base=" ++ b ++ "&symbols=" ++ s)%string.
Proof.
  unfold series_url.
  destruct (encodeURIComponent base) as [b|]; [|discriminate].
  destruct (encodeURIComponent symbol) as [s|]; [|discriminate].
  simpl. intros [= <-]. exists b, s. auto.
Qed.

(** Building a URL throws exactly when one of the two codes is not well
    formed. *)
Lemma url_throws (base symbol : JsString) (k : string -> string -> string) :
  (b <- encodeURIComponent base ;; s <- encodeURIComponent symbol ;;
   Returns (k b s)) = Throws
  <-> isWellFormed base && isWellFormed symbol = false.
Proof.
  rewrite andb_false_iff, <- !encodeURIComponent_throws.
  destruct (encodeURIComponent base), (encodeURIComponent symbol); simpl;
    split; solve [auto | intros [E|E]; discriminate E | discriminate].
Qed.

Lemma latest_url_inj (base symbol base' symbol' : JsString) (url : string) :
  latest_url base symbol = Returns url ->
  latest_url base' symbol' = Returns url ->
  base = base' /\ symbol = symbol'.
Proof.
  intros E E'.
  apply latest_url_returns in E. destruct E as (b & s & Eb & Es & ->).
  apply latest_url_returns in E'. destruct E' as (b' & s' & Eb' & Es' & E).
  apply append_inj_l, append_inj_l in E.
  change ("&symbols=" ++ ?x)%string with (String "&" ("symbols=" ++ x)) in E.
  apply split_unique in E;
    try (eapply encodeURIComponent_free; [reflexivity | eassumption]).
  destruct E as [<- E]. apply append_inj_l in E. subst s'.
  split; eapply encodeURIComponent_inj; eassumption.
Qed.

Lemma series_url_inj (st en st' en' : string) (b t b' t' : JsString)
  (url : string) :
  occurrences "." st = 0%nat -> occurrences "." st' = 0%nat ->
  occurrences "?" en = 0%nat -> occurrences "?" en' = 0%nat ->
  series_url st en b t = Returns url ->
  series_url st' en' b' t' = Returns url ->
  st = st' /\ en = en' /\ b = b' /\ t = t'.
Proof.
  intros Hst Hst' Hen Hen' E E'.
  apply series_url_returns in E. destruct E as (eb & et & Eb & Et & ->).
  apply series_url_returns in E'. destruct E' as (eb' & et' & Eb' & Et' & E).
  apply append_inj_l, append_inj_l in E.
  change (".." ++ ?x)%string with (String "." ("." ++ x)) in E.
  apply split_unique in E; try assumption.
  destruct E as [<- E]. apply append_inj_l in E.
  change ("?base=" ++ ?x)%string with (String "?" ("base=" ++ x)) in E.
  apply split_unique in E; try assumption.
  destruct E as [<- E]. apply append_inj_l in E.
  change ("&symbols=" ++ ?x)%string with (String "&" ("symbols=" ++ x)) in E.
  apply split_unique in E;
    try (eapply encodeURIComponent_free; [reflexivity | eassumption]).
  destruct E as [<- E]. apply append_inj_l in E. subst et'.
  split; [reflexivity|]. split; [reflexivity|].
  split; eapply encodeURIComponent_inj; eassumption.
Qed.

End UrlFacts.

Section UrlTheorems.

Import Frankfurter.

(** X8.  [getLatestRate], for every two strings of 16-bit code units.  When
    one of them is not well formed (a surrogate stands alone),
    [encodeURIComponent] throws and the call rejects with the URIError, with
    no request sent.  Otherwise the URL it requests has the two query
    parameters [base] and [symbols] and nothing else: the encoded arguments
    bring in no [?], [&], [=] or [#], and they can be read back, so
    different arguments never give the same URL. *)
Theorem latest_url_has_two_parameters :
  forall base symbol : JsString,
    (latest_url base symbol = Throws
     <-> isWellFormed base && isWellFormed symbol = false) /\
    (forall fetch,
        getLatestRate fetch base symbol = Rejected URIError
        <-> isWellFormed base && isWellFormed symbol = false) /\
    (forall url,
        latest_url base symbol = Returns url ->
        occurrences "?" url = 1%nat /\
        occurrences "&" url = 1%nat /\
        occurrences "=" url = 2%nat /\
        occurrences "#" url = 0%nat /\
        (forall base' symbol',
            latest_url base' symbol' = Returns url ->
            base' = base /\ symbol' = symbol)).
Proof.
  intros base symbol.
  assert (latest_url base symbol = Throws
          <-> isWellFormed base && isWellFormed symbol = false) as Hthrows
      by apply url_throws.
  split; [exact Hthrows|]. split.
  - intros fetch. rewrite <- Hthrows. unfold getLatestRate, request.
    destruct (latest_url base symbol) as [u|]; [|tauto].
    split; [|discriminate].
    destruct (fetch u) as [r|]; [|discriminate].
    destruct (negb (ok r)); [discriminate|]. destruct (json r); discriminate.
  - intros url E. pose proof E as E0.
    apply latest_url_returns in E. destruct E as (b & s & Eb & Es & ->).
    rewrite !occurrences_app.
    rewrite !(encodeURIComponent_free "?" base b), !(encodeURIComponent_free "?" symbol s),
      !(encodeURIComponent_free "&" base b), !(encodeURIComponent_free "&" symbol s),
      !(encodeURIComponent_free "=" base b), !(encodeURIComponent_free "=" symbol s),
      !(encodeURIComponent_free "#" base b), !(encodeURIComponent_free "#" symbol s)
      by (reflexivity || assumption).
    split; [reflexivity|]. split; [reflexivity|]. split; [reflexivity|].
    split; [reflexivity|].
    intros base' symbol' E'.
    destruct (latest_url_inj _ _ _ _ _ E' E0) as [-> ->]. auto.
Qed.

(** U+00E9 and U+20AC are written as two and three octets, the pair of
    surrogates of U+1F600 as four; a surrogate on its own makes the call
    throw. *)
Example encodeURIComponent_examples :
  encodeURIComponent e_acute = Returns "%C3%A9" /\
  encodeURIComponent euro_sign = Returns "%E2%82%AC" /\
  encodeURIComponent grinning_face = Returns "%F0%9F%98%80" /\
  encodeURIComponent lone_surrogate = Throws /\
  encodeURIComponent (rev grinning_face) = Throws /\
  encodeURIComponent (code_units "a b&c=d/e?~!*'()") = Returns "a%20b%26c%3Dd%2Fe%3F~!*'()" /\
  latest_url (code_units "USD") (code_units "MXN")
  = Returns "https://api.frankfurter.dev/v1/latest?base=USD&symbols=MXN".
Proof. repeat split; vm_compute; reflexivity. Qed.

End UrlTheorems.

(** ** The texts of dates, for every date *)

Section DateText.

Import JsDate.
Local Open Scope Z_scope.

Lemma digit_is_digit (n : Z) :
  is_digit (ascii_of_nat (48 + Z.to_nat (n mod 10))) = true.
Proof.
  assert (0 <= n mod 10 < 10) as Hr by (apply Z.mod_pos_bound; lia).
  assert (forallb (fun k => is_digit (ascii_of_nat (48 + Z.to_nat k)))
                  (Z_range 0 (Z.to_nat 10)) = true) as Hall
      by (vm_compute; reflexivity).
  rewrite forallb_forall in Hall. apply Hall, Z_range_In. lia.
Qed.

Lemma digits_fuel_chars (fuel : nat) (n : Z) (acc : string) :
  all_chars iso_char acc = true ->
  all_chars iso_char (digits_fuel fuel n acc) = true.
Proof.
  revert n acc. induction fuel as [|fuel IH]; intros n acc Hacc;
    cbn [digits_fuel].
  - cbn [all_chars]. unfold iso_char at 1. rewrite digit_is_digit, Hacc.
    reflexivity.
  - destruct (n <? 10).
    + cbn [all_chars]. unfold iso_char at 1. rewrite digit_is_digit, Hacc.
      reflexivity.
    + apply IH. cbn [all_chars]. unfold iso_char at 1.
      rewrite digit_is_digit, Hacc. reflexivity.
Qed.

Lemma ToString_chars (n : option Z) : all_chars iso_char (ToString n) = true.
Proof.
  destruct n as [z|]; [|reflexivity]. unfold ToString, digits.
  destruct (z <? 0).
  - cbn [all_chars]. rewrite digits_fuel_chars by reflexivity. reflexivity.
  - apply digits_fuel_chars. reflexivity.
Qed.

Lemma repeat_fill_chars (f : ascii -> bool) (n : nat) (fill cur : string) :
  all_chars f fill = true -> all_chars f cur = true ->
  all_chars f (repeat_fill n fill cur) = true.
Proof.
  intros Hfill. revert cur. induction n as [|n IH]; intros cur Hcur;
    [reflexivity|].
  cbn [repeat_fill]. destruct cur as [|c rest].
  - destruct fill as [|c rest]; [reflexivity|].
    cbn [all_chars] in *. apply andb_true_iff in Hfill.
    destruct Hfill as [Hc Hrest]. rewrite Hc. cbn [andb].
    apply IH. exact Hrest.
  - cbn [all_chars] in *. apply andb_true_iff in Hcur.
    destruct Hcur as [Hc Hrest]. rewrite Hc. cbn [andb]. apply IH. exact Hrest.
Qed.

Lemma padStart_chars (f : ascii -> bool) (n : nat) (fill s : string) :
  all_chars f fill = true -> all_chars f s = true ->
  all_chars f (padStart n fill s) = true.
Proof.
  intros Hfill Hs. unfold padStart.
  rewrite all_chars_app, repeat_fill_chars, Hs by assumption. reflexivity.
Qed.

Lemma isoDateUTC_chars (d : Date) :
  all_chars iso_char (History.isoDateUTC d) = true.
Proof.
  unfold History.isoDateUTC.
  rewrite !all_chars_app, !padStart_chars, !ToString_chars
    by (reflexivity || apply ToString_chars).
  reflexivity.
Qed.

Lemma isoDateUTC_free (c : ascii) (d : Date) :
  iso_char c = false -> occurrences c (History.isoDateUTC d) = 0%nat.
Proof.
  intros Hc. apply (occurrences_none iso_char);
    [apply isoDateUTC_chars | exact Hc].
Qed.

Lemma TimeClip_some (t u : Z) : TimeClip t = Some u -> u = t.
Proof.
  unfold TimeClip. destruct (Z.abs t <=? 8640000000000000); congruence.
Qed.

Lemma TimeWithinDay_back (t n : Z) :
  TimeWithinDay (t - n * msPerDay) = TimeWithinDay t.
Proof.
  unfold TimeWithinDay.
  replace (t - n * msPerDay) with (t + (- n) * msPerDay) by lia.
  apply Z.mod_add. discriminate.
Qed.

End DateText.

Section DateTheorems.

Import JsDate History.
Local Open Scope Z_scope.

(** X9.  [daysAgoUTC(days)] is the instant exactly [days] times 24 hours
    before the clock reading, for every reading and every whole number of
    days, across month ends, year ends and leap days: the day number drops by
    [days] and the time within the day stays.  The result is an invalid Date
    exactly when the reading is one or the earlier instant leaves the range
    of Date. *)
Theorem daysAgoUTC_subtracts_whole_days :
  forall now days : Z,
    daysAgoUTC now days
    = match TimeClip now with
      | Some _ => TimeClip (now - days * msPerDay)
      | None => None
      end /\
    (forall t, daysAgoUTC now days = Some t ->
               t = now - days * msPerDay /\
               Day t = Day now - days /\
               TimeWithinDay t = TimeWithinDay now /\
               calendar_date (Day t) = calendar_date (Day now - days)).
Proof.
  intros now days.
  assert (daysAgoUTC now days
          = match TimeClip now with
            | Some _ => TimeClip (now - days * msPerDay)
            | None => None
            end) as Hd.
  { destruct (TimeClip now) as [u|] eqn:Hnow.
    - apply TimeClip_some in Hnow as Hu. subst u.
      apply daysAgoUTC_valid. exact Hnow.
    - unfold daysAgoUTC, new_Date. rewrite Hnow. reflexivity. }
  split; [exact Hd|].
  intros t Ht. rewrite Hd in Ht.
  destruct (TimeClip now); [|discriminate].
  apply TimeClip_some in Ht. subst t.
  rewrite Day_back, TimeWithinDay_back. auto.
Qed.

(** X10.  [isoDateUTC], for every Date: an invalid Date is written
    [NaN-NaN-NaN]; a valid one as the year of its UTC calendar date, as
    [String] writes a number (not padded, with a sign before year 0), then
    the month and the day of the month, each in exactly two digits.  The
    text holds digits, hyphens and the letters of NaN only. *)
Theorem isoDateUTC_writes_calendar_date :
  forall d : Date,
    isoDateUTC d
    = match d with
      | None => "NaN-NaN-NaN"
      | Some t =>
          let '(y, m, day) := calendar_date (Day t) in
          ToString (Some y) ++ "-" ++ two_digits m ++ "-" ++ two_digits day
      end%string /\
    all_chars iso_char (isoDateUTC d) = true.
Proof.
  intros d. split; [|apply isoDateUTC_chars].
  destruct d as [t|]; [|reflexivity].
  rewrite fields_of_day.
  unfold isoDateUTC, getUTCFullYear, getUTCMonth, getUTCDate, num_add, option_map.
  pose proof (MonthFromTime_range t). pose proof (DateFromTime_range t).
  rewrite !padStart_two_digits by lia. reflexivity.
Qed.

End DateTheorems.

Section SeriesRequest.

Import History HistoryPage.

(** X11.  The request of the History page, at every clock reading and for
    every selection of period and codes, the codes being any strings of
    16-bit code units.  When a code is not well formed, building the URL
    throws and there is no request.  Otherwise the URL has exactly the
    parameters [base] and [symbols]: the two dates of the window bring in no
    [?], [&], [=] or [#] (not even when a reading is no valid time) and the
    codes are encoded.  Two series queries that request the same URL have
    the same query key. *)
Theorem series_request_has_two_parameters :
  forall (now_end now_start : Z) (s : State),
    let q := seriesQ now_end now_start s in
    (request q = Throws <-> isWellFormed (base s) && isWellFormed (target s) = false) /\
    (forall url,
        request q = Returns url ->
        occurrences "?" url = 1%nat /\
        occurrences "&" url = 1%nat /\
        occurrences "=" url = 2%nat /\
        occurrences "#" url = 0%nat /\
        (forall (now_end' now_start' : Z) (s' : State),
            request (seriesQ now_end' now_start' s') = Returns url ->
            queryKey (seriesQ now_end' now_start' s') = queryKey q)).
Proof.
  intros now_end now_start s q.
  unfold q, seriesQ, window. cbn [request queryKey startISO endISO].
  split; [apply url_throws|].
  intros url E. pose proof E as E0.
  apply series_url_returns in E. destruct E as (b & t & Eb & Et & ->).
  split; [|split; [|split; [|split]]].
  5: { intros now_end' now_start' s' E'.
       destruct (series_url_inj _ _ _ _ _ _ _ _ _
                   (isoDateUTC_free "." _ eq_refl) (isoDateUTC_free "." _ eq_refl)
                   (isoDateUTC_free "?" _ eq_refl) (isoDateUTC_free "?" _ eq_refl)
                   E' E0) as (E1 & E2 & E3 & E4).
       rewrite E1, E2, E3, E4. reflexivity. }
  all: rewrite !occurrences_app;
    rewrite !(encodeURIComponent_free _ (base s) b),
      !(encodeURIComponent_free _ (target s) t) by (reflexivity || assumption);
    rewrite !(isoDateUTC_free _) by reflexivity; reflexivity.
Qed.

Example series_request_example :
  request (seriesQ nov_2024 nov_2024 initial)
  = Returns "https://api.frankfurter.dev/v1/2024-09-30..2024-11-01?base=USD&symbols=MXN".
Proof. vm_compute. reflexivity. Qed.

End SeriesRequest.

(** ** The rate queries of the Watchlist page *)

Section QueryFacts.

Import Storage Spec WatchlistPage.

Context {H : Host}.

Lemma query_enabled_well_formed (p : WatchPair) :
  query_enabled (fun s => s =? "") String.eqb (base p) (target p) = well_formed p.
Proof.
  unfold query_enabled, well_formed.
  destruct (base p =? ""), (target p =? ""); reflexivity.
Qed.

Lemma load_distinct (ls : LocalStorage) : distinct_pairs (loadWatchlist ls).
Proof.
  assert (distinct_pairs DEFAULT_WATCHLIST) as Hdef.
  { split; simpl; repeat constructor. simpl. tauto. }
  rewrite loadWatchlist_cases.
  destruct (getItem ls KEY) as [[text|]|]; try exact Hdef.
  destruct (text =? ""); [exact Hdef|].
  destruct (JSON_parse text) as [[| | | |entries|]|]; try exact Hdef.
  destruct (dedup_last_wins (normalized entries)) as [|p l] eqn:Hd;
    [exact Hdef|].
  simpl. rewrite <- Hd. split.
  - apply Forall_forall. intros q Hq. apply dedup_last_In in Hq.
    unfold normalized in Hq. apply filter_In in Hq. tauto.
  - rewrite dedup_last_keys. apply first_seen_NoDup.
Qed.

Lemma onAdd_distinct (render s : Watchlist.State) :
  Watchlist.pairs render = Watchlist.pairs s ->
  distinct_pairs (Watchlist.pairs s) ->
  distinct_pairs (Watchlist.pairs (Watchlist.onAdd render s)).
Proof.
  intros Hsame [Hall Hnd]. unfold Watchlist.onAdd. simpl.
  destruct (toUpperCase (Watchlist.base render) =? "") eqn:Eb; simpl;
    [split; assumption|].
  destruct (toUpperCase (Watchlist.target render) =? "") eqn:Et; simpl;
    [split; assumption|].
  destruct (toUpperCase (Watchlist.base render) =? toUpperCase (Watchlist.target render))
    eqn:Ebt; simpl; [split; assumption|].
  destruct (existsb _ (Watchlist.pairs render)) eqn:Ex; simpl;
    [split; assumption|].
  split.
  - constructor; [|exact Hall].
    unfold well_formed. simpl. rewrite Eb, Et, Ebt. reflexivity.
  - simpl. constructor; [|exact Hnd].
    intros Hin. rewrite <- Hsame in Hin. apply key_exists_iff in Hin.
    unfold pair_key in Hin. simpl in Hin. congruence.
Qed.

Lemma onRemove_distinct (p : WatchPair) (s : Watchlist.State) :
  distinct_pairs (Watchlist.pairs s) ->
  distinct_pairs (Watchlist.pairs (Watchlist.onRemove p s)).
Proof.
  intros [Hall Hnd]. unfold Watchlist.onRemove. simpl. split.
  - apply Forall_forall. intros x Hx. apply filter_In in Hx.
    rewrite Forall_forall in Hall. apply Hall. tauto.
  - apply NoDup_map_filter. exact Hnd.
Qed.

Lemma run_distinct (steps : list Step) (pg : Page) :
  adds_see_latest steps pg ->
  distinct_pairs (Watchlist.pairs (rendered pg)) ->
  distinct_pairs (Watchlist.pairs (state pg)) ->
  distinct_pairs (Watchlist.pairs (rendered (run steps pg))).
Proof.
  revert pg. induction steps as [|st steps IH]; intros pg Hadds Hr Hs;
    [exact Hr|].
  change (run (st :: steps) pg) with (run steps (step pg st)).
  destruct Hadds as [Hadd Hadds]. apply IH; [exact Hadds | |].
  - destruct st; simpl; assumption.
  - destruct st as [e|]; simpl; [|exact Hs].
    destruct e; simpl; try exact Hs.
    + apply onAdd_distinct; assumption.
    + apply onRemove_distinct. exact Hs.
Qed.

Lemma NoDup_map_injective {A B : Type} (f : A -> B) (l : list A) :
  (forall x y, f x = f y -> x = y) -> NoDup l -> NoDup (map f l).
Proof.
  intros Hinj. induction 1 as [|a l Ha Hnd IH]; simpl; constructor; [|exact IH].
  rewrite in_map_iff. intros (x & Hx & Hin). apply Hinj in Hx. congruence.
Qed.

End QueryFacts.

Section QueryTheorem.

Import Storage Spec WatchlistPage.

(** X12.  At every moment of a visit in which every Add is handled by a
    render that shows the watchlist it adds to, the Watchlist page runs one
    rate query per pair on screen, every one of them enabled, and no two of
    them share a query key; no two items of the list share their React key
    either.  What the page loads, adds and keeps has non-empty, different
    codes and no pair twice; this needs nothing of the host or the
    storage. *)
Theorem rate_queries_enabled_and_distinct :
  forall (H : Host) (ls : LocalStorage) (steps : list Step),
    adds_see_latest steps (mount ls) ->
    let shown := Watchlist.pairs (rendered (run steps (mount ls))) in
    let qs := rateQueries shown in
    length qs = length shown /\
    Forall (fun q => enabled q = true) qs /\
    NoDup (map queryKey qs) /\
    NoDup (map pair_key shown).
Proof.
  intros H ls steps Hadds shown qs.
  assert (distinct_pairs shown) as [Hall Hkeys]
      by (apply run_distinct; [exact Hadds | apply load_distinct..]).
  pose proof (NoDup_map_inv _ _ Hkeys) as Hnd.
  unfold qs, rateQueries. rewrite length_map, !map_map. cbn [queryKey].
  split; [reflexivity|]. split; [|split].
  - apply Forall_map. cbn [enabled].
    apply Forall_forall. intros p Hp. rewrite Forall_forall in Hall.
    rewrite query_enabled_well_formed. apply Hall. exact Hp.
  - apply NoDup_map_injective; [|exact Hnd].
    intros [b t] [b' t']. simpl. congruence.
  - exact Hkeys.
Qed.

Lemma rate_queries_enabled_and_distinct_witness :
  map queryKey
      (rateQueries
         (Watchlist.pairs
            (rendered (run (H := RefHost.host) (one_per_render example_events)
                           (mount (H := RefHost.host) empty_storage)))))
  = [["latest"; "EUR"; "GBP"]] /\
  NoDup
    (map queryKey
       (rateQueries
          (Watchlist.pairs
             (rendered (run (H := RefHost.host) (one_per_render example_events)
                            (mount (H := RefHost.host) empty_storage)))))).
Proof.
  split; [vm_compute; reflexivity|].
  destruct (rate_queries_enabled_and_distinct RefHost.host empty_storage
              (one_per_render example_events))
    as (_ & _ & Hkeys & _).
  - apply one_per_render_sees_latest. reflexivity.
  - exact Hkeys.
Defined.

End QueryTheorem.

(** ** The currency options *)

Section CurrencyOptions.

(** X13.  The options of the currency selects are the currencies the query
    returned, each once with its name, in the order of [localeCompare] on the
    codes; there are none while the query has no data, and the codes, which
    are the keys of the [option] elements, are pairwise different when those
    of the response are.  [localeCompare] is assumed a consistent
    comparator. *)
Theorem currencyOptions_sorted_permutation :
  forall (H : Host) (N : Type) (data : option (list (string * N))),
    ConsistentComparator H ->
    let entries := match data with Some m => m | None => [] end in
    let options := currencyOptions data in
    Permutation (map (fun o => (code o, name o)) options) entries /\
    StronglySorted (not_after (fun a b => localeCompare (code a) (code b))) options /\
    length options = length entries /\
    (NoDup (map fst entries) -> NoDup (map (fun o => code o) options)).
Proof.
  intros H N data [Htotal Htrans] entries options.
  set (cmp := fun a b : CurrencyOption N => localeCompare (code a) (code b)).
  set (made := map (fun e : string * N => {| code := fst e; name := snd e |})
                   entries).
  assert (Permutation options made) as Hperm by apply (sort_perm cmp).
  split; [|split; [|split]].
  - apply (Permutation_map (fun o => (code o, name o))) in Hperm.
    unfold made in Hperm at 1. rewrite map_map in Hperm. cbn [code name] in Hperm.
    rewrite (map_ext _ (fun e => e)) in Hperm by (intros [c n]; reflexivity).
    rewrite map_id in Hperm. exact Hperm.
  - apply (sort_sorted cmp).
    + intros a b. apply Htotal.
    + intros a b c. apply Htrans.
  - rewrite (Permutation_length Hperm). unfold made. apply length_map.
  - intros Hnd.
    apply (Permutation_map (fun o => code o)) in Hperm.
    unfold made in Hperm at 1. rewrite map_map in Hperm. cbn [code] in Hperm.
    apply (Permutation_NoDup (Permutation_sym Hperm)). exact Hnd.
Qed.

Lemma currencyOptions_sorted_permutation_witness :
  map (fun o => code o)
      (currencyOptions (H := RefHost.host) (Some example_currencies))
  = ["EUR"; "MXN"; "USD"] /\
  Permutation
    (map (fun o => (code o, name o))
         (currencyOptions (H := RefHost.host) (Some example_currencies)))
    example_currencies.
Proof.
  split; [vm_compute; reflexivity|].
  destruct (currencyOptions_sorted_permutation RefHost.host string
              (Some example_currencies) RefHost_comparator) as (Hperm & _).
  exact Hperm.
Defined.

End CurrencyOptions.

(** ** The chart and the order of the entries *)

Section EntryOrder.

Lemma Permutation_filter {A : Type} (f : A -> bool) (l l' : list A) :
  Permutation l l' -> Permutation (filter f l) (filter f l').
Proof.
  induction 1 as [|x l l' _ IH|x y l|l l' l'' _ IH1 _ IH2]; simpl.
  - constructor.
  - destruct (f x); [constructor|]; exact IH.
  - destruct (f x), (f y); try apply Permutation_refl.
    apply perm_swap.
  - exact (Permutation_trans IH1 IH2).
Qed.

(** Two sorted lists with the same elements are the same list, when no two
    different elements tie. *)
Lemma sorted_perm_eq {A : Type} (R : A -> A -> Prop) (l : list A) :
  forall l',
    StronglySorted R l -> StronglySorted R l' -> Permutation l l' ->
    (forall a b, In a l -> In b l -> R a b -> R b a -> a = b) ->
    l = l'.
Proof.
  induction l as [|a t IH]; intros l' Hs Hs' Hp Hanti.
  - apply Permutation_nil in Hp. congruence.
  - destruct l' as [|a' t'].
    + apply Permutation_sym, Permutation_nil in Hp. discriminate.
    + inversion Hs as [|? ? Hst Hat]; subst.
      inversion Hs' as [|? ? Hst' Hat']; subst.
      rewrite Forall_forall in Hat, Hat'.
      assert (In a' (a :: t)) as Ha'
          by (apply (Permutation_in _ (Permutation_sym Hp)); left; reflexivity).
      assert (In a (a' :: t')) as Ha
          by (apply (Permutation_in _ Hp); left; reflexivity).
      assert (a = a') as <-.
      { destruct Ha' as [E|Hin']; [exact E|].
        destruct Ha as [E|Hin]; [congruence|].
        apply Hanti; [left; reflexivity | right; exact Hin' | auto | auto]. }
      f_equal. apply Permutation_cons_inv in Hp.
      apply IH; try assumption.
      intros x y Hx Hy. apply Hanti; right; assumption.
Qed.

End EntryOrder.

Section EntryOrderTheorem.

Import History.

(** X14.  The chart does not depend on the order in which the response lists
    the dates: when no two different points tie under [localeCompare] on
    their dates, [chartData] gives the same list for every rearrangement of
    the entries.  (With ties the sort keeps the order of the entries.) *)
Theorem chartData_ignores_entry_order :
  forall (H : Host) (rates rates' : list (string * Json)) (target : string)
         (period : Period),
    ConsistentComparator H ->
    labels_defined rates ->
    Permutation rates rates' ->
    no_ties date_cmp (number_points rates target) ->
    chartData rates' target period = chartData rates target period.
Proof.
  intros H rates rates' target period [Htotal Htrans] Hl Hperm Hties.
  assert (labels_defined rates') as Hl'.
  { intros d obj Hin. apply (Hl d obj).
    apply (Permutation_in _ (Permutation_sym Hperm)). exact Hin. }
  rewrite !chartData_returns by assumption. do 2 f_equal.
  assert (Permutation (number_points rates target) (number_points rates' target))
    as Hpts by (apply Permutation_filter, Permutation_map; exact Hperm).
  symmetry. apply (sorted_perm_eq (not_after date_cmp)).
  - apply sort_sorted; intros; [apply Htotal | eapply Htrans]; eassumption.
  - apply sort_sorted; intros; [apply Htotal | eapply Htrans]; eassumption.
  - eapply Permutation_trans; [apply sort_perm|].
    eapply Permutation_trans; [exact Hpts|].
    apply Permutation_sym, sort_perm.
  - intros a b Ha Hb. apply Hties;
      apply (Permutation_in _ (sort_perm date_cmp _)); assumption.
Qed.

Lemma chartData_ignores_entry_order_witness :
  chartData (H := RefHost.host) (rev week_rates) "MXN" P7
  = chartData (H := RefHost.host) week_rates "MXN" P7.
Proof.
  apply (chartData_ignores_entry_order RefHost.host).
  - exact RefHost_comparator.
  - exact RefHost_week_labels.
  - apply Permutation_rev.
  - intros a b Ha Hb H1 H2. vm_compute in Ha, Hb.
    destruct Ha as [<-|[<-|[]]], Hb as [<-|[<-|[]]]; try reflexivity;
      exfalso; vm_compute in H1, H2;
      ((apply H1; reflexivity) || (apply H2; reflexivity)).
Defined.

End EntryOrderTheorem.

(** ** More on the two handlers *)

Section HandlerAlgebra.

Import Storage Spec.

(** X15.  Pressing Add twice.  With a render between the two presses, one
    that shows what the first press left and the same selection, the second
    [onAdd] leaves the watchlist as the first one left it: after an accepted
    add it is rejected as a duplicate, after a rejected add it is rejected
    again.  Handled by the same render, the second [onAdd] does not see the
    pair the first one added, and the pair is on the list twice. *)
Theorem onAdd_twice :
  forall (H : Host) (render s : Watchlist.State),
    Watchlist.pairs render = Watchlist.pairs s ->
    let once := Watchlist.onAdd render s in
    let new := {| base := toUpperCase (Watchlist.base render);
                  target := toUpperCase (Watchlist.target render) |} in
    (forall render',
        Watchlist.pairs render' = Watchlist.pairs once ->
        Watchlist.base render' = Watchlist.base render ->
        Watchlist.target render' = Watchlist.target render ->
        Watchlist.pairs (Watchlist.onAdd render' once) = Watchlist.pairs once /\
        (Watchlist.msg once = None ->
         Watchlist.onAdd render' once = rejected DuplicatePair once)) /\
    (Watchlist.msg once = None ->
     Watchlist.onAdd render once = accepted (new :: new :: Watchlist.pairs s) once).
Proof.
  intros H render s Hsame once new.
  destruct (onAdd_cases H render s) as (Hempty & Heq & Hdup & Hnew).
  fold new in Hdup, Hnew.
  destruct (string_dec (toUpperCase (Watchlist.base render)) "") as [Eb|Eb];
    [|destruct (string_dec (toUpperCase (Watchlist.target render)) "") as [Et|Et];
      [|destruct (string_dec (toUpperCase (Watchlist.base render))
                             (toUpperCase (Watchlist.target render))) as [Ebt|Ebt];
        [|destruct (in_dec string_dec (pair_key new)
                           (map pair_key (Watchlist.pairs render))) as [Hin|Hin]]]].
  - assert (once = rejected EmptyField s) as E by (apply Hempty; auto).
    split; [|rewrite E; discriminate].
    intros render' Hp Hb Ht.
    destruct (onAdd_cases H render' once) as (Hempty' & _).
    rewrite Hb in Hempty'. rewrite Hempty' by auto.
    split; [reflexivity | rewrite E; discriminate].
  - assert (once = rejected EmptyField s) as E by (apply Hempty; auto).
    split; [|rewrite E; discriminate].
    intros render' Hp Hb Ht.
    destruct (onAdd_cases H render' once) as (Hempty' & _).
    rewrite Ht in Hempty'. rewrite Hempty' by auto.
    split; [reflexivity | rewrite E; discriminate].
  - assert (once = rejected SamePair s) as E by (apply Heq; auto).
    split; [|rewrite E; discriminate].
    intros render' Hp Hb Ht.
    destruct (onAdd_cases H render' once) as (_ & Heq' & _).
    rewrite Hb, Ht in Heq'. rewrite Heq' by auto.
    split; [reflexivity | rewrite E; discriminate].
  - assert (once = rejected DuplicatePair s) as E by (apply Hdup; auto).
    split; [|rewrite E; discriminate].
    intros render' Hp Hb Ht.
    destruct (onAdd_cases H render' once) as (_ & _ & Hdup' & _).
    rewrite Hb, Ht in Hdup'. fold new in Hdup'.
    assert (In (pair_key new) (map pair_key (Watchlist.pairs render'))) as Hin'
        by (rewrite Hp, E; cbn [rejected Watchlist.pairs]; rewrite <- Hsame;
            exact Hin).
    rewrite (Hdup' Eb Et Ebt Hin').
    split; [reflexivity | rewrite E; discriminate].
  - assert (once = accepted (new :: Watchlist.pairs s) s) as E
        by (apply Hnew; auto).
    split.
    + intros render' Hp Hb Ht.
      destruct (onAdd_cases H render' once) as (_ & _ & Hdup' & _).
      rewrite Hb, Ht in Hdup'. fold new in Hdup'.
      assert (In (pair_key new) (map pair_key (Watchlist.pairs render'))) as Hin'
          by (rewrite Hp, E; left; reflexivity).
      rewrite (Hdup' Eb Et Ebt Hin'). split; reflexivity.
    + intros _. destruct (onAdd_cases H render once) as (_ & _ & _ & Hnew').
      fold new in Hnew'. rewrite Hnew' by auto.
      rewrite E. reflexivity.
Qed.

Lemma onAdd_twice_witness :
  Watchlist.onAdd (H := RefHost.host) after_one_add after_one_add
  = rejected DuplicatePair after_one_add /\
  Watchlist.onAdd (H := RefHost.host) example_state after_one_add
  = accepted [eur_gbp; eur_gbp; usd_mxn] after_one_add.
Proof.
  destruct (onAdd_twice RefHost.host example_state example_state eq_refl)
    as (Hbetween & Hsame).
  split.
  - apply (Hbetween after_one_add); reflexivity.
  - apply Hsame. reflexivity.
Defined.

(** X16.  Removing is idempotent and the order of removals does not matter:
    [onRemove] of a pair a second time changes nothing, and two removals
    give the same state in either order. *)
Theorem onRemove_idempotent_and_commutes :
  forall (p q : WatchPair) (s : Watchlist.State),
    Watchlist.onRemove p (Watchlist.onRemove p s) = Watchlist.onRemove p s /\
    Watchlist.onRemove p (Watchlist.onRemove q s)
    = Watchlist.onRemove q (Watchlist.onRemove p s).
Proof.
  intros p q s. unfold Watchlist.onRemove, Watchlist.setPairs. simpl.
  rewrite !filter_is_remove.
  rewrite remove_remove_eq, (remove_remove_comm WatchPair_eq_dec _ p q).
  split; reflexivity.
Qed.

End HandlerAlgebra.

Section PeriodSuffix.

Import History.

Lemma slice_slice {A : Type} (p q : Z) (l : list A) :
  (0 < p <= q)%Z -> slice (- p) (slice (- q) l) = slice (- p) l.
Proof.
  intros Hpq. rewrite !slice_last by lia.
  rewrite skipn_skipn, length_skipn. f_equal. lia.
Qed.

(** X18.  The chart of a shorter period is the end of the chart of a longer
    one: on the same response, [chartData] for period [p] is the last [p]
    points of [chartData] for any period [q >= p], and it throws exactly when
    that one does. *)
Theorem chartData_shorter_period_is_suffix :
  forall (H : Host) (rates : list (string * Json)) (target : string)
         (p q : Period),
    (period_value p <= period_value q)%Z ->
    chartData rates target p
    = (long <- chartData rates target q ;;
       Returns (slice (- period_value p) long)).
Proof.
  intros H rates target p q Hpq. unfold chartData.
  destruct (mapE (make_point target) rates) as [mapped|]; [|reflexivity].
  simpl. rewrite slice_slice; [reflexivity|].
  split; [destruct p; reflexivity | exact Hpq].
Qed.

Lemma chartData_shorter_period_is_suffix_witness :
  chartData (H := RefHost.host) ten_days "MXN" P7
  = (long <- chartData (H := RefHost.host) ten_days "MXN" P30 ;;
     Returns (slice (- 7) long)).
Proof.
  apply (chartData_shorter_period_is_suffix RefHost.host ten_days "MXN" P7 P30).
  vm_compute. discriminate.
Defined.

End PeriodSuffix.
